(** * Lcapy core: typed domain expressions and superpositions

    A shallow embedding of [lcapy/core.py]: the class hierarchy rooted at
    [Expr], the constructors ([__init__] chains), the compatibility rules
    of the arithmetic operators ([__compat_mul__], [__compat_add__] and the
    [Phasor] overrides), the transforms that only do bookkeeping around the
    algebra engine, and the [Super] container ([_kind], [_decompose], [add],
    [time]).

    The symbolic algebra engine (SymPy, together with the helper modules
    [lcapy.acdc], [lcapy.laplace] and [lcapy.fourier]) is an external
    collaborator.  It is an interface here ([Engine]); the results hold for
    every engine, and a small term engine ([Toy.engine]) instantiates it
    for the closed examples. *)

From stdpp Require Import base decidable option list gmap strings.
From Stdlib Require Import ZArith Reals Lra.

Local Open Scope string_scope.
Local Open Scope list_scope.

(** ** Symbols and classes *)

(** The four domain variables of core.py: [ssym], [tsym], [fsym],
    [omegasym]. *)
Inductive symbol := ssym | tsym | fsym | omegasym.

#[global] Instance symbol_eq_dec : EqDecision symbol.
Proof. solve_decision. Defined.

(** The classes of core.py that derive from [Expr]. *)
Inductive cls :=
| Expr | sfwExpr | sExpr | fExpr | omegaExpr | tExpr | cExpr
| Phasor | Vphasor | Iphasor | Vconst | Iconst
| Zs | Ys | Vs | Is | Hs
| Yt | Zt | Vt | It | Ht
| Yf | Zf | Hf | Vf | If
| noiseExpr | Vn | In
| Yomega | Zomega | Vomega | Iomega | Homega.

#[global] Instance cls_eq_dec : EqDecision cls.
Proof. solve_decision. Defined.

(** The base class named in each [class C(B)] statement. *)
Definition parent (c : cls) : option cls :=
  match c with
  | Expr => None
  | sfwExpr | tExpr | cExpr | Phasor => Some Expr
  | sExpr | fExpr | omegaExpr => Some sfwExpr
  | Vphasor | Iphasor => Some Phasor
  | Vconst | Iconst => Some cExpr
  | Zs | Ys | Vs | Is | Hs => Some sExpr
  | Yt | Zt | Vt | It | Ht => Some tExpr
  | Yf | Zf | Hf | Vf | If => Some fExpr
  | noiseExpr => Some omegaExpr
  | Vn | In => Some noiseExpr
  | Yomega | Zomega | Vomega | Iomega | Homega => Some omegaExpr
  end.

(** The method resolution order of a class (single inheritance): the class
    followed by its ancestors.  The hierarchy is five levels deep. *)
Fixpoint mro_upto (depth : nat) (c : cls) : list cls :=
  c :: match depth, parent c with
       | S d, Some p => mro_upto d p
       | _, _ => []
       end.

Definition mro (c : cls) : list cls := mro_upto 5 c.

Definition issubclass (c d : cls) : bool := bool_decide (d ∈ mro c).

(** ** Domains and quantity roles

    The two coordinates of a concrete class, read off the class docstrings
    (["s-domain voltage"], ["f-domain admittance"], ...). *)
Inductive domain :=
| Dtime | Dlaplace | Dfourier | Dangular | Dnoise | Dphasor | Dconstant
| Dgeneric.

Inductive role :=
| voltage | current | impedance | admittance | transfer_function | undefined.

#[global] Instance domain_eq_dec : EqDecision domain.
Proof. solve_decision. Defined.
#[global] Instance role_eq_dec : EqDecision role.
Proof. solve_decision. Defined.

Definition domain_of (c : cls) : domain :=
  if issubclass c sExpr then Dlaplace
  else if issubclass c tExpr then Dtime
  else if issubclass c fExpr then Dfourier
  else if issubclass c noiseExpr then Dnoise
  else if issubclass c omegaExpr then Dangular
  else if issubclass c Phasor then Dphasor
  else if issubclass c cExpr then Dconstant
  else Dgeneric.

Definition quantity_role (c : cls) : role :=
  match c with
  | Vs | Vt | Vf | Vomega | Vphasor | Vconst | Vn => voltage
  | Is | It | If | Iomega | Iphasor | Iconst | In => current
  | Zs | Zt | Zf | Zomega => impedance
  | Ys | Yt | Yf | Yomega => admittance
  | Hs | Ht | Hf | Homega => transfer_function
  | _ => undefined
  end.

(** ** Errors and results *)

Inductive error :=
| DomainViolation (c : cls) (x : symbol)
    (* ValueError: '<d>-domain expression %s cannot depend on <x>' *)
| Incompatible (c xc : cls) (op : string)
    (* ValueError: 'Cannot combine %s(%s) with %s(%s) for %s' *)
| IncompatibleArguments (c xc : option cls) (op : string)
    (* TypeError: 'Incompatible arguments %s and %s for %s' (Phasor) *)
| OmegaMismatch (c xc : cls)
    (* ValueError: 'Cannot combine %s(%s, omega=%s) with %s(%s, omega=%s)' *)
| NotAC
    (* ValueError: 'Do not know how to convert %s to phasor' *)
| CannotHandle (c : option cls)
    (* ValueError: 'Cannot handle value %s of type %s' *)
| Unsupported
    (* TypeError or AttributeError of Python or SymPy on an operand they
       do not handle, such as None * t *)
| RecursionDepth.
    (* the call depth given to a recursive method is used up *)

Inductive result (A : Type) :=
| OK (a : A)
| Raise (e : error).
Arguments OK {A} a.
Arguments Raise {A} e.

#[global] Instance result_ret : MRet result := fun A a => OK a.
#[global] Instance result_bind : MBind result := fun A B f m =>
  match m with
  | OK a => f a
  | Raise e => Raise e
  end.

(** ** Values

    The data of the model, over the type [sym] of the payloads. *)

(** An assumption value: a keyword argument of a constructor is [True],
    [False], [None], or (for ['omega']) a symbolic value. *)
Inductive aval (sym : Type) :=
| ABool (b : bool)
| ANone
| AVal (e : sym).
Arguments ABool {sym} b.
Arguments ANone {sym}.
Arguments AVal {sym} e.

#[global] Instance aval_eq_dec {sym} `{EqDecision sym} : EqDecision (aval sym).
Proof. solve_decision. Defined.


(** An instance of a class of the [Expr] hierarchy: its class, its payload
    [self.expr], its [self.assumptions] dictionary and the two conjugate
    class attributes, absent ([None]) when no [__init__] of the chain
    assigns them. *)
Record value_of (sym : Type) := mkValue {
  vcls : cls;
  expr : sym;
  assumptions : gmap string (aval sym);
  _laplace_conjugate_class : option cls;
  _fourier_conjugate_class : option cls;
}.
Arguments mkValue {sym} _ _ _ _ _.
Arguments vcls {sym} _.
Arguments expr {sym} _.
Arguments assumptions {sym} _.
Arguments _laplace_conjugate_class {sym} _.
Arguments _fourier_conjugate_class {sym} _.

#[global] Instance value_eq_dec {sym} `{EqDecision sym} : EqDecision (value_of sym).
Proof. solve_decision. Defined.

(** A constructor argument: a sympifiable value (number, SymPy expression)
    or an instance of [Expr]. *)
Inductive arg_of (sym : Type) :=
| Raw (e : sym)
| Obj (v : value_of sym).
Arguments Raw {sym} e.
Arguments Obj {sym} v.

(** A key of a [Super] dictionary: one of the strings ['dc'], ['s'], ['n'],
    or an angular frequency. *)
Inductive kind_of (sym : Type) :=
| KStr (s : string)
| KSym (w : sym).
Arguments KStr {sym} s.
Arguments KSym {sym} w.

#[global] Instance kind_eq_dec {sym} `{EqDecision sym} : EqDecision (kind_of sym).
Proof. solve_decision. Defined.

(** The dictionary itself, in insertion order. *)
Definition super_of (sym : Type) := list (kind_of sym * value_of sym).

(** A value handed to [Super.add]: a Python number, a string (both given by
    the payload they sympify to), an [Expr] instance or another [Super]. *)
Inductive pyvalue_of (sym : Type) :=
| PNum (e : sym)
| PStr (e : sym)
| PExpr (v : value_of sym)
| PSuper (S : super_of sym).
Arguments PNum {sym} e.
Arguments PStr {sym} e.
Arguments PExpr {sym} v.
Arguments PSuper {sym} S.

(** ** The algebra engine *)

(** What core.py asks of SymPy and of lcapy's helper modules.  Payloads are
    sympified values: [sympify] returns a SymPy expression unchanged, and a
    Python number is represented by its payload ([Int z]). *)
Class Engine := {
  sym : Type;
  sym_eq_dec :: EqDecision sym;
  Int : Z → sym;                          (* sympify of an integer *)
  Sym : symbol → sym;                     (* ssym, tsym, fsym, omegasym *)
  ImagI : sym;                            (* sym.I *)
  Pi : sym;                               (* sym.pi *)
  has : symbol → sym → bool;              (* expr.find(x) != set() *)
  sym_add : sym → sym → sym;
  sym_sub : sym → sym → sym;
  sym_mul : sym → sym → sym;
  sym_div : sym → sym → sym;
  sym_pow : sym → sym → sym;
  sym_neg : sym → sym;
  sym_conjugate : sym → sym;              (* sym.conjugate *)
  sym_simplify : sym → sym;               (* expr.simplify() *)
  sym_sqrt : sym → sym;                   (* sym.sqrt *)
  sym_re : sym → sym;                     (* sym.re *)
  sym_im : sym → sym;                     (* sym.im *)
  sym_cos : sym → sym;
  sym_sin : sym → sym;
  sym_exp : sym → sym;
  sym_subs : sym → symbol → sym → sym;    (* expr.subs(old, new) *)
  sym_coeff0 : sym → symbol → sym;        (* expr.coeff(x, 0) *)
  as_ordered_terms : sym → list sym;
  acdc_is_dc : sym → symbol → bool;       (* lcapy.acdc.is_dc *)
  acdc_is_ac : sym → symbol → bool;       (* lcapy.acdc.is_ac *)
  acdc_is_causal : sym → symbol → bool;   (* lcapy.acdc.is_causal *)
  ACChecker : sym → symbol → option (sym * sym * sym);
    (* lcapy.acdc.ACChecker: None when not check.is_ac, otherwise
       (check.amp, check.phase, check.omega) *)
  laplace_transform : sym → sym;
  inverse_laplace_transform : sym → gmap string (aval sym) → sym;
  fourier_transform : sym → sym;
  inverse_fourier_transform : sym → sym;
}.

(** The engine never invents a domain variable: a result of an arithmetic
    or elementary operation has the variable only if an operand has it,
    and integers have none. *)
Class EngineClosed (E : Engine) : Prop := {
  has_Int : ∀ x z, has x (Int z) = false;
  has_Sym : ∀ x y, has x (Sym y) = true → x = y;
  has_ImagI : ∀ x, has x ImagI = false;
  has_Pi : ∀ x, has x Pi = false;
  has_add : ∀ x a b, has x (sym_add a b) = true → has x a = true ∨ has x b = true;
  has_sub : ∀ x a b, has x (sym_sub a b) = true → has x a = true ∨ has x b = true;
  has_mul : ∀ x a b, has x (sym_mul a b) = true → has x a = true ∨ has x b = true;
  has_div : ∀ x a b, has x (sym_div a b) = true → has x a = true ∨ has x b = true;
  has_conjugate : ∀ x a, has x (sym_conjugate a) = true → has x a = true;
  has_simplify : ∀ x a, has x (sym_simplify a) = true → has x a = true;
  has_sqrt : ∀ x a, has x (sym_sqrt a) = true → has x a = true;
  has_subs : ∀ x a y b,
    has x (sym_subs a y b) = true → (x ≠ y ∧ has x a = true) ∨ has x b = true;
}.

(** ** Values and constructors *)

Abbreviation assumptions_t := (gmap string (aval sym)).
Abbreviation value := (value_of sym).
Abbreviation arg := (arg_of sym).
Abbreviation kind := (kind_of sym).
Abbreviation super := (super_of sym).
Abbreviation pyvalue := (pyvalue_of sym).

Section Model.
Context {E : Engine}.

Definition Zero : sym := Int 0.

Definition isinstance (v : value) (c : cls) : bool := issubclass (vcls v) c.

Definition set_laplace (c : cls) (v : value) : value :=
  mkValue (vcls v) (expr v) (assumptions v) (Some c) (_fourier_conjugate_class v).

Definition set_fourier (c : cls) (v : value) : value :=
  mkValue (vcls v) (expr v) (assumptions v) (_laplace_conjugate_class v) (Some c).

Definition set_assumptions (a : assumptions_t) (v : value) : value :=
  mkValue (vcls v) (expr v) a (_laplace_conjugate_class v) (_fourier_conjugate_class v).

(** The payload that [symbols_find(val)] and [arg == 0] look at. *)
Definition arg_payload (x : arg) : sym :=
  match x with
  | Raw e => e
  | Obj v => expr v
  end.

(** [Expr.__init__]: an [Expr] argument gives its payload, and its
    assumptions when no keyword was passed; the value 0 forces
    [causal=True].  [Expr_assumptions] is the dictionary the method stores
    in [self.assumptions]. *)
Definition Expr_assumptions (x : arg) (kw : assumptions_t) : assumptions_t :=
  let kw1 := match x with
             | Obj v => if decide (kw = ∅) then assumptions v else kw
             | Raw _ => kw
             end in
  if decide (arg_payload x = Zero) then <["causal" := ABool true]> kw1 else kw1.

Definition Expr_init (self : cls) (x : arg) (kw : assumptions_t) : result value :=
  OK (mkValue self (arg_payload x) (Expr_assumptions x kw) None None).

(** The check [if self.expr.find(x) != set(): raise ValueError(...)]. *)
Definition forbid (x : symbol) (v : value) : result value :=
  if has x (expr v) then Raise (DomainViolation (vcls v) x) else OK v.

Definition sfwExpr_init (self : cls) (x : arg) (kw : assumptions_t) : result value :=
  Expr_init self x kw.

Definition sExpr_init (self : cls) (x : arg) (kw : assumptions_t) : result value :=
  v ← sfwExpr_init self x kw;
  forbid tsym (set_laplace tExpr v).

Definition fExpr_init (self : cls) (x : arg) (kw : assumptions_t) : result value :=
  v ← sfwExpr_init self x (<["real" := ABool true]> kw);
  v ← forbid ssym (set_fourier tExpr v);
  forbid tsym v.

Definition omegaExpr_init (self : cls) (x : arg) (kw : assumptions_t) : result value :=
  v ← sfwExpr_init self x (<["real" := ABool true]> kw);
  v ← forbid ssym (set_fourier tExpr v);
  forbid tsym v.

Definition tExpr_init (self : cls) (x : arg) (kw : assumptions_t) : result value :=
  v ← Expr_init self x (<["real" := ABool true]> kw);
  forbid ssym (set_laplace sExpr (set_fourier fExpr v)).

(** [cExpr.__init__] looks for the names 's', 'omega', 't', 'f' in
    [symbols_find(val)] before anything else.  The search is made on the
    argument as it is given: for a number or an expression these are the
    names of its symbols, and for an instance of [Expr], which is only
    unwrapped later by [Expr.__init__], the search finds no name. *)
Definition cExpr_init (self : cls) (x : arg) (kw : assumptions_t) : result value :=
  match match x with
        | Raw e => filter (λ y, has y e = true) [ssym; omegasym; tsym; fsym]
        | Obj _ => []
        end with
  | y :: _ => Raise (DomainViolation self y)
  | [] =>
      let kw1 := <["real" := ABool true]> kw in
      let kw2 := match kw1 !! "positive" with
                 | None => <["positive" := ABool true]> kw1
                 | Some _ => kw1
                 end in
      Expr_init self x kw2
  end.

Definition Phasor_init (self : cls) (x : arg) (kw : assumptions_t) : result value :=
  Expr_init self x (<["positive" := ABool true]> kw).

(** The typed classes call the [__init__] of their base and then assign
    their conjugate class. *)
Definition typed_s_init (conj : cls) (self : cls) (x : arg) (kw : assumptions_t) : result value :=
  v ← sExpr_init self x kw; OK (set_laplace conj v).

Definition typed_t_init (lconj fconj : cls) (self : cls) (x : arg) (kw : assumptions_t)
  : result value :=
  v ← tExpr_init self x kw; OK (set_fourier fconj (set_laplace lconj v)).

Definition typed_f_init (conj : cls) (self : cls) (x : arg) (kw : assumptions_t) : result value :=
  v ← fExpr_init self x kw; OK (set_fourier conj v).

Definition typed_omega_init (conj : cls) (self : cls) (x : arg) (kw : assumptions_t)
  : result value :=
  v ← omegaExpr_init self x kw; OK (set_fourier conj v).

Definition typed_noise_init (conj : cls) (self : cls) (x : arg) (kw : assumptions_t)
  : result value :=
  v ← omegaExpr_init self x (<["positive" := ABool true]> kw); OK (set_fourier conj v).

Definition typed_phasor_init (conj : cls) (self : cls) (x : arg) (kw : assumptions_t)
  : result value :=
  v ← Phasor_init self x kw; OK (set_laplace conj v).

Definition typed_const_init (conj : cls) (self : cls) (x : arg) (kw : assumptions_t)
  : result value :=
  v ← cExpr_init self x kw; OK (set_laplace conj v).

(** [c(x, **kw)]: the [__init__] that the class [c] defines or inherits. *)
Definition construct (c : cls) (x : arg) (kw : assumptions_t) : result value :=
  match c with
  | Expr => Expr_init c x kw
  | sfwExpr => sfwExpr_init c x kw
  | sExpr => sExpr_init c x kw
  | fExpr => fExpr_init c x kw
  | omegaExpr | noiseExpr => omegaExpr_init c x kw
  | tExpr => tExpr_init c x kw
  | cExpr => cExpr_init c x kw
  | Phasor => Phasor_init c x kw
  | Vphasor => typed_phasor_init Vt c x kw
  | Iphasor => typed_phasor_init It c x kw
  | Vconst => typed_const_init Vt c x kw
  | Iconst => typed_const_init It c x kw
  | Zs => typed_s_init Zt c x kw
  | Ys => typed_s_init Yt c x kw
  | Vs => typed_s_init Vt c x kw
  | Is => typed_s_init It c x kw
  | Hs => typed_s_init Ht c x kw
  | Yt => typed_t_init Ys Yf c x kw
  | Zt => typed_t_init Zs Zf c x kw
  | Vt => typed_t_init Vs Vf c x kw
  | It => typed_t_init Is If c x kw
  | Ht => typed_t_init Hs Hf c x kw
  | Yf => typed_f_init Yt c x kw
  | Zf => typed_f_init Zt c x kw
  | Hf => typed_f_init Ht c x kw
  | Vf => typed_f_init Vt c x kw
  | If => typed_f_init It c x kw
  | Vn => typed_noise_init Vt c x kw
  | In => typed_noise_init It c x kw
  | Yomega => typed_omega_init Yt c x kw
  | Zomega => typed_omega_init Zt c x kw
  | Vomega => typed_omega_init Vt c x kw
  | Iomega => typed_omega_init It c x kw
  | Homega => typed_omega_init Ht c x kw
  end.

(** The keywords that reach [Expr.__init__] when [c(x, **kw)] runs: the
    [__init__] methods on the way add ['real'] and ['positive']. *)
Definition init_keywords (c : cls) (kw : assumptions_t) : assumptions_t :=
  if issubclass c cExpr then
    let kw1 := <["real" := ABool true]> kw in
    match kw1 !! "positive" with
    | None => <["positive" := ABool true]> kw1
    | Some _ => kw1
    end
  else if issubclass c Phasor then <["positive" := ABool true]> kw
  else if bool_decide (c ∈ [Vn; In]) then
    <["real" := ABool true]> (<["positive" := ABool true]> kw)
  else if issubclass c fExpr || issubclass c omegaExpr || issubclass c tExpr then
    <["real" := ABool true]> kw
  else kw.

(** ** Assumptions: [infer_assumptions], [is_dc], [is_ac], [is_causal] *)

(** [Expr.infer_assumptions] stores [None] under the three keys;
    [tExpr.infer_assumptions] asks [lcapy.acdc] about the payload, stopping
    at the first shape that fits. *)
Definition Expr_infer_assumptions (v : value) : value :=
  set_assumptions
    (<["causal" := ANone]> (<["ac" := ANone]> (<["dc" := ANone]> (assumptions v)))) v.

Definition tExpr_infer_assumptions (v : value) : value :=
  let a0 := <["causal" := ABool false]>
              (<["ac" := ABool false]> (<["dc" := ABool false]> (assumptions v))) in
  if acdc_is_dc (expr v) tsym then set_assumptions (<["dc" := ABool true]> a0) v
  else if acdc_is_ac (expr v) tsym then set_assumptions (<["ac" := ABool true]> a0) v
  else if acdc_is_causal (expr v) tsym then set_assumptions (<["causal" := ABool true]> a0) v
  else set_assumptions a0 v.

Definition infer_assumptions (v : value) : value :=
  if isinstance v tExpr then tExpr_infer_assumptions v else Expr_infer_assumptions v.

(** The properties [is_dc], [is_ac], [is_causal]: when the key is absent the
    object first runs [infer_assumptions] on itself, so each returns the
    answer together with the object as it is afterwards. *)
Definition assumption_property (key : string) (v : value) : bool * value :=
  let v' := match assumptions v !! key with
            | None => infer_assumptions v
            | Some _ => v
            end in
  (bool_decide (assumptions v' !! key = Some (ABool true)), v').

Definition is_dc := assumption_property "dc".
Definition is_ac := assumption_property "ac".
Definition is_causal := assumption_property "causal".

(** [is_complex] never infers. *)
Definition is_complex (v : value) : bool :=
  bool_decide (assumptions v !! "complex" = Some (ABool true)).

(** The property [omega] returns the entry stored under ['omega'],
    whatever it is, and the global [omega = omegaExpr('omega')] when there
    is none: it is read off [assumptions v !! "omega"], where [None]
    stands for the global object.

    [entry_value] is a stored entry as a Python value: a frequency, a
    boolean, which is the integer 1 or 0, or [None].  [omega_key] is what
    callers obtain after [if hasattr(omega, 'expr'): omega = omega.expr];
    it is [None] when the entry is [None]. *)
Definition entry_value (a : aval sym) : option sym :=
  match a with
  | AVal w => Some w
  | ABool b => Some (Int (if b then 1 else 0))
  | ANone => None
  end.

Definition omega_key (v : value) : option sym :=
  match assumptions v !! "omega" with
  | None => Some (Sym omegasym)
  | Some a => entry_value a
  end.

(** The global object [omega = omegaExpr('omega')]. *)
Definition omega_global : result value :=
  construct omegaExpr (Raw (Sym omegasym)) ∅.

(** ** The compatibility engine *)

(** The assumptions [Expr.__compat_mul__] computes for two s-domain
    operands; the operands come back as the property calls leave them. *)
Definition mul_assumptions (self x : value) : assumptions_t * value * value :=
  let '(c1, self) := is_causal self in
  if c1 then ({["causal" := ABool true]}, self, x) else
  let '(c2, x) := is_causal x in
  if c2 then ({["causal" := ABool true]}, self, x) else
  let '(d1, self) := is_dc self in
  let '(d2, x) := if d1 then is_dc x else (false, x) in
  if d1 && d2 then (assumptions self, self, x) else
  let '(a1, self) := is_ac self in
  let '(a2, x) := if a1 then is_ac x else (false, x) in
  if a1 && a2 then (assumptions self, self, x) else
  let '(a1', self) := is_ac self in
  let '(d2', x) := if a1' then is_dc x else (false, x) in
  if a1' && d2' then ({["ac" := ABool true]}, self, x) else
  let '(d1', self) := is_dc self in
  let '(a2', x) := if d1' then is_ac x else (false, x) in
  if d1' && a2' then ({["ac" := ABool true]}, self, x) else
  (∅, self, x).

(** [Expr.__compat_mul__]: the class of the result, the two operands as
    they are used, and the assumptions of the result. *)
Definition Expr_compat_mul (self : value) (x : arg) (op : string)
  : result (cls * value * value * assumptions_t) :=
  let c := vcls self in
  match x with
  | Raw _ => x' ← construct c x ∅; OK (c, self, x', ∅)
  | Obj x =>
      let xc := vcls x in
      let '(a, self, x) :=
        if isinstance self sExpr && isinstance x sExpr
        then mul_assumptions self x else (∅, self, x) in
      if decide (c = xc) then x' ← construct c (Obj x) ∅; OK (c, self, x', a)
      else if isinstance self omegaExpr && isinstance x tExpr then OK (xc, self, x, a)
      else if isinstance self tExpr && isinstance x omegaExpr then OK (c, self, x, a)
      else if bool_decide (xc ∈ [Expr; cExpr]) then x' ← construct c (Obj x) ∅; OK (c, self, x', a)
      else if bool_decide (c ∈ [Expr; cExpr]) then OK (xc, self, x, a)
      else if isinstance x c then x' ← construct c (Obj x) ∅; OK (xc, self, x', a)
      else if isinstance self xc then x' ← construct c (Obj x) ∅; OK (c, self, x', a)
      else if isinstance self tExpr && isinstance x tExpr
        then x' ← construct c (Obj x) ∅; OK (c, self, x', a)
      else if isinstance self sExpr && isinstance x sExpr
        then x' ← construct c (Obj x) ∅; OK (c, self, x', a)
      else if isinstance self omegaExpr && isinstance x omegaExpr
        then x' ← construct c (Obj x) ∅; OK (c, self, x', a)
      else Raise (Incompatible c xc op)
  end.

(** [Expr.__compat_add__]. *)
Definition Expr_compat_add (self : value) (x : arg) (op : string)
  : result (cls * value * value * assumptions_t) :=
  let c := vcls self in
  match x with
  | Raw _ => x' ← construct c x ∅; OK (c, self, x', ∅)
  | Obj x =>
      let xc := vcls x in
      let a : assumptions_t :=
        if isinstance self sExpr && isinstance x sExpr
        then (if decide (assumptions self = assumptions x) then assumptions self else ∅)
        else ∅ in
      if decide (c = xc) then OK (c, self, x, a)
      else if isinstance self xc then OK (c, self, x, a)
      else if isinstance x c then x' ← construct c (Obj x) ∅; OK (xc, self, x', a)
      else if bool_decide (xc ∈ [Expr; cExpr]) then OK (c, self, x, a)
      else if bool_decide (c ∈ [Expr; cExpr])
        then self' ← construct c (Obj self) ∅; OK (xc, self', x, a)
      else Raise (Incompatible c xc op)
  end.

(** [Expr.__ne__] on an instance whose class has the [__compat_add__] of
    [Expr], for a partner that is not [None]. *)
Definition Expr_ne (self : value) (x : arg) : result bool :=
  '(c, self, x, _) ← Expr_compat_add self x "!=";
  x ← construct c (Obj x) ∅;
  OK (negb (bool_decide (expr self = expr x))).

(** The test [self.omega != x.omega] of the phasor methods.  Two stored
    entries are compared as Python values, and the global object with
    itself is equal.  The global object and a stored entry are compared
    by [Expr.__ne__] (a SymPy value on the left defers to it): the answer
    is [True] for [None], and otherwise the entry is wrapped in
    [omegaExpr] and the payloads are compared; a boolean is not the
    symbol [omega]. *)
Definition omega_ne (self x : value) : result bool :=
  match assumptions self !! "omega", assumptions x !! "omega" with
  | None, None => OK false
  | None, Some (AVal w) | Some (AVal w), None => o ← omega_global; Expr_ne o (Raw w)
  | None, Some _ | Some _, None => OK true
  | Some a, Some b => OK (negb (bool_decide (entry_value a = entry_value b)))
  end.

(** [Phasor.__compat_add__]: a number other than the integer 0 is rejected
    like any other non-phasor. *)
Definition Phasor_compat_add (self : value) (x : arg) (op : string)
  : result (cls * value * value * assumptions_t) :=
  let c := vcls self in
  match x with
  | Raw e =>
      if decide (e = Zero)
      then x' ← construct c x ∅; OK (c, self, x', assumptions self)
      else Raise (IncompatibleArguments (Some c) None op)
  | Obj x =>
      if negb (isinstance x Phasor)
      then Raise (IncompatibleArguments (Some c) (Some (vcls x)) op)
      else
        ne ← omega_ne self x;
        if (ne : bool) then Raise (OmegaMismatch c (vcls x)) else OK (c, self, x, ∅)
  end.

(** [Phasor.__compat_mul__]. *)
Definition Phasor_compat_mul (self : value) (x : arg) (op : string)
  : result (cls * value * value * assumptions_t) :=
  let c := vcls self in
  match x with
  | Raw _ => x' ← construct c x ∅; OK (c, self, x', assumptions self)
  | Obj x =>
      if isinstance x omegaExpr then OK (c, self, x, assumptions self)
      else if negb (isinstance x Phasor)
      then Raise (IncompatibleArguments (Some c) (Some (vcls x)) op)
      else
        ne ← omega_ne self x;
        if (ne : bool) then Raise (OmegaMismatch c (vcls x))
        else OK (c, self, x, assumptions self)
  end.

(** Method lookup on the class of [self]. *)
Definition __compat_mul__ (self : value) (x : arg) (op : string) :=
  if isinstance self Phasor then Phasor_compat_mul self x op
  else Expr_compat_mul self x op.

Definition __compat_add__ (self : value) (x : arg) (op : string) :=
  if isinstance self Phasor then Phasor_compat_add self x op
  else Expr_compat_add self x op.

(** The arithmetic operators; each ends in [cls(<payload>, **assumptions)]. *)
Definition __mul__ (self : value) (x : arg) : result value :=
  '(c, self, x, a) ← __compat_mul__ self x "*";
  construct c (Raw (sym_mul (expr self) (expr x))) a.

Definition __truediv__ (self : value) (x : arg) : result value :=
  '(c, self, x, a) ← __compat_mul__ self x "/";
  construct c (Raw (sym_div (expr self) (expr x))) a.

Definition __add__ (self : value) (x : arg) : result value :=
  '(c, self, x, a) ← __compat_add__ self x "+";
  construct c (Raw (sym_add (expr self) (expr x))) a.

Definition __sub__ (self : value) (x : arg) : result value :=
  '(c, self, x, a) ← __compat_add__ self x "-";
  construct c (Raw (sym_sub (expr self) (expr x))) a.

(** [Expr.__eq__] for a partner that is not [None]. *)
Definition __eq__ (self : value) (x : arg) : result bool :=
  '(c, self, x, _) ← __compat_add__ self x "==";
  x ← construct c (Obj x) ∅;
  OK (bool_decide (expr self = expr x)).

Definition __ne__ (self : value) (x : arg) : result bool :=
  '(c, self, x, _) ← __compat_add__ self x "!=";
  x ← construct c (Obj x) ∅;
  OK (negb (bool_decide (expr self = expr x))).

Definition __rmul__ (self : value) (x : arg) : result value :=
  '(c, self, x, a) ← __compat_mul__ self x "*";
  construct c (Raw (sym_mul (expr self) (expr x))) a.

(** ** Wrapped engine calls *)

(** The property [conjugate]: [self.__class__(sym.conjugate(self.expr))]. *)
Definition conjugate (v : value) : result value :=
  construct (vcls v) (Raw (sym_conjugate (expr v))) ∅.

(** [v.simplify()] goes through [Expr.__getattr__], whose wrapper returns
    [self.__class__(ret, **self.assumptions)]. *)
Definition simplify (v : value) : result value :=
  construct (vcls v) (Raw (sym_simplify (expr v))) (assumptions v).

(** The properties [real] and [imag]. *)
Definition real (v : value) : result value :=
  construct (vcls v) (Raw (sym_simplify (sym_re (expr v)))) ∅.

Definition imag (v : value) : result value :=
  construct (vcls v) (Raw (sym_simplify (sym_im (expr v)))) ∅.

(** [_funcwrap(func, v)] for an [Expr] argument [v], as used by [sqrt],
    [cos], [sin] and [exp]. *)
Definition _funcwrap (func : sym → sym) (v : value) : result value :=
  construct (vcls v) (Raw (func (expr v))) ∅.

Definition sqrt (v : value) : result value := _funcwrap sym_sqrt v.
Definition cos (v : value) : result value := _funcwrap sym_cos v.
Definition sin (v : value) : result value := _funcwrap sym_sin v.
Definition exp (v : value) : result value := _funcwrap sym_exp v.

(** The module-level objects [t = tExpr('t')] and [f = fExpr('f')]. *)
Definition t : result value := construct tExpr (Raw (Sym tsym)) ∅.
Definition f : result value := construct fExpr (Raw (Sym fsym)) ∅.

(** ** Substitution and transforms *)

(** The [class_map] table of [Expr._subs1], keyed by the exact classes of
    [self] and [new]. *)
Definition class_map (c n : cls) : option cls :=
  match c, n with
  | Hs, omegaExpr => Some Homega
  | Is, omegaExpr => Some Iomega
  | Vs, omegaExpr => Some Vomega
  | Ys, omegaExpr => Some Yomega
  | Zs, omegaExpr => Some Zomega
  | Hs, fExpr => Some Hf
  | Is, fExpr => Some If
  | Vs, fExpr => Some Vf
  | Ys, fExpr => Some Yf
  | Zs, fExpr => Some Zf
  | Hf, omegaExpr => Some Homega
  | If, omegaExpr => Some Iomega
  | Vf, omegaExpr => Some Vomega
  | Yf, omegaExpr => Some Yomega
  | Zf, omegaExpr => Some Zomega
  | Homega, fExpr => Some Hf
  | Iomega, fExpr => Some If
  | Vomega, fExpr => Some Vf
  | Yomega, fExpr => Some Yf
  | Zomega, fExpr => Some Zf
  | _, _ => None
  end.

(** [Expr._subs1(old, new)] for [old] one of the domain variables, which
    are always known to the context.  The replacement of an empty
    [Piecewise] by [nan] is part of [sym_subs]. *)
Definition _subs1 (self : value) (old : symbol) (new : arg) : result value :=
  let c := match new with
           | Obj n => match class_map (vcls self) (vcls n) with
                      | Some m => m
                      | None => vcls n
                      end
           | Raw _ => vcls self
           end in
  construct c (Raw (sym_subs (expr self) old (arg_payload new))) ∅.

(** The class attribute [var]. *)
Definition var (c : cls) : option symbol :=
  if issubclass c sExpr then Some ssym
  else if issubclass c fExpr then Some fsym
  else if issubclass c omegaExpr then Some omegasym
  else if issubclass c tExpr then Some tsym
  else None.

(** [sExpr.__call__(arg)]: [self._subs1(self.var, arg)]. *)
Definition sExpr_call (self : value) (x : arg) : result value :=
  _subs1 self ssym x.

(** The payload of [j * 2 * pi], and the object [j * 2 * pi * f], which is
    [f.__rmul__(j * 2 * pi)]. *)
Definition j2pi : sym := sym_mul (sym_mul ImagI (Int 2)) Pi.

Definition j2pif : result value := f0 ← f; __rmul__ f0 (Raw j2pi).

(** [sExpr.inverse_laplace] (called with keywords [kw]) and its alias [sExpr.time]. *)
Definition inverse_laplace (self : value) (kw : assumptions_t) : result value :=
  let kw := if decide (kw = ∅) then assumptions self else kw in
  let r := inverse_laplace_transform (expr self) kw in
  match _laplace_conjugate_class self with
  | Some c => construct c (Raw r) ∅
  | None => construct tExpr (Raw r) ∅
  end.

Definition sExpr_time (self : value) (kw : assumptions_t) : result value :=
  inverse_laplace self kw.

(** [tExpr.laplace()]: infers the assumptions of [self] and hands them to
    the result. *)
Definition tExpr_laplace (self : value) : result value :=
  let self := infer_assumptions self in
  let r := laplace_transform (expr self) in
  match _laplace_conjugate_class self with
  | Some c => construct c (Raw r) (assumptions self)
  | None => construct sExpr (Raw r) (assumptions self)
  end.

(** [tExpr.fourier()]. *)
Definition tExpr_fourier (self : value) : result value :=
  let r := fourier_transform (expr self) in
  match _fourier_conjugate_class self with
  | Some c => construct c (Raw r) (assumptions self)
  | None => construct fExpr (Raw r) (assumptions self)
  end.

(** [sExpr.fourier()]. *)
Definition sExpr_fourier (self : value) : result value :=
  let '(causal, self) := is_causal self in
  if causal then x ← j2pif; sExpr_call self (Obj x)
  else v ← sExpr_time self ∅; tExpr_fourier v.

(** [tExpr.phasor()]. *)
Definition tExpr_phasor (self : value) : result value :=
  match ACChecker (expr self) tsym with
  | None => Raise NotAC
  | Some (amp, phase, omega) =>
      construct Phasor (Raw (sym_mul amp (sym_exp (sym_mul ImagI phase))))
        {["omega" := AVal omega]}
  end.

(** [Phasor.time()].  An ['omega'] entry that is [None] or a boolean is
    no frequency: the products [omega * t] and [j * omega] fail inside
    Python or SymPy. *)
Definition Phasor_time (self : value) : result value :=
  omega ← match assumptions self !! "omega" with
          | None => OK (Sym omegasym)
          | Some (AVal w) => OK w
          | Some _ => Raise Unsupported
          end;
  t0 ← t;
  result ←
    (if is_complex self then
       jwt ← __rmul__ t0 (Raw (sym_mul ImagI omega));
       e ← exp jwt;
       __rmul__ e (Raw (expr self))
     else
       re ← real self;
       wt ← __rmul__ t0 (Raw omega);
       c ← cos wt;
       rc ← __rmul__ c (Raw (expr re));
       im ← imag self;
       wt ← __rmul__ t0 (Raw omega);
       s ← sin wt;
       si ← __rmul__ s (Raw (expr im));
       __add__ rc (Obj si));
  match _laplace_conjugate_class self with
  | Some c => construct c (Obj result) ∅
  | None => construct tExpr (Obj result) ∅
  end.

(** [Vconst.time()] and [Iconst.time()]: [Vt(self)], [It(self)]. *)
Definition const_time (self : value) : result value :=
  match vcls self with
  | Vconst => construct Vt (Obj self) ∅
  | Iconst => construct It (Obj self) ∅
  | c => Raise (CannotHandle (Some c))
  end.

(** [fExpr.inverse_fourier()] and [omegaExpr.time()], which is
    [self(2 * pi * f).inverse_fourier()]. *)
Definition fExpr_inverse_fourier (self : value) : result value :=
  let r := inverse_fourier_transform (expr self) in
  match _fourier_conjugate_class self with
  | Some c => construct c (Raw r) ∅
  | None => construct tExpr (Raw r) ∅
  end.

Definition omegaExpr_time (self : value) : result value :=
  f0 ← f;
  x ← __rmul__ f0 (Raw (sym_mul (Int 2) Pi));
  y ← _subs1 self omegasym (Obj x);
  fExpr_inverse_fourier y.

(** ** Superpositions *)

Fixpoint getitem (k : kind) (S : super) : option value :=
  match S with
  | [] => None
  | (k', v) :: S' => if decide (k = k') then Some v else getitem k S'
  end.

Fixpoint setitem (k : kind) (v : value) (S : super) : super :=
  match S with
  | [] => [(k, v)]
  | (k', v') :: S' =>
      if decide (k = k') then (k, v) :: S' else (k', v') :: setitem k v S'
  end.

Definition keys (S : super) : list kind := S.*1.
Definition values (S : super) : list value := S.*2.

(** The two concrete containers and their class attributes; the tables keep
    the order in which the source writes them. *)
Inductive supercls := Vsuper | Isuper.

Definition type_map (sc : supercls) : list (cls * cls) :=
  match sc with
  | Vsuper => [(cExpr, Vconst); (sExpr, Vs); (noiseExpr, Vn); (omegaExpr, Vphasor)]
  | Isuper => [(cExpr, Iconst); (sExpr, Is); (noiseExpr, In); (omegaExpr, Iphasor)]
  end.

Definition transform_domains (sc : supercls) : list (string * cls) :=
  match sc with
  | Vsuper => [("s", Vs); ("ac", Vphasor); ("dc", Vconst); ("n", Vn)]
  | Isuper => [("s", Is); ("ac", Iphasor); ("dc", Iconst); ("n", In)]
  end.

Definition time_class (sc : supercls) : cls :=
  match sc with
  | Vsuper => Vt
  | Isuper => It
  end.

(** [Super._kind]; for a phasor whose ['omega'] entry is [None] the key
    is [None]. *)
Definition _kind (sc : supercls) (v : value) : option kind :=
  if isinstance v Phasor then KSym <$> omega_key v
  else
    match filter (λ km, isinstance v km.2 = true) (transform_domains sc) with
    | (k, _) :: _ => Some (KStr k)
    | [] => None
    end.

(** The conversion [Super.add] tries when [_kind] finds nothing: the exact
    class in [type_map], else the first entry the value is an instance
    of; the value is kept when there is none. *)
Definition retype (sc : supercls) (v : value) : result value :=
  match filter (λ cc, bool_decide (vcls v = cc.1)) (type_map sc) with
  | (_, c2) :: _ => construct c2 (Obj v) ∅
  | [] =>
      match filter (λ cc, isinstance v cc.1 = true) (type_map sc) with
      | (_, c2) :: _ => construct c2 (Obj v) ∅
      | [] => OK v
      end
  end.

(** The power-basis combination of the noise branch of [Super.add]:
    [(value * value.conjugate).simplify()]. *)
Definition power (v : value) : result value :=
  vc ← conjugate v;
  p ← __mul__ v (Obj vc);
  simplify p.

(** [Super.add] from [kind = self._kind(value)] on: first the key and the
    (possibly converted) value, then the combination with the entry
    stored under that key. *)
Definition classify (sc : supercls) (v : value) : result (option kind * value) :=
  match _kind sc v with
  | Some k => OK (Some k, v)
  | None => v' ← retype sc v; OK (_kind sc v', v')
  end.

Definition add_kind (sc : supercls) (S : super) (v : value) : result super :=
  '(k, v) ← classify sc v;
  match k with
  | None => Raise (CannotHandle (Some (vcls v)))
  | Some k =>
      if decide (k = KStr "n") then
        valuesq ← power v;
        match getitem k S with
        | None => r ← sqrt valuesq; OK (setitem k r S)
        | Some old =>
            value1sq ← power old;
            total ← __add__ value1sq (Obj valuesq);
            total ← simplify total;
            r ← sqrt total;
            OK (setitem k r S)
        end
      else
        match getitem k S with
        | None => OK (setitem k v S)
        | Some old => r ← __add__ old (Obj v); OK (setitem k r S)
        end
  end.

(** [value == 0] at the head of [Super.add]: number comparison for a
    number, [Expr.__eq__] for an instance, and [False] for a string or a
    dictionary. *)
Definition eq_zero (pv : pyvalue) : result bool :=
  match pv with
  | PNum e => OK (bool_decide (e = Zero))
  | PExpr v => __eq__ v (Raw Zero)
  | PStr _ | PSuper _ => OK false
  end.

(** The values that are an exact zero: the number 0, and an instance
    whose payload is 0. *)
Definition exact_zero (pv : pyvalue) : Prop :=
  match pv with
  | PNum e => e = Zero
  | PExpr v => expr v = Zero
  | PStr _ | PSuper _ => False
  end.

(** [Super._decompose], over the [add] it calls back. *)
Definition _decompose (add : super → pyvalue → result super)
    (S : super) (v : value) : result super :=
  let dc := sym_coeff0 (expr v) tsym in
  '(S, v) ← (if decide (dc = Zero) then OK (S, v)
             else c ← construct cExpr (Raw dc) ∅;
                  S ← add S (PExpr c);
                  v ← __sub__ v (Raw dc);
                  OK (S, v));
  z ← __eq__ v (Raw Zero);
  if (z : bool) then OK S else
  '(S, ac) ← foldl (λ acc term,
                '(S, ac) ← acc;
                if acdc_is_ac term tsym then
                  tm ← construct tExpr (Raw term) ∅;
                  p ← tExpr_phasor tm;
                  S ← add S (PExpr p);
                  OK (S, sym_add ac term)
                else OK (S, ac))
             (OK (S, Zero)) (as_ordered_terms (expr v));
  v ← __sub__ v (Raw ac);
  z ← __eq__ v (Raw Zero);
  if (z : bool) then OK S else
  sval ← tExpr_laplace v;
  add S (PExpr sval).

(** [Super._parse], on the payload the string parses to. *)
Definition _parse (add : super → pyvalue → result super)
    (S : super) (e : sym) : result super :=
  if has ssym e then v ← construct sExpr (Raw e) ∅; add S (PExpr v)
  else if has omegasym e then
    if has tsym e then v ← construct tExpr (Raw e) ∅; add S (PExpr v)
    else v ← construct omegaExpr (Raw e) ∅; add S (PExpr v)
  else if has fsym e then v ← construct fExpr (Raw e) ∅; add S (PExpr v)
  else v ← construct tExpr (Raw e) ∅; _decompose add S v.

(** [Super.add].  The method calls itself (directly, and through [_parse]
    and [_decompose]); [depth] bounds the nesting of these calls. *)
Fixpoint add (depth : nat) (sc : supercls) (S : super) (pv : pyvalue) : result super :=
  match depth with
  | O => Raise RecursionDepth
  | Datatypes.S n =>
      z ← eq_zero pv;
      if (z : bool) then OK S else
      match pv with
      | PSuper items =>
          foldl (λ acc kv, S ← acc; add n sc S (PExpr kv.2)) (OK S) items
      | PStr e => _parse (add n sc) S e
      | PNum e =>
          match filter (λ km, bool_decide (km.1 = "dc")) (transform_domains sc) with
          | (_, c) :: _ => v ← construct c (Raw e) ∅; add n sc S (PExpr v)
          | [] => Raise (CannotHandle None)
          end
      | PExpr v =>
          if isinstance v tExpr then _decompose (add n sc) S v
          else add_kind sc S v
      end
  end.

(** [Super.__init__( *args)]. *)
Definition Super_init (depth : nat) (sc : supercls) (args : list pyvalue) : result super :=
  foldl (λ acc x, S ← acc; add depth sc S x) (OK []) args.

(** [val.time()] for a stored component, when its class has the method. *)
Definition method_time (v : value) : option (result arg) :=
  if isinstance v sExpr then Some (r ← sExpr_time v ∅; OK (Obj r))
  else if isinstance v Phasor then Some (r ← Phasor_time v; OK (Obj r))
  else if isinstance v noiseExpr then Some (OK (Raw Zero))
  else if isinstance v omegaExpr then Some (r ← omegaExpr_time v; OK (Obj r))
  else if bool_decide (vcls v ∈ [Vconst; Iconst]) then Some (r ← const_time v; OK (Obj r))
  else None.

(** [Super.time()]. *)
Definition Super_time (sc : supercls) (S : super) : result value :=
  r0 ← construct (time_class sc) (Raw Zero) ∅;
  foldl (λ acc val,
           r ← acc;
           match method_time val with
           | Some tv => x ← tv; __add__ r x
           | None => __add__ r (Obj val)
           end)
        (OK r0) (values S).

(** ** Further methods *)

(** [Expr.__neg__]: [self.__class__(-self.expr, **self.assumptions)]. *)
Definition __neg__ (self : value) : result value :=
  construct (vcls self) (Raw (sym_neg (expr self))) (assumptions self).

(** [sExpr.laplace()]: [self.infer_assumptions()] and then
    [self.__class__(self, **self.assumptions)]. *)
Definition sExpr_laplace (self : value) : result value :=
  let self := infer_assumptions self in
  construct (vcls self) (Obj self) (assumptions self).

(** The property [sExpr.jomega]: [w = omegaExpr(omegasym)] and then
    [self(sym.I * w)], where [sym.I * w] is [w.__rmul__(sym.I)]. *)
Definition jomega (self : value) : result value :=
  w ← construct omegaExpr (Raw (Sym omegasym)) ∅;
  x ← __rmul__ w (Raw ImagI);
  sExpr_call self (Obj x).

(** [self.transform_domains[name]], when the key is there. *)
Definition transform_domain (sc : supercls) (name : string) : option cls :=
  match filter (λ km, bool_decide (km.1 = name)) (transform_domains sc) with
  | (_, c) :: _ => Some c
  | [] => None
  end.

(** [Super.select(kind)]: the stored component, or a zero of the class of
    that kind; a kind that [transform_domains] does not know is read as
    ['ac']. *)
Definition select (sc : supercls) (S : super) (k : kind) : result value :=
  match getitem k S with
  | Some v => OK v
  | None =>
      let known := match k with
                   | KStr name => transform_domain sc name
                   | KSym _ => None
                   end in
      match (match known with Some c => Some c | None => transform_domain sc "ac" end) with
      | Some c => construct c (Raw Zero) ∅
      | None => Raise (CannotHandle None)
      end
  end.

(** [Super.__neg__]: a new dictionary with every component negated, the
    noise component excepted. *)
Definition Super_neg (S : super) : result super :=
  foldl (λ acc kv,
           new ← acc;
           v ← (if decide (kv.1 = KStr "n") then OK kv.2 else __neg__ kv.2);
           OK (setitem kv.1 v new))
        (OK []) S.

(** [Super.__scale__(x)] for a number [x]: a new dictionary with every
    component multiplied by [x]. *)
Definition Super_scale (S : super) (x : sym) : result super :=
  foldl (λ acc kv,
           new ← acc;
           v ← __mul__ kv.2 (Raw x);
           OK (setitem kv.1 v new))
        (OK []) S.

(** The attributes [_laplace_conjugate_class] and
    [_fourier_conjugate_class] of an instance of class [c], as the
    [__init__] methods of [c] and of its bases leave them. *)
Definition laplace_conjugate (c : cls) : option cls :=
  match c with
  | sExpr => Some tExpr | tExpr => Some sExpr
  | Zs => Some Zt | Ys => Some Yt | Vs => Some Vt | Is => Some It | Hs => Some Ht
  | Zt => Some Zs | Yt => Some Ys | Vt => Some Vs | It => Some Is | Ht => Some Hs
  | Vphasor | Vconst => Some Vt
  | Iphasor | Iconst => Some It
  | _ => None
  end.

Definition fourier_conjugate (c : cls) : option cls :=
  match c with
  | tExpr => Some fExpr
  | fExpr | omegaExpr | noiseExpr => Some tExpr
  | Zt => Some Zf | Yt => Some Yf | Vt => Some Vf | It => Some If | Ht => Some Hf
  | Zf | Zomega => Some Zt
  | Yf | Yomega => Some Yt
  | Vf | Vomega | Vn => Some Vt
  | If | Iomega | In => Some It
  | Hf | Homega => Some Ht
  | _ => None
  end.

(** ** Well-formed values

    The domain variables the constructor of a class rejects, and the
    values that pass these checks: what every instance constructed from
    a number or an expression is, and what every instance of a class
    other than the constants is. *)
Definition forbidden (c : cls) : list symbol :=
  if issubclass c sExpr then [tsym]
  else if issubclass c fExpr || issubclass c omegaExpr then [ssym; tsym]
  else if issubclass c tExpr then [ssym]
  else if issubclass c cExpr then [ssym; omegasym; tsym; fsym]
  else [].

Definition allowed (c : cls) (e : sym) : Prop :=
  ∀ x, x ∈ forbidden c → has x e = false.

Definition well_formed (v : value) : Prop := allowed (vcls v) (expr v).

End Model.

(** ** A small term engine

    Expression trees with the light automatic evaluation the examples
    need: integer folding, neutral elements, cancellation of identical
    terms, flattening of sums. *)
Module Toy.

Inductive unop := Neg | Conj | Sqrt | Re | Im | Cos | Sin | Exp | Heaviside.

Inductive transform := Laplace | InvLaplace | Fourier | InvFourier.

Inductive binop := Add | Sub | Mul | Div | Pow.

Inductive term :=
| TInt (z : Z)
| TSym (x : symbol)
| TVar (name : string)
| TI
| TPi
| TUn (f : unop) (a : term)
| TBin (o : binop) (a b : term)
| TTrans (f : transform) (a : term)       (* an unevaluated transform *)
| TSubs (a : term) (y : symbol) (b : term). (* an unevaluated substitution *)

#[global] Instance unop_eq_dec : EqDecision unop.
Proof. solve_decision. Defined.
#[global] Instance transform_eq_dec : EqDecision transform.
Proof. solve_decision. Defined.
#[global] Instance binop_eq_dec : EqDecision binop.
Proof. solve_decision. Defined.
#[global] Instance term_eq_dec : EqDecision term.
Proof. solve_decision. Defined.

(** The variable a transform integrates away and the one it introduces. *)
Definition source_var (f : transform) : symbol :=
  match f with
  | Laplace | Fourier => tsym
  | InvLaplace => ssym
  | InvFourier => fsym
  end.

Definition target_var (f : transform) : symbol :=
  match f with
  | Laplace => ssym
  | Fourier => fsym
  | InvLaplace | InvFourier => tsym
  end.

Fixpoint occurs (x : symbol) (e : term) : bool :=
  match e with
  | TSym y => bool_decide (x = y)
  | TUn _ a => occurs x a
  | TBin _ a b => occurs x a || occurs x b
  | TTrans f a =>
      bool_decide (x = target_var f) || (bool_decide (x ≠ source_var f) && occurs x a)
  | TSubs a y b => (bool_decide (x ≠ y) && occurs x a) || occurs x b
  | _ => false
  end.

Fixpoint terms (e : term) : list term :=
  match e with
  | TBin Add a b => terms a ++ terms b
  | _ => [e]
  end.

Definition sum_of (l : list term) : term :=
  match l with
  | [] => TInt 0
  | a :: l' => foldl (TBin Add) a l'
  end.

Fixpoint remove_one (b : term) (l : list term) : option (list term) :=
  match l with
  | [] => None
  | a :: l' => if decide (a = b) then Some l' else (a ::.) <$> remove_one b l'
  end.

Fixpoint remove_all (bs : list term) (l : list term) : option (list term) :=
  match bs with
  | [] => Some l
  | b :: bs' => l' ← remove_one b l; remove_all bs' l'
  end.

Definition t_add (a b : term) : term :=
  match a, b with
  | TInt x, TInt y => TInt (x + y)
  | TInt 0, _ => b
  | _, TInt 0 => a
  | _, _ => TBin Add a b
  end.

Definition t_sub (a b : term) : term :=
  match a, b with
  | TInt x, TInt y => TInt (x - y)
  | _, TInt 0 => a
  | _, _ =>
      match remove_all (terms b) (terms a) with
      | Some l => sum_of l
      | None => TBin Sub a b
      end
  end.

Definition t_mul (a b : term) : term :=
  match a, b with
  | TInt x, TInt y => TInt (x * y)
  | TInt 0, _ | _, TInt 0 => TInt 0
  | TInt 1, _ => b
  | _, TInt 1 => a
  | _, _ => TBin Mul a b
  end.

Definition t_div (a b : term) : term :=
  match b with
  | TInt 1 => a
  | _ => if decide (a = TInt 0) then TInt 0 else TBin Div a b
  end.

Definition t_conjugate (a : term) : term :=
  match a with
  | TInt z => TInt z
  | _ => TUn Conj a
  end.

(** Real and imaginary part; the polar form [A * exp(I * p)] with real [A]
    and [p] splits into [A * cos(p)] and [A * sin(p)]. *)
Definition t_re (a : term) : term :=
  match a with
  | TInt z => TInt z
  | TUn Exp (TBin Mul TI p) => TUn Cos p
  | TBin Mul A (TUn Exp (TBin Mul TI p)) => t_mul A (TUn Cos p)
  | _ => TUn Re a
  end.

Definition t_im (a : term) : term :=
  match a with
  | TInt z => TInt 0
  | TUn Exp (TBin Mul TI p) => TUn Sin p
  | TBin Mul A (TUn Exp (TBin Mul TI p)) => t_mul A (TUn Sin p)
  | _ => TUn Im a
  end.

Fixpoint t_subs (a : term) (y : symbol) (b : term) : term :=
  match a with
  | TSym x => if decide (x = y) then b else a
  | TUn f a1 => TUn f (t_subs a1 y b)
  | TBin o a1 a2 => TBin o (t_subs a1 y b) (t_subs a2 y b)
  | TTrans _ _ | TSubs _ _ _ => TSubs a y b
  | _ => a
  end.

Definition t_coeff0 (e : term) (x : symbol) : term :=
  sum_of (filter (λ u, occurs x u = false) (terms e)).

(** The argument [omega * x + phase] of a sinusoid. *)
Definition linear_arg (e : term) (x : symbol) : option (term * term) :=
  match e with
  | TSym y => if decide (x = y) then Some (TInt 1, TInt 0) else None
  | TBin Mul w (TSym y) =>
      if decide (x = y) then if occurs x w then None else Some (w, TInt 0) else None
  | TBin Add (TSym y) p =>
      if decide (x = y) then if occurs x p then None else Some (TInt 1, p) else None
  | TBin Add (TBin Mul w (TSym y)) p =>
      if decide (x = y) then if occurs x w || occurs x p then None else Some (w, p) else None
  | _ => None
  end.

(** Modelled from the spec: [lcapy.acdc.ACChecker] is not among the
    sources.  The spec describes the conversion to a phasor as an
    "amplitude/phase/frequency extraction check" on a single-frequency
    sinusoid, and a phasor as the "complex amplitude/phase representation"
    of that sinusoid: a term [A * cos(omega * x + phase)] gives the
    amplitude [A], the phase [phase] and the angular frequency [omega],
    and any other term is not ac. *)
Definition t_ACChecker (e : term) (x : symbol) : option (term * term * term) :=
  match e with
  | TUn Cos a => '(w, p) ← linear_arg a x; Some (TInt 1, p, w)
  | TBin Mul A (TUn Cos a) =>
      if occurs x A then None else '(w, p) ← linear_arg a x; Some (A, p, w)
  | _ => None
  end.

(** Modelled from the spec: [lcapy.acdc.is_causal] is not among the
    sources.  "Causal: the signal is identically zero for negative time":
    zero, and a term with the unit step as a factor. *)
Definition t_is_causal (e : term) (x : symbol) : bool :=
  match e with
  | TInt 0 => true
  | TUn Heaviside (TSym y) => bool_decide (x = y)
  | TBin Mul _ (TUn Heaviside (TSym y)) => bool_decide (x = y)
  | _ => false
  end.

(** Modelled from the spec: [lcapy.laplace] is not among the sources.  The
    transforms stay unevaluated, and the inverse transform undoes the
    transform (the Laplace round trip of the spec). *)
Definition t_inverse_laplace (e : term) (kw : gmap string (aval term)) : term :=
  match e with
  | TTrans Laplace a => a
  | _ => TTrans InvLaplace e
  end.

Definition t_inverse_fourier (e : term) : term :=
  match e with
  | TTrans Fourier a => a
  | _ => TTrans InvFourier e
  end.

(** The value at time [t] of a real-valued time-domain term; the
    constructs that have no real value at a time (other symbols, the
    imaginary unit, unevaluated transforms) count as 0. *)
Fixpoint eval (e : term) (t : R) : R :=
  match e with
  | TInt z => IZR z
  | TSym tsym => t
  | TPi => PI
  | TUn Neg a => (- eval a t)%R
  | TUn Cos a => Rtrigo_def.cos (eval a t)
  | TUn Sin a => Rtrigo_def.sin (eval a t)
  | TUn Exp a => Rtrigo_def.exp (eval a t)
  | TUn Sqrt a => R_sqrt.sqrt (eval a t)
  | TUn Heaviside a => if Rle_dec 0 (eval a t) then 1%R else 0%R
  | TBin Add a b => (eval a t + eval b t)%R
  | TBin Sub a b => (eval a t - eval b t)%R
  | TBin Mul a b => (eval a t * eval b t)%R
  | TBin Div a b => (eval a t / eval b t)%R
  | _ => 0%R
  end.

(** The time-domain signal [5 + cos(t + pi/4) + exp(-t) * u(t)]: a dc
    constant, the sinusoid [A * cos(omega0 * t + phi)] with [A = 1],
    [omega0 = 1] and [phi = pi/4], and a causal transient. *)
Definition dc_ac_transient : term :=
  TBin Add
    (TBin Add (TInt 5) (TUn Cos (TBin Add (TSym tsym) (TBin Div TPi (TInt 4)))))
    (TBin Mul (TUn Exp (TUn Neg (TSym tsym))) (TUn Heaviside (TSym tsym))).

(** What [Vsuper(dc_ac_transient).time()] returns. *)
Definition recomposed : term :=
  TBin Add
    (TBin Add (TInt 5)
       (TBin Add
          (TBin Mul (TUn Cos (TSym tsym)) (TUn Cos (TBin Div TPi (TInt 4))))
          (TBin Mul (TUn Sin (TSym tsym)) (TUn Sin (TBin Div TPi (TInt 4))))))
    (TBin Mul (TUn Exp (TUn Neg (TSym tsym))) (TUn Heaviside (TSym tsym))).

#[global] Instance engine : Engine := {|
  sym := term;
  Int := TInt;
  Sym := TSym;
  ImagI := TI;
  Pi := TPi;
  has := occurs;
  sym_add := t_add;
  sym_sub := t_sub;
  sym_mul := t_mul;
  sym_div := t_div;
  sym_pow := TBin Pow;
  sym_neg := TUn Neg;
  sym_conjugate := t_conjugate;
  sym_simplify := λ a, a;
  sym_sqrt := TUn Sqrt;
  sym_re := t_re;
  sym_im := t_im;
  sym_cos := TUn Cos;
  sym_sin := TUn Sin;
  sym_exp := TUn Exp;
  sym_subs := t_subs;
  sym_coeff0 := t_coeff0;
  as_ordered_terms := terms;
  acdc_is_dc := λ e x, negb (occurs x e);
  acdc_is_ac := λ e x, bool_decide (is_Some (t_ACChecker e x));
  acdc_is_causal := t_is_causal;
  ACChecker := t_ACChecker;
  laplace_transform := TTrans Laplace;
  inverse_laplace_transform := t_inverse_laplace;
  fourier_transform := TTrans Fourier;
  inverse_fourier_transform := t_inverse_fourier;
|}.

End Toy.

(** * Properties *)

Arguments construct : simpl never.
Arguments mul_assumptions : simpl never.
Arguments add : simpl never.

(** Unfolds a constructor call down to [Expr_init] and the checks. *)
Ltac unfold_init :=
  unfold construct, typed_s_init, typed_t_init, typed_f_init, typed_omega_init,
    typed_noise_init, typed_phasor_init, typed_const_init,
    sExpr_init, fExpr_init, omegaExpr_init, tExpr_init, cExpr_init, Phasor_init,
    sfwExpr_init in *.

Section Basics.
Context {E : Engine}.

Lemma bind_OK {A B} (m : result A) (k : A → result B) (b : B) :
  m ≫= k = OK b ↔ ∃ a, m = OK a ∧ k a = OK b.
Proof.
  destruct m as [a|e]; simpl; split.
  - intros Hk. by exists a.
  - by intros (a' & [= <-] & Hk).
  - discriminate.
  - by intros (a' & [=] & _).
Qed.

Lemma forbid_OK x v v' : forbid x v = OK v' ↔ has x (expr v) = false ∧ v' = v.
Proof.
  unfold forbid. destruct (has x (expr v)); split.
  - discriminate.
  - by intros [[=] _].
  - by intros [= <-].
  - by intros [_ ->].
Qed.

End Basics.

Ltac split_binds :=
  repeat match goal with
         | H : _ ≫= _ = OK _ |- _ => apply bind_OK in H; destruct H as (? & ? & H)
         | H : forbid _ _ = OK _ |- _ => apply forbid_OK in H; destruct H as [? ->]
         | H : OK _ = OK _ |- _ => injection H as H; subst
         | H : Expr_init _ _ _ = OK _ |- _ =>
             unfold Expr_init in H; injection H as H; subst
         end.

Section Constructors.
Context {E : Engine}.

Lemma cExpr_init_OK c x kw v :
  cExpr_init c x kw = OK v →
  (∀ e y, x = Raw e → y ∈ [ssym; omegasym; tsym; fsym] → has y e = false)
  ∧ ∃ a, v = mkValue c (arg_payload x) a None None.
Proof.
  unfold cExpr_init. intros Hv. destruct x as [e|u].
  - destruct (filter _ _) as [|y l] eqn:Hf; [|discriminate].
    split.
    + intros e' y [= <-] Hy. destruct (has y e) eqn:Hh; [|done].
      assert (y ∈ filter (λ y, has y e = true) [ssym; omegasym; tsym; fsym])
        as Hin by (apply list_elem_of_filter; done).
      rewrite Hf in Hin. by apply elem_of_nil in Hin.
    + unfold Expr_init in Hv. injection Hv as <-. eauto.
  - split; [discriminate|].
    unfold Expr_init in Hv. injection Hv as <-. eauto.
Qed.

(** A constructed instance has the class that was called and the payload
    of the argument. *)
Lemma construct_vcls c x kw v : construct c x kw = OK v → vcls v = c.
Proof.
  intros Hv. destruct c; unfold_init; split_binds; try done;
    match goal with
    | H : match _ with [] => _ | _ :: _ => _ end = OK _ |- _ =>
        apply (cExpr_init_OK _ x) in H; destruct H as (_ & ? & ->); done
    end.
Qed.

Lemma construct_expr c x kw v : construct c x kw = OK v → expr v = arg_payload x.
Proof.
  intros Hv. destruct c; unfold_init; split_binds; try done;
    match goal with
    | H : match _ with [] => _ | _ :: _ => _ end = OK _ |- _ =>
        apply (cExpr_init_OK _ x) in H; destruct H as (_ & ? & ->); done
    end.
Qed.

Lemma cExpr_filter_nil e :
  (∀ y, y ∈ [ssym; omegasym; tsym; fsym] → has y e = false) →
  filter (λ y, has y e = true) [ssym; omegasym; tsym; fsym] = [].
Proof.
  intros H.
  rewrite !filter_cons_False, filter_nil; [done|..];
    rewrite H; [discriminate|set_solver..].
Qed.

(** A payload without the variables its class rejects always constructs. *)
Lemma construct_is_OK c x kw :
  allowed c (arg_payload x) → ∃ v, construct c x kw = OK v.
Proof.
  intros H.
  assert (∀ y, y ∈ forbidden c → has y (arg_payload x) = false) as Hf by exact H.
  destruct c; unfold_init; unfold Expr_init, forbid; simpl;
    try (destruct x as [e|u]; simpl in *;
         [rewrite (cExpr_filter_nil e) by (intros y Hy; apply Hf; vm_compute; exact Hy)|];
         by eauto);
    repeat match goal with
           | |- context [has ?y (arg_payload x)] =>
               rewrite (Hf y) by (vm_compute; set_solver); simpl
           end; simpl; eauto.
Qed.

Lemma cExpr_init_has c e kw v y :
  cExpr_init c (Raw e) kw = OK v → y ∈ [ssym; omegasym; tsym; fsym] →
  has y (expr v) = false.
Proof.
  intros Hv Hy. apply cExpr_init_OK in Hv as (Hh & a & ->). by apply (Hh e).
Qed.

(** Conversely, whatever a constructor returns passed its checks; a
    constant built from an instance passed none. *)
Lemma construct_well_formed c x kw v :
  construct c x kw = OK v →
  issubclass c cExpr = false ∨ (∃ e, x = Raw e) →
  well_formed v.
Proof.
  intros Hv Hx. pose proof (construct_vcls _ _ _ _ Hv) as Hc.
  unfold well_formed, allowed. rewrite Hc. intros y Hy.
  destruct c; vm_compute in Hy;
    try (by apply elem_of_nil in Hy);
    try (destruct Hx as [Hx|[e ->]]; [by vm_compute in Hx|];
         by eapply cExpr_init_has; [exact Hv|exact Hy]);
    try (destruct Hx as [Hx|[e ->]]; [by vm_compute in Hx|];
         unfold construct, typed_const_init in Hv;
         apply bind_OK in Hv as (v0 & Hv0 & [= <-]); simpl;
         by eapply cExpr_init_has; [exact Hv0|exact Hy]);
    unfold_init; unfold Expr_init, forbid in Hv; simpl in Hv;
    repeat match type of Hv with
           | context [has ?z ?e] => destruct (has z e) eqn:?; simpl in Hv
           end; try discriminate;
    injection Hv as <-; simpl;
    apply list_elem_of_In in Hy; simpl in Hy;
    repeat destruct Hy as [<-|Hy]; done.
Qed.

Lemma cExpr_init_assumptions c x kw v :
  cExpr_init c x kw = OK v →
  assumptions v = Expr_assumptions x (init_keywords cExpr kw).
Proof.
  unfold cExpr_init.
  destruct x as [e|u]; [destruct (filter _ _); [|discriminate]|];
    intros [= <-]; done.
Qed.

(** The assumptions of a constructed instance. *)
Lemma construct_assumptions c x kw v :
  construct c x kw = OK v →
  assumptions v = Expr_assumptions x (init_keywords c kw).
Proof.
  intros Hv.
  destruct c;
    try (by apply cExpr_init_assumptions in Hv);
    try (unfold construct, typed_const_init in Hv;
         apply bind_OK in Hv as (v0 & Hv0 & [= <-]); simpl;
         by apply cExpr_init_assumptions in Hv0);
    unfold_init; unfold Expr_init, forbid in Hv; simpl in Hv;
    repeat match type of Hv with
           | context [has ?z ?e] => destruct (has z e) eqn:?; simpl in Hv
           end; try discriminate;
    by injection Hv as <-.
Qed.

Lemma Expr_assumptions_zero x kw :
  arg_payload x = Zero → Expr_assumptions x kw !! "causal" = Some (ABool true).
Proof.
  intros Hz. unfold Expr_assumptions. rewrite decide_True by done.
  apply lookup_insert_eq.
Qed.

Lemma allowed_Int `{!EngineClosed E} c z : allowed c (Int z).
Proof. intros y _. apply has_Int. Qed.

(** C8: constructing an s-domain expression ([sExpr] or any subclass of it)
    whose payload contains the time variable [t] raises the domain
    violation error for [t]; the constructor returns no value. *)
Theorem C8_sExpr_rejects_time_variable c x kw :
  issubclass c sExpr = true →
  has tsym (arg_payload x) = true →
  construct c x kw = Raise (DomainViolation c tsym).
Proof.
  intros Hc Ht.
  destruct c; vm_compute in Hc; try discriminate;
    unfold_init; unfold Expr_init, forbid; simpl; by rewrite Ht.
Qed.

Lemma Expr_compat_add_Raw self e op :
  Expr_compat_add self (Raw e) op =
  x' ← construct (vcls self) (Raw e) ∅; OK (vcls self, self, x', ∅).
Proof. done. Qed.

(** Comparing an instance with the number 0 compares its payload with the
    payload of 0, whatever the class. *)
Lemma eq_Zero `{!EngineClosed E} v :
  __eq__ v (Raw Zero) = OK (bool_decide (expr v = Zero)).
Proof.
  unfold __eq__, __compat_add__.
  destruct (construct_is_OK (vcls v) (Raw Zero) ∅) as [z Hz];
    [apply allowed_Int|].
  pose proof (construct_expr _ _ _ _ Hz) as Hze. simpl in Hze.
  destruct (construct_is_OK (vcls v) (Obj z) ∅) as [z' Hz'];
    [simpl; rewrite Hze; apply allowed_Int|].
  pose proof (construct_expr _ _ _ _ Hz') as Hze'. simpl in Hze'.
  destruct (isinstance v Phasor).
  - unfold Phasor_compat_add. rewrite decide_True by done.
    rewrite Hz. simpl. rewrite Hz'. simpl. by rewrite Hze', Hze.
  - rewrite Expr_compat_add_Raw, Hz. simpl. rewrite Hz'. simpl.
    by rewrite Hze', Hze.
Qed.

Lemma eq_zero_exact `{!EngineClosed E} pv :
  exact_zero pv → eq_zero pv = OK true.
Proof.
  destruct pv as [e|e|v|S]; simpl; try done.
  - intros ->. by rewrite bool_decide_eq_true_2.
  - intros Hv. rewrite eq_Zero. by rewrite bool_decide_eq_true_2.
Qed.

Lemma add_unfold depth sc (D : super) pv :
  add (Datatypes.S depth) sc D pv =
    z ← eq_zero pv;
    if (z : bool) then OK D else
    match pv with
    | PSuper items =>
        foldl (λ acc kv, D' ← acc; add depth sc D' (PExpr kv.2)) (OK D) items
    | PStr e => _parse (add depth sc) D e
    | PNum e =>
        match filter (λ km, bool_decide (km.1 = "dc")) (transform_domains sc) with
        | (_, c) :: _ => v ← construct c (Raw e) ∅; add depth sc D (PExpr v)
        | [] => Raise (CannotHandle None)
        end
    | PExpr v =>
        if isinstance v tExpr then _decompose (add depth sc) D v
        else add_kind sc D v
    end.
Proof. done. Qed.

(** C9: adding an exact zero to a superposition leaves it unchanged: the
    call returns without an error and the dictionary is the same, so no
    key is added and no stored component is modified. *)
Theorem C9_add_zero_is_noop `{!EngineClosed E} depth sc (D : super) pv :
  exact_zero pv → add (Datatypes.S depth) sc D pv = OK D.
Proof.
  intros Hz. rewrite add_unfold. by rewrite (eq_zero_exact pv Hz).
Qed.

(** C10: an instance of any class constructed from the value 0, with any
    keyword assumptions, is constructed without error, stores
    [causal = True], and answers [True] to [is_causal]. *)
Theorem C10_zero_is_causal `{!EngineClosed E} c x kw :
  arg_payload x = Zero →
  ∃ v, construct c x kw = OK v
       ∧ expr v = Zero
       ∧ assumptions v !! "causal" = Some (ABool true)
       ∧ (is_causal v).1 = true.
Proof.
  intros Hz.
  destruct (construct_is_OK c x kw) as [v Hv].
  { rewrite Hz. apply allowed_Int. }
  assert (assumptions v !! "causal" = Some (ABool true)) as Hc.
  { rewrite (construct_assumptions _ _ _ _ Hv). by apply Expr_assumptions_zero. }
  exists v. repeat split; try done.
  - by rewrite (construct_expr _ _ _ _ Hv).
  - unfold is_causal, assumption_property. rewrite Hc. simpl.
    by rewrite bool_decide_eq_true_2.
Qed.

(** The inverse Laplace transform of a zero s-domain instance hands
    [causal = True] to the engine. *)
Lemma zero_inverse_laplace_causal `{!EngineClosed E} c x kw v :
  arg_payload x = Zero → construct c x kw = OK v →
  ∃ a, a !! "causal" = Some (ABool true) ∧
       inverse_laplace v ∅ =
       construct (default tExpr (_laplace_conjugate_class v))
         (Raw (inverse_laplace_transform Zero a)) ∅.
Proof.
  intros Hz Hv. exists (assumptions v). split.
  - rewrite (construct_assumptions _ _ _ _ Hv). by apply Expr_assumptions_zero.
  - unfold inverse_laplace. rewrite decide_True by done.
    rewrite (construct_expr _ _ _ _ Hv), Hz.
    by destruct (_laplace_conjugate_class v).
Qed.

(** The assumption properties may rewrite the assumptions of the object
    they are asked of, and nothing else. *)
Lemma assumption_property_same key v :
  vcls (assumption_property key v).2 = vcls v
  ∧ expr (assumption_property key v).2 = expr v.
Proof.
  unfold assumption_property. destruct (assumptions v !! key); simpl; [done|].
  unfold infer_assumptions, tExpr_infer_assumptions, Expr_infer_assumptions.
  destruct (isinstance v tExpr); [|done].
  by repeat match goal with |- context [if ?b then _ else _] => destruct b end.
Qed.

Lemma mul_assumptions_same v y a v' y' :
  mul_assumptions v y = (a, v', y') →
  (vcls v' = vcls v ∧ expr v' = expr v) ∧ (vcls y' = vcls y ∧ expr y' = expr y).
Proof.
  unfold mul_assumptions, is_causal, is_dc, is_ac.
  repeat match goal with
         | |- context [assumption_property ?k ?w] =>
             let H := fresh "H" in
             pose proof (assumption_property_same k w) as H;
             destruct (assumption_property k w) as [[] ?]; simpl in H
         end;
    simpl; intros [= <- <- <-]; intuition congruence.
Qed.

Lemma allowed_mul `{!EngineClosed E} c a b :
  allowed c a → allowed c b → allowed c (sym_mul a b).
Proof.
  intros Ha Hb x Hx. destruct (has x (sym_mul a b)) eqn:Hm; [|done].
  apply has_mul in Hm as [Hm|Hm]; [rewrite Ha in Hm|rewrite Hb in Hm]; done.
Qed.

Lemma allowed_div `{!EngineClosed E} c a b :
  allowed c a → allowed c b → allowed c (sym_div a b).
Proof.
  intros Ha Hb x Hx. destruct (has x (sym_div a b)) eqn:Hm; [|done].
  apply has_div in Hm as [Hm|Hm]; [rewrite Ha in Hm|rewrite Hb in Hm]; done.
Qed.

Lemma allowed_add `{!EngineClosed E} c a b :
  allowed c a → allowed c b → allowed c (sym_add a b).
Proof.
  intros Ha Hb x Hx. destruct (has x (sym_add a b)) eqn:Hm; [|done].
  apply has_add in Hm as [Hm|Hm]; [rewrite Ha in Hm|rewrite Hb in Hm]; done.
Qed.

Lemma allowed_sub `{!EngineClosed E} c a b :
  allowed c a → allowed c b → allowed c (sym_sub a b).
Proof.
  intros Ha Hb x Hx. destruct (has x (sym_sub a b)) eqn:Hm; [|done].
  apply has_sub in Hm as [Hm|Hm]; [rewrite Ha in Hm|rewrite Hb in Hm]; done.
Qed.

(** Constructing from an instance [x] and then building the result of an
    operation in class [c]: both steps succeed on payloads that [c]
    accepts. *)
Lemma construct_then `{!EngineClosed E} c x e kw :
  allowed c (arg_payload x) → allowed c e →
  ∃ x' r, construct c x ∅ = OK x' ∧ expr x' = arg_payload x
          ∧ construct c (Raw e) kw = OK r ∧ vcls r = c ∧ expr r = e.
Proof.
  intros Hx He.
  destruct (construct_is_OK c x ∅ Hx) as [x' Hx'].
  destruct (construct_is_OK c (Raw e) kw He) as [r Hr].
  exists x', r. repeat split; try done.
  - by apply construct_expr in Hx'.
  - by apply construct_vcls in Hr.
  - by apply construct_expr in Hr.
Qed.

End Constructors.

Ltac compute_classes :=
  repeat match goal with
         | |- context [issubclass ?c ?d] =>
             let b := eval vm_compute in (issubclass c d) in
             change (issubclass c d) with b
         end.

(** Payloads accepted by one class are accepted by the classes that
    reject the same variables. *)
Ltac solve_allowed :=
  simpl;
  repeat match goal with
         | H : expr ?v = _ |- context [expr ?v] => rewrite H
         end;
  repeat first
    [ match goal with H : allowed _ ?e |- allowed _ ?e => exact H end
    | apply allowed_mul | apply allowed_div | apply allowed_add
    | apply allowed_sub | apply allowed_Int ].

(** Runs the next constructor call of the goal. *)
Ltac step_construct :=
  match goal with
  | |- context [construct ?c ?x ?kw] =>
      let r := fresh "r" in
      let Hr := fresh "Hr" in
      destruct (construct_is_OK c x kw) as [r Hr];
      [ solve_allowed
      | rewrite Hr;
        pose proof (construct_expr _ _ _ _ Hr);
        pose proof (construct_vcls _ _ _ _ Hr); simpl in * ]
  end.

Section Compatibility.
Context {E : Engine}.

(** C1 (amended): in the time, Laplace and angular-frequency domains the
    product of a voltage and an admittance of the same domain is returned
    in the class of the left operand, so it is voltage-typed, and in the
    time, Laplace, Fourier and angular-frequency domains the quotient of
    two voltages of the same domain is again voltage-typed; the payloads
    are the product and the quotient of the payloads. *)
Theorem C1_amended `{!EngineClosed E} v y :
  well_formed v → well_formed y →
  quantity_role (vcls v) = voltage →
  domain_of (vcls v) = domain_of (vcls y) →
  (quantity_role (vcls y) = admittance →
   domain_of (vcls v) ∈ [Dtime; Dlaplace; Dangular] →
   ∃ r, __mul__ v (Obj y) = OK r ∧ vcls r = vcls v
        ∧ expr r = sym_mul (expr v) (expr y))
  ∧ (quantity_role (vcls y) = voltage →
     domain_of (vcls v) ∈ [Dtime; Dlaplace; Dfourier; Dangular] →
     ∃ r, __truediv__ v (Obj y) = OK r ∧ vcls r = vcls v
          ∧ expr r = sym_div (expr v) (expr y)).
Proof.
  intros Hv Hy Hrv Hd.
  destruct v as [cv ev av lv fv], y as [cy ey ay ly fy].
  unfold well_formed in *. simpl in *.
  split; intros Hry Hdom.
  - destruct cv; try discriminate Hrv; destruct cy; try discriminate Hry;
      vm_compute in Hd; try discriminate Hd;
      try (solve [exfalso; apply list_elem_of_In in Hdom; vm_compute in Hdom;
                  intuition discriminate]).
    all: unfold __mul__, __compat_mul__, isinstance; simpl; compute_classes; simpl.
    all: unfold Expr_compat_mul, isinstance; simpl; compute_classes; simpl.
    all: try match goal with
         | |- context [mul_assumptions ?a ?b] =>
             let Hm := fresh "Hm" in
             destruct (mul_assumptions a b) as [[? ?] ?] eqn:Hm;
             apply mul_assumptions_same in Hm as [[? ?] [? ?]]; simpl in *
         end.
    all: repeat match goal with
           | H : vcls ?v = _ |- context [vcls ?v] => rewrite H
           end; compute_classes; simpl.
    all: do 2 step_construct; eexists; split; [done|]; split; [done|congruence].
  - destruct cv; try discriminate Hrv; destruct cy; try discriminate Hry;
      vm_compute in Hd; try discriminate Hd;
      try (solve [exfalso; apply list_elem_of_In in Hdom; vm_compute in Hdom;
                  intuition discriminate]).
    all: unfold __truediv__, __compat_mul__, isinstance; simpl; compute_classes; simpl.
    all: unfold Expr_compat_mul, isinstance; simpl; compute_classes; simpl.
    all: try match goal with
         | |- context [mul_assumptions ?a ?b] =>
             let Hm := fresh "Hm" in
             destruct (mul_assumptions a b) as [[? ?] ?] eqn:Hm;
             apply mul_assumptions_same in Hm as [[? ?] [? ?]]; simpl in *
         end.
    all: repeat match goal with
           | H : vcls ?v = _ |- context [vcls ?v] => rewrite H
           end; compute_classes; simpl.
    all: do 2 step_construct; eexists; split; [done|]; split; [done|congruence].
Qed.

(** In the Fourier domain the product of a voltage and an admittance is
    rejected: [__compat_mul__] has no rule for two different f-domain
    classes. *)
Lemma fourier_voltage_times_admittance v y :
  vcls v = Vf → vcls y = Yf →
  __mul__ v (Obj y) = Raise (Incompatible Vf Yf "*").
Proof.
  intros Hv Hy. destruct v, y. simpl in *. subst.
  unfold __mul__, __compat_mul__, Expr_compat_mul, isinstance. simpl.
  compute_classes. done.
Qed.

(** Outside the phasor classes, the sum of a voltage and a current is
    rejected with both classes named. *)
Lemma voltage_plus_current_Expr v i :
  quantity_role (vcls v) = voltage → quantity_role (vcls i) = current →
  isinstance v Phasor = false →
  __add__ v (Obj i) = Raise (Incompatible (vcls v) (vcls i) "+").
Proof.
  intros Hv Hi Hp.
  unfold __add__, __compat_add__. rewrite Hp.
  destruct v as [cv ? ? ? ?], i as [ci ? ? ? ?].
  unfold Expr_compat_add, isinstance in *. simpl in *.
  destruct cv; try discriminate Hv; try discriminate Hp;
    destruct ci; try discriminate Hi; compute_classes; simpl; done.
Qed.

(** A phasor voltage rejects a current that is not a phasor, and a phasor
    current of another angular frequency. *)
Lemma voltage_plus_current_Phasor v i :
  quantity_role (vcls v) = voltage → quantity_role (vcls i) = current →
  isinstance v Phasor = true →
  __add__ v (Obj i) =
    if negb (isinstance i Phasor)
    then Raise (IncompatibleArguments (Some (vcls v)) (Some (vcls i)) "+")
    else ne ← omega_ne v i;
         if (ne : bool) then Raise (OmegaMismatch (vcls v) (vcls i))
         else construct (vcls v) (Raw (sym_add (expr v) (expr i))) ∅.
Proof.
  intros Hv Hi Hp.
  unfold __add__, __compat_add__. rewrite Hp.
  unfold Phasor_compat_add.
  destruct (negb (isinstance i Phasor)); [done|].
  by destruct (omega_ne v i) as [[]|].
Qed.

(** The frequency test on two phasors with the same stored entry, or
    with none, finds no difference. *)
Lemma omega_ne_same v y :
  assumptions v !! "omega" = assumptions y !! "omega" → omega_ne v y = OK false.
Proof.
  unfold omega_ne. intros ->.
  destruct (assumptions y !! "omega") as [a|]; [|done].
  destruct a; by rewrite bool_decide_eq_true_2.
Qed.

(** Two stored frequencies are compared as values. *)
Lemma omega_ne_values v y w1 w2 :
  assumptions v !! "omega" = Some (AVal w1) →
  assumptions y !! "omega" = Some (AVal w2) →
  omega_ne v y = OK (negb (bool_decide (w1 = w2))).
Proof.
  unfold omega_ne. intros -> ->. simpl.
  destruct (decide (w1 = w2)) as [->|Hne].
  - by rewrite !bool_decide_eq_true_2.
  - rewrite !bool_decide_eq_false_2; [done|done|congruence].
Qed.

(** The entry [None] differs from every frequency, from the booleans and
    from the global object. *)
Lemma omega_ne_None v y :
  (assumptions v !! "omega" = Some ANone ∧ assumptions y !! "omega" ≠ Some ANone)
  ∨ (assumptions y !! "omega" = Some ANone ∧ assumptions v !! "omega" ≠ Some ANone) →
  omega_ne v y = OK true.
Proof.
  unfold omega_ne. intros [[-> Hy]|[-> Hv]].
  - destruct (assumptions y !! "omega") as [[b| |w]|]; try done.
  - destruct (assumptions v !! "omega") as [[b| |w]|]; try done.
Qed.

(** Two phasors of the same angular frequency add, whatever their roles. *)
Lemma phasor_add_same_omega v i :
  isinstance v Phasor = true → isinstance i Phasor = true →
  omega_ne v i = OK false →
  ∃ r, __add__ v (Obj i) = OK r ∧ vcls r = vcls v
       ∧ expr r = sym_add (expr v) (expr i)
       ∧ assumptions r = Expr_assumptions (Raw (sym_add (expr v) (expr i)))
                           (init_keywords (vcls v) ∅).
Proof.
  intros Hv Hi Hw.
  unfold __add__, __compat_add__. rewrite Hv.
  unfold Phasor_compat_add. rewrite Hi. simpl. rewrite Hw. simpl.
  destruct (construct_is_OK (vcls v) (Raw (sym_add (expr v) (expr i))) ∅) as [r Hr].
  { intros x Hx. unfold isinstance in Hv.
    destruct (vcls v); vm_compute in Hv; try discriminate Hv;
      vm_compute in Hx; by apply elem_of_nil in Hx. }
  exists r. repeat split; try done.
  - by apply construct_vcls in Hr.
  - by apply construct_expr in Hr.
  - by apply construct_assumptions in Hr.
Qed.

(** The [__init__] methods add only the keys ['real'] and ['positive']. *)
Lemma init_keywords_lookup c kw key :
  key ≠ "real" → key ≠ "positive" → init_keywords c kw !! key = kw !! key.
Proof.
  intros Hr Hp. unfold init_keywords.
  repeat match goal with
         | |- context [if ?b then _ else _] => destruct b
         | |- context [match ?o with Some _ => _ | None => _ end] => destruct o
         end;
    rewrite ?lookup_insert_ne by done; done.
Qed.

(** The assumptions [__compat_add__] returns for an [Expr] partner. *)
Lemma compat_add_Obj_assumptions v y op c v' y' a :
  __compat_add__ v (Obj y) op = OK (c, v', y', a) →
  a = (if isinstance v sExpr && isinstance y sExpr
            && bool_decide (assumptions v = assumptions y)
       then assumptions v else ∅).
Proof.
  unfold __compat_add__. destruct (isinstance v Phasor) eqn:Hp.
  - assert (isinstance v sExpr = false) as ->.
    { unfold isinstance in *. destruct (vcls v); vm_compute in Hp; done. }
    unfold Phasor_compat_add. simpl.
    destruct (negb (isinstance y Phasor)); [discriminate|].
    destruct (omega_ne v y) as [[]|]; simpl; try discriminate.
    by intros [= <- <- <- <-].
  - unfold Expr_compat_add.
    destruct (isinstance v sExpr && isinstance y sExpr); simpl.
    + destruct (decide (assumptions v = assumptions y)) as [Ha|Ha];
        [rewrite (bool_decide_eq_true_2 (assumptions v = assumptions y)) by done
        |rewrite (bool_decide_eq_false_2 (assumptions v = assumptions y)) by done];
        repeat match goal with
               | |- context [if ?b then _ else _] => destruct b
               | |- context [construct ?c ?x ?kw] => destruct (construct c x kw)
               end; simpl; by intros [= <- <- <- <-].
    + repeat match goal with
             | |- context [if ?b then _ else _] => destruct b
             | |- context [construct ?c ?x ?kw] => destruct (construct c x kw)
             end; simpl; by intros [= <- <- <- <-].
Qed.

(** C4 (amended): the sum or difference of two instances carries the dc,
    ac and causal assumptions of the left operand exactly when both
    operands are s-domain instances with equal assumption dictionaries;
    in every other case these assumptions are absent from the result,
    except that a result equal to 0 is marked causal by its constructor. *)
Theorem C4_amended v y r key :
  key ∈ ["dc"; "ac"; "causal"] →
  __add__ v (Obj y) = OK r ∨ __sub__ v (Obj y) = OK r →
  assumptions r !! key =
    if decide (key = "causal" ∧ expr r = Zero) then Some (ABool true)
    else if isinstance v sExpr && isinstance y sExpr
            && bool_decide (assumptions v = assumptions y)
    then assumptions v !! key else None.
Proof.
  intros Hkey Hr.
  assert (key ≠ "real" ∧ key ≠ "positive") as [Hk1 Hk2].
  { apply list_elem_of_In in Hkey. simpl in Hkey.
    destruct Hkey as [<-|[<-|[<-|[]]]]; done. }
  assert (∃ op c v' y' a e,
    __compat_add__ v (Obj y) op = OK (c, v', y', a)
    ∧ construct c (Raw e) a = OK r) as (op & c & v' & y' & a & e & Hc & Hb).
  { destruct Hr as [Hr|Hr]; unfold __add__, __sub__ in Hr;
      apply bind_OK in Hr as ([[[c v'] y'] a] & Hc & Hb); eauto 10. }
  apply compat_add_Obj_assumptions in Hc.
  rewrite (construct_assumptions _ _ _ _ Hb).
  rewrite (construct_expr _ _ _ _ Hb). simpl.
  unfold Expr_assumptions. simpl.
  destruct (decide (e = Zero)) as [Hz|Hz].
  - destruct (decide (key = "causal")) as [->|Hne].
    + rewrite decide_True by done. apply lookup_insert_eq.
    + rewrite decide_False by tauto.
      rewrite lookup_insert_ne by done.
      rewrite init_keywords_lookup by done. rewrite Hc.
      by destruct (_ && _ && _).
  - rewrite decide_False by tauto.
    rewrite init_keywords_lookup by done. rewrite Hc.
    by destruct (_ && _ && _).
Qed.

Ltac in_forbidden := apply list_elem_of_In; vm_compute; tauto.
Ltac notin_forbidden :=
  let H := fresh in
  intros H%list_elem_of_In; vm_compute in H; intuition discriminate.

Lemma allowed_Sym `{!EngineClosed E} c y : y ∉ forbidden c → allowed c (Sym y).
Proof.
  intros Hy x Hx. destruct (has x (Sym y)) eqn:Hh; [|done].
  apply has_Sym in Hh as ->. done.
Qed.

Lemma allowed_j2pi `{!EngineClosed E} c : allowed c j2pi.
Proof.
  unfold j2pi. repeat apply allowed_mul; try apply allowed_Int;
    intros x _; [apply has_ImagI|apply has_Pi].
Qed.

(** The module-level object [j * 2 * pi * f] is an [fExpr]. *)
Lemma j2pif_OK `{!EngineClosed E} :
  ∃ x, j2pif = OK x ∧ vcls x = fExpr ∧ expr x = sym_mul (Sym fsym) j2pi.
Proof.
  unfold j2pif, f.
  destruct (construct_is_OK fExpr (Raw (Sym fsym)) ∅) as [f0 Hf0].
  { apply allowed_Sym. notin_forbidden. }
  rewrite Hf0. simpl.
  pose proof (construct_vcls _ _ _ _ Hf0) as Hc.
  pose proof (construct_expr _ _ _ _ Hf0) as He. simpl in He.
  unfold __rmul__, __compat_mul__, isinstance. rewrite Hc. compute_classes.
  unfold Expr_compat_mul. rewrite Hc.
  destruct (construct_then fExpr (Raw j2pi) (sym_mul (Sym fsym) j2pi) ∅)
    as (x' & r & Hx' & Hex' & Hr & Hrc & Hre).
  { apply allowed_j2pi. }
  { apply allowed_mul; [|apply allowed_j2pi].
    apply allowed_Sym. notin_forbidden. }
  rewrite Hx'. simpl. rewrite He, Hex'. simpl. eauto.
Qed.

(** C7: for an s-domain instance [X] whose causal assumption is true,
    [X.fourier()] returns the payload of [X] with [s] replaced by
    [j * 2 * pi * f] (no transform of the engine is involved), in the
    f-domain class of the same quantity role as [X]. *)
Theorem C7_causal_fourier_by_substitution `{!EngineClosed E} X :
  isinstance X sExpr = true →
  well_formed X →
  assumptions X !! "causal" = Some (ABool true) →
  ∃ r, sExpr_fourier X = OK r
       ∧ expr r = sym_subs (expr X) ssym (sym_mul (Sym fsym) j2pi)
       ∧ domain_of (vcls r) = Dfourier
       ∧ quantity_role (vcls r) = quantity_role (vcls X).
Proof.
  intros HX Hwf Hc.
  unfold sExpr_fourier, is_causal, assumption_property. rewrite Hc.
  rewrite bool_decide_eq_true_2 by done.
  destruct j2pif_OK as (x & -> & Hxc & Hxe). simpl.
  unfold sExpr_call, _subs1. rewrite Hxc. simpl. rewrite Hxe.
  set (e := sym_subs _ _ _).
  assert (has ssym e = false ∧ has tsym e = false) as [Hs Ht].
  { split.
    - destruct (has ssym e) eqn:Hh; [|done].
      apply has_subs in Hh as [[? _]|Hh]; [done|].
      rewrite (allowed_mul fExpr) in Hh; [done|..|in_forbidden].
      + apply allowed_Sym. notin_forbidden.
      + apply allowed_j2pi.
    - destruct (has tsym e) eqn:Hh; [|done].
      apply has_subs in Hh as [[_ Hh]|Hh].
      + rewrite Hwf in Hh; [done|].
        unfold isinstance in HX.
        destruct (vcls X); vm_compute in HX; try discriminate HX;
          in_forbidden.
      + rewrite (allowed_mul fExpr) in Hh; [done|..|in_forbidden].
        * apply allowed_Sym. notin_forbidden.
        * apply allowed_j2pi. }
  unfold isinstance in HX.
  destruct (vcls X); vm_compute in HX; try discriminate HX; simpl;
    match goal with
    | |- context [construct ?c ?a ?kw] =>
        destruct (construct_is_OK c a kw) as [r Hr];
        [ intros z Hz; apply list_elem_of_In in Hz; vm_compute in Hz;
          destruct Hz as [<-|[<-|[]]]; done
        | exists r; rewrite (construct_vcls _ _ _ _ Hr);
          rewrite (construct_expr _ _ _ _ Hr); done ]
    end.
Qed.

(** ** Dictionary lemmas *)

Lemma getitem_setitem_eq k v (D : super) : getitem k (setitem k v D) = Some v.
Proof.
  induction D as [|[k' v'] D IH]; simpl.
  - by rewrite decide_True.
  - destruct (decide (k = k')) as [->|Hne]; simpl.
    + by rewrite decide_True.
    + by rewrite decide_False.
Qed.

Lemma getitem_setitem_ne k k' v (D : super) :
  k ≠ k' → getitem k' (setitem k v D) = getitem k' D.
Proof.
  intros Hne. induction D as [|[k0 v0] D IH]; simpl.
  - by rewrite decide_False.
  - destruct (decide (k = k0)) as [->|Hne0]; simpl.
    + by rewrite !decide_False by done.
    + destruct (decide (k' = k0)); done.
Qed.

(** A new key goes to the end of the dictionary. *)
Lemma setitem_fresh k v (D : super) :
  getitem k D = None → setitem k v D = D ++ [(k, v)].
Proof.
  induction D as [|[k' v'] D IH]; simpl; [done|].
  destruct (decide (k = k')); [done|]. intros H. by rewrite IH.
Qed.

Lemma getitem_app_fresh k v (D : super) :
  getitem k D = None → getitem k (D ++ [(k, v)]) = Some v.
Proof.
  intros H. rewrite <- (setitem_fresh k v D H). apply getitem_setitem_eq.
Qed.

Lemma setitem_app_fresh k v v' (D : super) :
  getitem k D = None → setitem k v' (D ++ [(k, v)]) = D ++ [(k, v')].
Proof.
  induction D as [|[k0 v0] D IH]; simpl.
  - by rewrite decide_True.
  - destruct (decide (k = k0)); [done|]. intros H. by rewrite IH.
Qed.

Lemma getitem_app_ne k k' v (D : super) :
  k ≠ k' → getitem k' (D ++ [(k, v)]) = getitem k' D.
Proof.
  intros Hne. induction D as [|[k0 v0] D IH]; simpl.
  - by rewrite decide_False.
  - by destruct (decide (k' = k0)).
Qed.

(** An assignment to a key that is present keeps the keys and the other
    entries. *)
Lemma keys_setitem_present k v old (D : super) :
  getitem k D = Some old → keys (setitem k v D) = keys D.
Proof.
  unfold keys. induction D as [|[k0 v0] D IH]; simpl; [done|].
  destruct (decide (k = k0)) as [->|Hne]; simpl; [done|].
  intros H. f_equal. by apply IH.
Qed.

(** ** Adding classified values *)

Lemma Phasor_not_tExpr v : isinstance v Phasor = true → isinstance v tExpr = false.
Proof.
  unfold isinstance. destruct (vcls v); intros H; vm_compute in H; done.
Qed.

(** [Super.add] of a nonzero instance that is not a time-domain value is
    the classification followed by the combination. *)
Lemma add_nonzero `{!EngineClosed E} depth sc (D : super) v :
  expr v ≠ Zero → isinstance v tExpr = false →
  add (Datatypes.S depth) sc D (PExpr v) = add_kind sc D v.
Proof.
  intros Hz Ht. rewrite add_unfold. simpl. rewrite eq_Zero. simpl.
  rewrite bool_decide_eq_false_2 by done. by rewrite Ht.
Qed.

(** A nonzero phasor is stored under its angular frequency, or added to
    the phasor already stored there. *)
Lemma add_phasor `{!EngineClosed E} depth sc (D : super) p w :
  isinstance p Phasor = true → expr p ≠ Zero → omega_key p = Some w →
  add (Datatypes.S depth) sc D (PExpr p) =
    match getitem (KSym w) D with
    | None => OK (setitem (KSym w) p D)
    | Some old => r ← __add__ old (Obj p); OK (setitem (KSym w) r D)
    end.
Proof.
  intros Hp Hz Hw. rewrite add_nonzero by auto using Phasor_not_tExpr.
  unfold add_kind, classify, _kind. by rewrite Hp, Hw.
Qed.

Lemma allowed_conjugate `{!EngineClosed E} c a : allowed c a → allowed c (sym_conjugate a).
Proof.
  intros Ha x Hx. destruct (has x (sym_conjugate a)) eqn:Hm; [|done].
  apply has_conjugate in Hm. by rewrite Ha in Hm.
Qed.

Lemma allowed_simplify `{!EngineClosed E} c a : allowed c a → allowed c (sym_simplify a).
Proof.
  intros Ha x Hx. destruct (has x (sym_simplify a)) eqn:Hm; [|done].
  apply has_simplify in Hm. by rewrite Ha in Hm.
Qed.

Lemma allowed_sqrt `{!EngineClosed E} c a : allowed c a → allowed c (sym_sqrt a).
Proof.
  intros Ha x Hx. destruct (has x (sym_sqrt a)) eqn:Hm; [|done].
  apply has_sqrt in Hm. by rewrite Ha in Hm.
Qed.

(** The noise classes are the classes stored under ['n']. *)
Lemma kind_n_class sc v :
  _kind sc v = Some (KStr "n") → vcls v = match sc with Vsuper => Vn | Isuper => In end.
Proof.
  unfold _kind, isinstance.
  destruct sc, (vcls v); compute_classes; cbv iota;
    try (destruct (omega_key v); discriminate);
    vm_compute; intros H; done.
Qed.

(** The power of a noise value: [(value * value.conjugate).simplify()]. *)
Lemma power_noise `{!EngineClosed E} v :
  vcls v ∈ [Vn; In] → well_formed v →
  ∃ q, power v = OK q ∧ vcls q = vcls v ∧ well_formed q
       ∧ expr q = sym_simplify (sym_mul (expr v) (sym_conjugate (expr v))).
Proof.
  intros Hc Hwf. unfold power, conjugate, simplify.
  unfold well_formed in *.
  destruct (construct_is_OK (vcls v) (Raw (sym_conjugate (expr v))) ∅) as [vc Hvc].
  { by apply allowed_conjugate. }
  rewrite Hvc. simpl.
  pose proof (construct_vcls _ _ _ _ Hvc) as Hvcc.
  pose proof (construct_expr _ _ _ _ Hvc) as Hvce. simpl in Hvce.
  unfold __mul__, __compat_mul__, Expr_compat_mul, isinstance.
  rewrite Hvcc.
  assert (issubclass (vcls v) Phasor = false ∧ issubclass (vcls v) sExpr = false)
    as [-> ->].
  { apply list_elem_of_In in Hc. simpl in Hc.
    destruct Hc as [<-|[<-|[]]]; done. }
  simpl. rewrite decide_True by done.
  destruct (construct_then (vcls v) (Obj vc)
              (sym_mul (expr v) (sym_conjugate (expr v))) ∅)
    as (x' & p & Hx' & Hex' & Hp & Hpc & Hpe).
  { simpl. rewrite Hvce. by apply allowed_conjugate. }
  { apply allowed_mul; [done|by apply allowed_conjugate]. }
  rewrite Hx'. simpl. rewrite Hex'. simpl. rewrite Hvce, Hp. simpl.
  rewrite Hpc, Hpe.
  destruct (construct_is_OK (vcls v)
              (Raw (sym_simplify (sym_mul (expr v) (sym_conjugate (expr v)))))
              (assumptions p)) as [q Hq].
  { apply allowed_simplify, allowed_mul; [done|by apply allowed_conjugate]. }
  exists q. rewrite Hq. repeat split.
  - by apply construct_vcls in Hq.
  - apply construct_well_formed in Hq; [done|]. right. by eexists.
  - by apply construct_expr in Hq.
Qed.

(** C5: when a superposition holds a noise component of magnitude [m1]
    under ['n'], adding a noise component of magnitude [m2] replaces the
    entry by [sqrt(m1 * conj(m1) + m2 * conj(m2))] (each product and the
    sum simplified by the engine), and leaves the keys as they are; a
    value of any other kind whose key is present is combined with the
    stored entry by [+]. *)
Theorem C5_noise_power_basis `{!EngineClosed E} depth sc (D : super) v :
  expr v ≠ Zero → isinstance v tExpr = false →
  (∀ old, _kind sc v = Some (KStr "n") → well_formed v →
     getitem (KStr "n") D = Some old → vcls old = vcls v → well_formed old →
     ∃ r, add (Datatypes.S depth) sc D (PExpr v) = OK (setitem (KStr "n") r D)
          ∧ keys (setitem (KStr "n") r D) = keys D
          ∧ vcls r = vcls v
          ∧ expr r =
              sym_sqrt (sym_simplify (sym_add
                (sym_simplify (sym_mul (expr old) (sym_conjugate (expr old))))
                (sym_simplify (sym_mul (expr v) (sym_conjugate (expr v)))))))
  ∧ (∀ k v' old, classify sc v = OK (Some k, v') → k ≠ KStr "n" →
       getitem k D = Some old →
       add (Datatypes.S depth) sc D (PExpr v) =
         (r ← __add__ old (Obj v'); OK (setitem k r D))).
Proof.
  intros Hz Ht. rewrite add_nonzero by done. split.
  - intros old Hk Hwf Hold Hoc Hwfo.
    pose proof (kind_n_class _ _ Hk) as Hc.
    assert (vcls v ∈ [Vn; In]) as Hin by (rewrite Hc; destruct sc; set_solver).
    unfold add_kind, classify. rewrite Hk. simpl.
    destruct (power_noise v Hin Hwf) as (q2 & -> & Hq2c & Hq2w & Hq2e). simpl.
    rewrite Hold.
    destruct (power_noise old) as (q1 & -> & Hq1c & Hq1w & Hq1e);
      [by rewrite Hoc|done|]. simpl.
    assert (issubclass (vcls v) Phasor = false ∧ issubclass (vcls v) sExpr = false)
      as [Hph Hs].
    { apply list_elem_of_In in Hin. simpl in Hin.
      destruct Hin as [<-|[<-|[]]]; done. }
    unfold well_formed in *.
    unfold __add__, __compat_add__, Expr_compat_add, isinstance.
    rewrite Hq1c, Hq2c, Hoc, Hph, Hs. simpl. rewrite decide_True by done. simpl.
    destruct (construct_is_OK (vcls v) (Raw (sym_add (expr q1) (expr q2))) ∅)
      as [t1 Ht1].
    { apply allowed_add; [by rewrite <- Hoc, <- Hq1c|by rewrite <- Hq2c]. }
    rewrite Ht1. simpl. unfold simplify.
    rewrite (construct_vcls _ _ _ _ Ht1), (construct_expr _ _ _ _ Ht1). simpl.
    destruct (construct_is_OK (vcls v)
                (Raw (sym_simplify (sym_add (expr q1) (expr q2)))) (assumptions t1))
      as [t2 Ht2].
    { apply allowed_simplify, allowed_add;
        [by rewrite <- Hoc, <- Hq1c|by rewrite <- Hq2c]. }
    rewrite Ht2. simpl. unfold sqrt, _funcwrap.
    rewrite (construct_vcls _ _ _ _ Ht2), (construct_expr _ _ _ _ Ht2). simpl.
    destruct (construct_is_OK (vcls v)
                (Raw (sym_sqrt (sym_simplify (sym_add (expr q1) (expr q2))))) ∅)
      as [r Hr].
    { apply allowed_sqrt, allowed_simplify, allowed_add;
        [by rewrite <- Hoc, <- Hq1c|by rewrite <- Hq2c]. }
    rewrite Hr. simpl. exists r. split; [done|].
    split; [by eapply keys_setitem_present|].
    rewrite (construct_vcls _ _ _ _ Hr), (construct_expr _ _ _ _ Hr). simpl.
    by rewrite Hq1e, Hq2e.
  - intros k v' old Hk Hne Hold.
    unfold add_kind. rewrite Hk. simpl.
    rewrite decide_False by done. by rewrite Hold.
Qed.

(** The payload of a product with a number on the left. *)
Lemma rmul_Raw_expr v e r :
  __rmul__ v (Raw e) = OK r → expr r = sym_mul (expr v) e.
Proof.
  unfold __rmul__, __compat_mul__. intros H.
  apply bind_OK in H as ([[[c v'] x'] a] & Hc & Hr).
  apply construct_expr in Hr. simpl in Hr. rewrite Hr.
  destruct (isinstance v Phasor); simpl in Hc;
    apply bind_OK in Hc as (x0 & Hx0 & [= <- <- <- <-]);
    apply construct_expr in Hx0; simpl in Hx0; by rewrite Hx0.
Qed.

(** The payload of a sum of two instances. *)
Lemma add_Obj_expr v y r :
  __add__ v (Obj y) = OK r → expr r = sym_add (expr v) (expr y).
Proof.
  unfold __add__, __compat_add__. intros H.
  apply bind_OK in H as ([[[c v'] y'] a] & Hc & Hr).
  apply construct_expr in Hr. simpl in Hr. rewrite Hr. clear Hr.
  destruct (isinstance v Phasor).
  - unfold Phasor_compat_add in Hc.
    destruct (negb (isinstance y Phasor)); [discriminate Hc|].
    destruct (omega_ne v y) as [[]|]; simpl in Hc; try discriminate Hc.
    by injection Hc as <- <- <- <-.
  - unfold Expr_compat_add in Hc.
    repeat match type of Hc with
           | context [if ?b then _ else _] => destruct b
           end; try discriminate Hc;
      try (by injection Hc as <- <- <- <-);
      apply bind_OK in Hc as (x0 & Hx0 & [= <- <- <- <-]);
      apply construct_expr in Hx0; simpl in Hx0; by rewrite Hx0.
Qed.

(** What [Phasor.time()] returns for a phasor that is not marked complex:
    [re * cos(omega * t) + im * sin(omega * t)], with [re] and [im] the
    simplified real and imaginary parts of the payload. *)
Lemma Phasor_time_real_payload p r :
  is_complex p = false → Phasor_time p = OK r →
  ∃ t0 w, omega_key p = Some w ∧ t = OK t0 ∧
  expr r =
    sym_add
      (sym_mul (sym_cos (sym_mul (expr t0) w))
               (sym_simplify (sym_re (expr p))))
      (sym_mul (sym_sin (sym_mul (expr t0) w))
               (sym_simplify (sym_im (expr p)))).
Proof.
  intros Hc. unfold Phasor_time. rewrite Hc. intros H.
  apply bind_OK in H as (w & Hw & H).
  apply bind_OK in H as (t0 & Ht0 & H). exists t0, w.
  split.
  { unfold omega_key.
    destruct (assumptions p !! "omega") as [[b| |w']|]; try discriminate Hw;
      by injection Hw as <-. }
  split; [done|].
  apply bind_OK in H as (res & Hres & H).
  assert (expr r = expr res) as ->.
  { destruct (_laplace_conjugate_class p); by apply construct_expr in H. }
  apply bind_OK in Hres as (re & Hre & Hres).
  apply bind_OK in Hres as (wt & Hwt & Hres).
  apply bind_OK in Hres as (c & Hcos & Hres).
  apply bind_OK in Hres as (rc & Hrc & Hres).
  apply bind_OK in Hres as (im & Him & Hres).
  apply bind_OK in Hres as (wt' & Hwt' & Hres).
  apply bind_OK in Hres as (s & Hsin & Hres).
  apply bind_OK in Hres as (si & Hsi & Hres).
  apply add_Obj_expr in Hres. rewrite Hres.
  apply rmul_Raw_expr in Hwt, Hwt', Hrc, Hsi.
  apply construct_expr in Hre, Him, Hcos, Hsin. simpl in *.
  by rewrite Hrc, Hsi, Hcos, Hsin, Hre, Him, Hwt, Hwt'.
Qed.

(** The sum of two phasors is built without keywords, so it no longer
    carries the angular frequency of its operands: it has no ['omega']
    entry, and its [omega] is the global object. *)
Lemma phasor_sum_forgets_omega v i r :
  isinstance v Phasor = true →
  __add__ v (Obj i) = OK r → assumptions r !! "omega" = None.
Proof.
  intros Hv. unfold __add__, __compat_add__. rewrite Hv.
  unfold Phasor_compat_add.
  destruct (negb (isinstance i Phasor)); [discriminate|].
  destruct (omega_ne v i) as [[]|]; simpl; try discriminate.
  intros Hr. rewrite (construct_assumptions _ _ _ _ Hr).
  unfold Expr_assumptions. simpl.
  assert (init_keywords (vcls v) ∅ !! "omega" = None) as Hk
    by (rewrite init_keywords_lookup by done; apply lookup_empty).
  destruct (decide _); [rewrite lookup_insert_ne by done|]; by rewrite Hk.
Qed.

End Compatibility.

(** * Further properties of the code *)

Ltac forbidden_in := apply list_elem_of_In; vm_compute; tauto.
Ltac forbidden_cases H :=
  apply list_elem_of_In in H; vm_compute in H;
  repeat (destruct H as [<-|H]); try destruct H.

Section More.
Context {E : Engine}.

(** X1: a constructor call succeeds exactly when the part of the
    argument its class checks has none of the domain variables the class
    rejects.  The s-domain classes reject [t], the f- and omega-domain
    classes [s] and [t], the t-domain classes [s], all on the payload;
    [Expr], [sfwExpr] and the phasors reject nothing; the constants
    reject [s], [omega], [t] and [f] in a number or an expression, but
    search an instance for names before it is unwrapped and so accept
    every instance, whatever its payload.  When the call fails, the error
    is the domain violation of that class for a rejected variable that
    the payload contains. *)
Theorem X1_constructor_domain_check c x kw :
  ((∃ v, construct c x kw = OK v)
   ↔ allowed c (arg_payload x) ∨ (issubclass c cExpr = true ∧ ∃ u, x = Obj u))
  ∧ (∀ e, construct c x kw = Raise e →
          ∃ y, y ∈ forbidden c ∧ has y (arg_payload x) = true
               ∧ e = DomainViolation c y).
Proof.
  split.
  - split.
    + intros [v Hv].
      destruct (issubclass c cExpr) eqn:Hc; [destruct x as [e|u]|].
      * left. pose proof (construct_well_formed _ _ _ _ Hv) as Hw.
        unfold well_formed in Hw.
        rewrite (construct_vcls _ _ _ _ Hv), (construct_expr _ _ _ _ Hv) in Hw.
        apply Hw. right. by eexists.
      * right. split; [done|by eexists].
      * left. pose proof (construct_well_formed _ _ _ _ Hv) as Hw.
        unfold well_formed in Hw.
        rewrite (construct_vcls _ _ _ _ Hv), (construct_expr _ _ _ _ Hv) in Hw.
        apply Hw. by left.
    + intros [Ha|[Hc [u ->]]]; [by apply construct_is_OK|].
      destruct c; vm_compute in Hc; try discriminate Hc;
        unfold construct, typed_const_init, cExpr_init, Expr_init; simpl; eauto.
  - intros e He.
    assert (∀ self, cExpr_init self x kw = Raise e →
              ∃ y, y ∈ [ssym; omegasym; tsym; fsym]
                   ∧ has y (arg_payload x) = true ∧ e = DomainViolation self y)
      as Hconst.
    { intros self. unfold cExpr_init. destruct x as [a|u]; [|discriminate].
      destruct (filter _ _) as [|y l] eqn:Hf; [discriminate|].
      intros [= <-]. exists y.
      assert (y ∈ filter (λ y, has y a = true) [ssym; omegasym; tsym; fsym]) as Hin
        by (rewrite Hf; apply elem_of_cons; by left).
      apply list_elem_of_filter in Hin as [Hh Hin]. done. }
    destruct c;
      try (apply Hconst in He as (y & Hy & Hh & ->); exists y;
           split; [exact Hy|done]);
      try (unfold construct, typed_const_init in He;
           destruct (cExpr_init _ x kw) as [v0|e0] eqn:H0; simpl in He;
           [discriminate|injection He as <-];
           apply Hconst in H0 as (y & Hy & Hh & ->); exists y;
           split; [exact Hy|done]);
      unfold_init; unfold Expr_init, forbid in He; simpl in He;
      repeat match type of He with
             | context [has ?z ?a] => destruct (has z a) eqn:?; simpl in He
             end; try discriminate He;
      injection He as <-; eexists; (split; [|split; [eassumption|reflexivity]]);
      forbidden_in.
Qed.

Lemma key_not_default key :
  key ∈ ["dc"; "ac"; "causal"] → key ≠ "real" ∧ key ≠ "positive".
Proof.
  intros H. apply list_elem_of_In in H. simpl in H.
  destruct H as [<-|[<-|[<-|[]]]]; done.
Qed.

(** X2: wrapping an instance in a class without keywords, [c(v)], keeps
    the dc, ac and causal assumptions of [v] only for [Expr], [sfwExpr]
    and the s-domain classes; every other class (time, f, omega, noise,
    constant, phasor) passes a keyword of its own to [Expr.__init__], so
    the assumptions of [v] are discarded.  In both cases a zero payload is
    marked causal. *)
Theorem X2_rewrap_assumptions c v r key :
  construct c (Obj v) ∅ = OK r →
  key ∈ ["dc"; "ac"; "causal"] →
  assumptions r !! key =
    if decide (key = "causal" ∧ expr v = Zero) then Some (ABool true)
    else if bool_decide (c ∈ [Expr; sfwExpr; sExpr; Zs; Ys; Vs; Is; Hs])
    then assumptions v !! key else None.
Proof.
  intros Hr Hkey. destruct (key_not_default key Hkey) as [Hk1 Hk2].
  rewrite (construct_assumptions _ _ _ _ Hr).
  unfold Expr_assumptions. simpl.
  assert (∀ a : assumptions_t,
            (if decide (expr v = Zero) then <["causal" := ABool true]> a else a) !! key
            = if decide (key = "causal" ∧ expr v = Zero) then Some (ABool true)
              else a !! key) as Hz.
  { intros a. destruct (decide (expr v = Zero)) as [Hz|Hz].
    - destruct (decide (key = "causal")) as [->|Hne].
      + rewrite decide_True by done. apply lookup_insert_eq.
      + rewrite decide_False by tauto. by rewrite lookup_insert_ne.
    - by rewrite decide_False by tauto. }
  rewrite Hz. destruct (decide (key = "causal" ∧ expr v = Zero)); [done|].
  destruct c; unfold init_keywords; compute_classes; simpl;
    rewrite ?lookup_insert_ne, ?lookup_empty by done; simpl;
    rewrite ?decide_False by (apply insert_non_empty);
    rewrite ?lookup_insert_ne, ?lookup_empty by done; try done.
Qed.

(** X3: [tExpr.infer_assumptions] leaves the three keys dc, ac and causal
    present with boolean values, at most one of them true, and does not
    touch any other key, the class or the payload. *)
Theorem X3_time_inference_exclusive v :
  let v' := tExpr_infer_assumptions v in
  (∃ d a c, assumptions v' !! "dc" = Some (ABool d)
            ∧ assumptions v' !! "ac" = Some (ABool a)
            ∧ assumptions v' !! "causal" = Some (ABool c)
            ∧ (d && a = false) ∧ (d && c = false) ∧ (a && c = false))
  ∧ (∀ key, key ∉ ["dc"; "ac"; "causal"] →
            assumptions v' !! key = assumptions v !! key)
  ∧ vcls v' = vcls v ∧ expr v' = expr v.
Proof.
  unfold tExpr_infer_assumptions.
  split; [|split].
  - repeat match goal with
           | |- context [if ?b then _ else _] => destruct b
           end; simpl;
      eexists _, _, _;
      rewrite ?lookup_insert_eq;
      repeat (rewrite lookup_insert_ne by done; rewrite ?lookup_insert_eq);
      repeat split; reflexivity.
  - intros key Hkey.
    assert (key ≠ "dc" ∧ key ≠ "ac" ∧ key ≠ "causal") as (H1 & H2 & H3).
    { repeat split; intros ->; apply Hkey; apply list_elem_of_In; simpl; tauto. }
    repeat match goal with
           | |- context [if ?b then _ else _] => destruct b
           end; simpl; by rewrite !lookup_insert_ne by done.
  - by repeat match goal with
              | |- context [if ?b then _ else _] => destruct b
              end.
Qed.

(** The conjugate class attributes of a constructed instance. *)
Lemma construct_conjugates c x kw v :
  construct c x kw = OK v →
  _laplace_conjugate_class v = laplace_conjugate c
  ∧ _fourier_conjugate_class v = fourier_conjugate c.
Proof.
  intros Hv.
  destruct c; simpl;
    try (apply cExpr_init_OK in Hv as (_ & a & ->); done);
    try (unfold construct, typed_const_init in Hv;
         apply bind_OK in Hv as (v0 & Hv0 & [= <-]);
         apply cExpr_init_OK in Hv0 as (_ & a & ->); done);
    unfold_init; unfold Expr_init, forbid in Hv; simpl in Hv;
    repeat match type of Hv with
           | context [has ?z ?e] => destruct (has z e) eqn:?; simpl in Hv
           end; try discriminate Hv;
    by injection Hv as <-.
Qed.

Lemma Expr_assumptions_lookup x kw key :
  Expr_assumptions x kw !! key =
    if decide (key = "causal" ∧ arg_payload x = Zero) then Some (ABool true)
    else match x with
         | Obj v => if decide (kw = ∅) then assumptions v else kw
         | Raw _ => kw
         end !! key.
Proof.
  unfold Expr_assumptions.
  destruct (decide (arg_payload x = Zero)) as [Hz|Hz].
  - destruct (decide (key = "causal")) as [->|Hne].
    + rewrite decide_True by done. apply lookup_insert_eq.
    + rewrite decide_False by tauto. by rewrite lookup_insert_ne.
  - by rewrite decide_False by tauto.
Qed.

(** X4: [X.laplace()] on an s-domain instance returns an instance of the
    same class with the same payload whose dc, ac and causal assumptions
    are all [None], whatever they were before: the method first runs
    [Expr.infer_assumptions], which overwrites them.  Only a zero payload
    comes back causal. *)
Theorem X4_sExpr_laplace_resets v :
  isinstance v sExpr = true → well_formed v →
  ∃ r, sExpr_laplace v = OK r ∧ vcls r = vcls v ∧ expr r = expr v
       ∧ ∀ key, key ∈ ["dc"; "ac"; "causal"] →
           assumptions r !! key =
             if decide (key = "causal" ∧ expr v = Zero) then Some (ABool true)
             else Some ANone.
Proof.
  intros Hs Hwf. unfold sExpr_laplace, infer_assumptions.
  assert (isinstance v tExpr = false) as ->.
  { unfold isinstance in *. destruct (vcls v); vm_compute in Hs; done. }
  set (v' := Expr_infer_assumptions v).
  destruct (construct_is_OK (vcls v') (Obj v') (assumptions v')) as [r Hr].
  { exact Hwf. }
  exists r. split; [exact Hr|].
  split; [by apply construct_vcls in Hr|].
  split; [by apply construct_expr in Hr|].
  intros key Hkey. destruct (key_not_default key Hkey) as [Hk1 Hk2].
  rewrite (construct_assumptions _ _ _ _ Hr), Expr_assumptions_lookup. simpl.
  destruct (decide (key = "causal" ∧ expr v = Zero)); [done|].
  rewrite decide_False.
  2:{ unfold init_keywords. unfold isinstance in Hs.
      destruct (vcls v); vm_compute in Hs; try discriminate Hs;
        compute_classes; simpl; apply insert_non_empty. }
  rewrite init_keywords_lookup by done. subst v'. simpl.
  apply list_elem_of_In in Hkey. simpl in Hkey.
  destruct Hkey as [<-|[<-|[<-|[]]]];
    repeat (rewrite lookup_insert_ne by done); by rewrite lookup_insert_eq.
Qed.

(** X5: [X.jomega] of a well-formed s-domain instance is its payload with
    [s] replaced by [j * omega], in the omega-domain class of the same
    quantity role ([Vs] gives [Vomega], ..., plain [sExpr] gives
    [omegaExpr]), whatever the assumptions of [X]. *)
Theorem X5_jomega_by_substitution `{!EngineClosed E} X :
  isinstance X sExpr = true → well_formed X →
  ∃ r, jomega X = OK r
       ∧ expr r = sym_subs (expr X) ssym (sym_mul (Sym omegasym) ImagI)
       ∧ domain_of (vcls r) = Dangular
       ∧ quantity_role (vcls r) = quantity_role (vcls X).
Proof.
  intros HX Hwf. unfold jomega.
  assert (allowed omegaExpr (Sym omegasym)) as Hw.
  { intros x Hx. destruct (has x (Sym omegasym)) eqn:Hh; [|done].
    apply has_Sym in Hh as ->.
    apply list_elem_of_In in Hx. vm_compute in Hx. intuition discriminate. }
  assert (allowed omegaExpr ImagI) as Hi by (intros x _; apply has_ImagI).
  destruct (construct_is_OK omegaExpr (Raw (Sym omegasym)) ∅ Hw) as [w Hw0].
  rewrite Hw0. simpl.
  pose proof (construct_vcls _ _ _ _ Hw0) as Hwc.
  pose proof (construct_expr _ _ _ _ Hw0) as Hwe. simpl in Hwe.
  unfold __rmul__, __compat_mul__, isinstance. rewrite Hwc. compute_classes.
  unfold Expr_compat_mul. rewrite Hwc.
  destruct (construct_then omegaExpr (Raw ImagI) (sym_mul (Sym omegasym) ImagI) ∅)
    as (x' & x & Hx' & Hex' & Hx & Hxc & Hxe); [done|by apply allowed_mul|].
  rewrite Hx'. simpl. rewrite Hwe, Hex'. simpl. rewrite Hx. simpl.
  unfold sExpr_call, _subs1. rewrite Hxc. simpl. rewrite Hxe.
  set (e := sym_subs _ _ _).
  assert (has ssym e = false ∧ has tsym e = false) as [Hs Ht].
  { split.
    - destruct (has ssym e) eqn:Hh; [|done].
      apply has_subs in Hh as [[? _]|Hh]; [done|].
      rewrite (allowed_mul omegaExpr) in Hh; [done|done|done|forbidden_in].
    - destruct (has tsym e) eqn:Hh; [|done].
      apply has_subs in Hh as [[_ Hh]|Hh].
      + rewrite Hwf in Hh; [done|].
        unfold isinstance in HX.
        destruct (vcls X); vm_compute in HX; try discriminate HX; forbidden_in.
      + rewrite (allowed_mul omegaExpr) in Hh; [done|done|done|forbidden_in]. }
  unfold isinstance in HX.
  destruct (vcls X); vm_compute in HX; try discriminate HX; simpl;
    match goal with
    | |- context [construct ?c ?a ?kw] =>
        destruct (construct_is_OK c a kw) as [r Hr];
        [ let z := fresh in let Hz := fresh in
          intros z Hz; forbidden_cases Hz; done
        | exists r; rewrite (construct_vcls _ _ _ _ Hr);
          rewrite (construct_expr _ _ _ _ Hr); done ]
    end.
Qed.

(** X6: the Laplace conjugate classes are each other's inverse and keep the
    quantity role: a time-domain instance of class [c] is transformed by
    [laplace()] into an s-domain instance of the conjugate class, which
    [inverse_laplace()] brings back to class [c], with payload
    [inverse_laplace_transform(laplace_transform(payload))] under the
    assumptions inferred on the way. *)
Theorem X6_laplace_class_round_trip c x kw v w u :
  construct c x kw = OK v → isinstance v tExpr = true →
  tExpr_laplace v = OK w → inverse_laplace w ∅ = OK u →
  laplace_conjugate c = Some (vcls w)
  ∧ laplace_conjugate (vcls w) = Some c
  ∧ domain_of (vcls w) = Dlaplace
  ∧ quantity_role (vcls w) = quantity_role c
  ∧ vcls u = c
  ∧ expr u = inverse_laplace_transform (laplace_transform (expr v)) (assumptions w).
Proof.
  intros Hv Ht Hw Hu.
  pose proof (construct_vcls _ _ _ _ Hv) as Hc.
  destruct (construct_conjugates _ _ _ _ Hv) as [Hl _].
  unfold tExpr_laplace in Hw.
  assert (_laplace_conjugate_class (infer_assumptions v) = laplace_conjugate c) as Hl'.
  { rewrite <- Hl. unfold infer_assumptions, tExpr_infer_assumptions,
      Expr_infer_assumptions.
    by repeat match goal with
              | |- context [if ?b then _ else _] => destruct b
              end. }
  assert (expr (infer_assumptions v) = expr v) as He.
  { unfold infer_assumptions, tExpr_infer_assumptions, Expr_infer_assumptions.
    by repeat match goal with
              | |- context [if ?b then _ else _] => destruct b
              end. }
  rewrite Hl', He in Hw.
  unfold isinstance in Ht. rewrite Hc in Ht.
  destruct c; vm_compute in Ht; try discriminate Ht; simpl in Hw;
    pose proof (construct_vcls _ _ _ _ Hw) as Hwc;
    pose proof (construct_expr _ _ _ _ Hw) as Hwe;
    destruct (construct_conjugates _ _ _ _ Hw) as [Hwl _];
    unfold inverse_laplace in Hu; rewrite decide_True in Hu by done;
    rewrite Hwl in Hu; simpl in Hu;
    pose proof (construct_vcls _ _ _ _ Hu) as Huc;
    pose proof (construct_expr _ _ _ _ Hu) as Hue;
    simpl in *; rewrite Hwc, Huc, Hue, Hwe; done.
Qed.

Lemma forbidden_s c : issubclass c sExpr = true → forbidden c = [tsym].
Proof. destruct c; intros H; vm_compute in H; try discriminate H; reflexivity. Qed.

(** Two s-domain operands are always compatible for [*] and [/]: the
    class is one of the two, the more derived one when they are related. *)
Lemma compat_mul_s_pair `{!EngineClosed E} v y op :
  isinstance v sExpr = true → isinstance y sExpr = true →
  well_formed v → well_formed y →
  ∃ c v' y', __compat_mul__ v (Obj y) op = OK (c, v', y', (mul_assumptions v y).1.1)
             ∧ issubclass c sExpr = true
             ∧ expr v' = expr v ∧ expr y' = expr y.
Proof.
  intros Hv Hy Hwv Hwy.
  destruct v as [cv ev av lv fv], y as [cy ey ay ly fy].
  unfold well_formed, isinstance in *. simpl in *.
  destruct cv; vm_compute in Hv; try discriminate Hv;
    destruct cy; vm_compute in Hy; try discriminate Hy.
  all: unfold __compat_mul__, isinstance; simpl; compute_classes; simpl.
  all: unfold Expr_compat_mul, isinstance; simpl; compute_classes; simpl.
  all: match goal with
       | |- context [mul_assumptions ?a ?b] =>
           let Hm := fresh "Hm" in
           destruct (mul_assumptions a b) as [[? ?] ?] eqn:Hm;
           pose proof (mul_assumptions_same _ _ _ _ _ Hm) as [[? ?] [? ?]];
           simpl in *
       end.
  all: repeat match goal with
         | H : vcls ?v = _ |- context [vcls ?v] => rewrite H
         end; compute_classes; simpl.
  all: try (step_construct; do 3 eexists; split; [reflexivity|];
            split; [reflexivity|]; split; congruence).
Qed.

Lemma mul_assumptions_causal v y :
  (is_causal v).1 = true ∨ (is_causal y).1 = true →
  (mul_assumptions v y).1.1 = {["causal" := ABool true]}.
Proof.
  unfold mul_assumptions. intros H.
  destruct (is_causal v) as [[] v1]; [reflexivity|].
  destruct H as [H|H]; [discriminate H|].
  destruct (is_causal y) as [c2 y1]. cbn [fst] in H. subst c2. reflexivity.
Qed.

(** X7: the product and the quotient of two well-formed s-domain
    instances always exist and are s-domain instances with the product
    (quotient) of the payloads; when either operand is causal the result
    is causal, and a nonzero product carries exactly the assumption
    [causal = True]. *)
Theorem X7_s_product_causal `{!EngineClosed E} v y :
  isinstance v sExpr = true → isinstance y sExpr = true →
  well_formed v → well_formed y →
  (∃ r, __mul__ v (Obj y) = OK r ∧ isinstance r sExpr = true
        ∧ expr r = sym_mul (expr v) (expr y)
        ∧ ((is_causal v).1 = true ∨ (is_causal y).1 = true →
           (sym_mul (expr v) (expr y) ≠ Zero →
            assumptions r = {["causal" := ABool true]})
           ∧ (is_causal r).1 = true))
  ∧ (∃ r, __truediv__ v (Obj y) = OK r ∧ isinstance r sExpr = true
          ∧ expr r = sym_div (expr v) (expr y)
          ∧ ((is_causal v).1 = true ∨ (is_causal y).1 = true →
             (is_causal r).1 = true)).
Proof.
  intros Hv Hy Hwv Hwy.
  assert (∀ c e a, issubclass c sExpr = true →
            has tsym e = false →
            ∃ r, construct c (Raw e) a = OK r
                 ∧ isinstance r sExpr = true ∧ expr r = e
                 ∧ (a = {["causal" := ABool true]} →
                    (e ≠ Zero → assumptions r = {["causal" := ABool true]})
                    ∧ (is_causal r).1 = true)) as Hbuild.
  { intros c e a Hcs He.
    destruct (construct_is_OK c (Raw e) a) as [r Hr].
    { intros z Hz. rewrite (forbidden_s c Hcs) in Hz.
      apply list_elem_of_singleton in Hz as ->. exact He. }
    exists r. split; [exact Hr|].
    pose proof (construct_assumptions _ _ _ _ Hr) as Has.
    assert (init_keywords c a = a) as Hk.
    { unfold init_keywords.
      destruct c; vm_compute in Hcs; try discriminate Hcs; compute_classes; done. }
    rewrite Hk in Has.
    split; [unfold isinstance; by rewrite (construct_vcls _ _ _ _ Hr)|].
    split; [by apply construct_expr in Hr|].
    intros ->. split.
    - intros Hne. rewrite Has. unfold Expr_assumptions. simpl.
      by rewrite decide_False.
    - unfold is_causal, assumption_property.
      assert (assumptions r !! "causal" = Some (ABool true)) as Hl.
      { rewrite Has, Expr_assumptions_lookup. simpl.
        destruct (decide _); [done|]. apply lookup_insert_eq. }
      rewrite Hl. simpl. by rewrite bool_decide_eq_true_2. }
  assert (has tsym (expr v) = false ∧ has tsym (expr y) = false) as [Htv Hty].
  { split; [apply Hwv|apply Hwy];
      unfold isinstance in *; by rewrite forbidden_s, list_elem_of_singleton. }
  split.
  - destruct (compat_mul_s_pair v y "*" Hv Hy Hwv Hwy)
      as (c & v' & y' & Hcm & Hcs & Hev & Hey).
    unfold __mul__. rewrite Hcm. simpl. rewrite Hev, Hey.
    destruct (Hbuild c (sym_mul (expr v) (expr y)) (mul_assumptions v y).1.1)
      as (r & Hr & Hrs & Hre & Hrc); [done| |].
    { destruct (has tsym (sym_mul (expr v) (expr y))) eqn:Hh; [|done].
      apply has_mul in Hh as [Hh|Hh]; congruence. }
    exists r. split; [exact Hr|]. split; [exact Hrs|]. split; [exact Hre|].
    intros Hc. apply Hrc. by apply mul_assumptions_causal.
  - destruct (compat_mul_s_pair v y "/" Hv Hy Hwv Hwy)
      as (c & v' & y' & Hcm & Hcs & Hev & Hey).
    unfold __truediv__. rewrite Hcm. simpl. rewrite Hev, Hey.
    destruct (Hbuild c (sym_div (expr v) (expr y)) (mul_assumptions v y).1.1)
      as (r & Hr & Hrs & Hre & Hrc); [done| |].
    { destruct (has tsym (sym_div (expr v) (expr y))) eqn:Hh; [|done].
      apply has_div in Hh as [Hh|Hh]; congruence. }
    exists r. split; [exact Hr|]. split; [exact Hrs|]. split; [exact Hre|].
    intros Hc. apply Hrc. by apply mul_assumptions_causal.
Qed.

Lemma init_keywords_empty_lookup c key :
  key ∈ ["dc"; "ac"; "causal"] → init_keywords c ∅ !! key = None.
Proof.
  intros Hkey. destruct (key_not_default key Hkey) as [Hk1 Hk2].
  by rewrite init_keywords_lookup, lookup_empty.
Qed.

(** X8: multiplying or dividing an instance that is not a phasor by a
    number returns an instance of the same class whose payload is the
    product (quotient), and forgets the dc, ac and causal assumptions of
    the instance: only a zero result is marked causal. *)
Theorem X8_number_scaling_forgets `{!EngineClosed E} v e key :
  isinstance v Phasor = false → well_formed v → allowed (vcls v) e →
  key ∈ ["dc"; "ac"; "causal"] →
  (∃ r, __mul__ v (Raw e) = OK r ∧ vcls r = vcls v
        ∧ expr r = sym_mul (expr v) e
        ∧ assumptions r !! key =
            if decide (key = "causal" ∧ sym_mul (expr v) e = Zero)
            then Some (ABool true) else None)
  ∧ (∃ r, __truediv__ v (Raw e) = OK r ∧ vcls r = vcls v
          ∧ expr r = sym_div (expr v) e
          ∧ assumptions r !! key =
              if decide (key = "causal" ∧ sym_div (expr v) e = Zero)
              then Some (ABool true) else None).
Proof.
  intros Hph Hwf He Hkey.
  unfold __mul__, __truediv__, __compat_mul__. rewrite Hph.
  unfold Expr_compat_mul.
  destruct (construct_is_OK (vcls v) (Raw e) ∅ He) as [x' Hx']. rewrite Hx'.
  pose proof (construct_expr _ _ _ _ Hx') as Hxe. simpl in Hxe. simpl.
  rewrite Hxe.
  split.
  - destruct (construct_is_OK (vcls v) (Raw (sym_mul (expr v) e)) ∅) as [r Hr].
    { by apply allowed_mul. }
    exists r. split; [exact Hr|].
    split; [by apply construct_vcls in Hr|].
    split; [by apply construct_expr in Hr|].
    rewrite (construct_assumptions _ _ _ _ Hr), Expr_assumptions_lookup. simpl.
    destruct (decide _); [done|]. by apply init_keywords_empty_lookup.
  - destruct (construct_is_OK (vcls v) (Raw (sym_div (expr v) e)) ∅) as [r Hr].
    { by apply allowed_div. }
    exists r. split; [exact Hr|].
    split; [by apply construct_vcls in Hr|].
    split; [by apply construct_expr in Hr|].
    rewrite (construct_assumptions _ _ _ _ Hr), Expr_assumptions_lookup. simpl.
    destruct (decide _); [done|]. by apply init_keywords_empty_lookup.
Qed.

Lemma forbidden_Phasor c : issubclass c Phasor = true → forbidden c = [].
Proof. destruct c; intros H; vm_compute in H; try discriminate H; reflexivity. Qed.

Lemma allowed_Phasor c e : issubclass c Phasor = true → allowed c e.
Proof. intros Hc x Hx. rewrite (forbidden_Phasor c Hc) in Hx. by apply elem_of_nil in Hx. Qed.

Lemma init_keywords_Phasor c kw :
  issubclass c Phasor = true → init_keywords c kw = <["positive" := ABool true]> kw.
Proof.
  intros Hc. unfold init_keywords.
  destruct c; vm_compute in Hc; try discriminate Hc; compute_classes; done.
Qed.

(** The instance a phasor product builds: class, payload and stored
    frequency of the left operand. *)
Lemma phasor_result v e :
  isinstance v Phasor = true →
  ∃ r, construct (vcls v) (Raw e) (assumptions v) = OK r
       ∧ vcls r = vcls v ∧ expr r = e
       ∧ assumptions r !! "omega" = assumptions v !! "omega".
Proof.
  intros Hph.
  destruct (construct_is_OK (vcls v) (Raw e) (assumptions v)) as [r Hr].
  { by apply allowed_Phasor. }
  exists r. split; [exact Hr|].
  split; [by apply construct_vcls in Hr|].
  split; [by apply construct_expr in Hr|].
  rewrite (construct_assumptions _ _ _ _ Hr), Expr_assumptions_lookup.
  rewrite decide_False by (intros [? _]; done). simpl.
  rewrite init_keywords_Phasor by done.
  by rewrite lookup_insert_ne.
Qed.

(** X9: a phasor multiplied by a number or by an omega-domain instance
    gives a phasor of the class of the left operand that keeps its stored
    angular frequency.  So does the product with another phasor when the
    two store the same ['omega'] entry, or none; when the two store
    different frequencies, or when exactly one of them stores [None], the
    product raises the frequency mismatch; and any other instance raises
    the incompatible-arguments error. *)
Theorem X9_phasor_product v x :
  isinstance v Phasor = true →
  match x with
  | Raw e => ∃ r, __mul__ v x = OK r ∧ vcls r = vcls v
                  ∧ expr r = sym_mul (expr v) e
                  ∧ assumptions r !! "omega" = assumptions v !! "omega"
  | Obj y =>
      if isinstance y omegaExpr
      then ∃ r, __mul__ v x = OK r ∧ vcls r = vcls v
                ∧ expr r = sym_mul (expr v) (expr y)
                ∧ assumptions r !! "omega" = assumptions v !! "omega"
      else if isinstance y Phasor
      then (assumptions v !! "omega" = assumptions y !! "omega" →
            ∃ r, __mul__ v x = OK r ∧ vcls r = vcls v
                 ∧ expr r = sym_mul (expr v) (expr y)
                 ∧ assumptions r !! "omega" = assumptions v !! "omega")
           ∧ (∀ w1 w2, assumptions v !! "omega" = Some (AVal w1) →
                       assumptions y !! "omega" = Some (AVal w2) → w1 ≠ w2 →
                       __mul__ v x = Raise (OmegaMismatch (vcls v) (vcls y)))
           ∧ ((assumptions v !! "omega" = Some ANone
               ∧ assumptions y !! "omega" ≠ Some ANone)
              ∨ (assumptions y !! "omega" = Some ANone
                 ∧ assumptions v !! "omega" ≠ Some ANone) →
              __mul__ v x = Raise (OmegaMismatch (vcls v) (vcls y)))
      else __mul__ v x = Raise (IncompatibleArguments (Some (vcls v)) (Some (vcls y)) "*")
  end.
Proof.
  intros Hph. unfold __mul__, __compat_mul__. rewrite Hph.
  unfold Phasor_compat_mul.
  destruct x as [e|y].
  - destruct (construct_is_OK (vcls v) (Raw e) ∅) as [x' Hx'].
    { by apply allowed_Phasor. }
    rewrite Hx'. simpl. rewrite (construct_expr _ _ _ _ Hx'). simpl.
    destruct (phasor_result v (sym_mul (expr v) e) Hph) as (r & Hr & ?).
    by exists r.
  - destruct (isinstance y omegaExpr) eqn:Hom; simpl.
    { destruct (phasor_result v (sym_mul (expr v) (expr y)) Hph) as (r & Hr & ?).
      by exists r. }
    destruct (isinstance y Phasor) eqn:Hyp; simpl; [|done].
    split; [|split].
    + intros Heq. rewrite (omega_ne_same v y Heq). simpl.
      destruct (phasor_result v (sym_mul (expr v) (expr y)) Hph) as (r & Hr & ?).
      by exists r.
    + intros w1 w2 H1 H2 Hne. rewrite (omega_ne_values v y w1 w2 H1 H2).
      by rewrite bool_decide_eq_false_2.
    + intros Hnone. by rewrite (omega_ne_None v y Hnone).
Qed.

Lemma allowed_incl c c' e :
  (∀ z, z ∈ forbidden c' → z ∈ forbidden c) → allowed c e → allowed c' e.
Proof. intros Hi Ha z Hz. by apply Ha, Hi. Qed.

(** X10: the product of an omega-domain (or noise) instance and a
    time-domain instance is allowed in both orders and belongs to the
    class of the time-domain operand. *)
Theorem X10_omega_times_t `{!EngineClosed E} w x :
  isinstance w omegaExpr = true → isinstance x tExpr = true →
  well_formed w → well_formed x →
  (∃ r, __mul__ w (Obj x) = OK r ∧ vcls r = vcls x
        ∧ expr r = sym_mul (expr w) (expr x))
  ∧ (∃ r, __mul__ x (Obj w) = OK r ∧ vcls r = vcls x
          ∧ expr r = sym_mul (expr x) (expr w)).
Proof.
  intros Hw Hx Hww Hwx.
  assert (allowed (vcls x) (expr w)) as Hwx'.
  { eapply allowed_incl; [|exact Hww]. intros z Hz.
    unfold isinstance in *.
    destruct (vcls x); vm_compute in Hx; try discriminate Hx;
      forbidden_cases Hz;
      destruct (vcls w); vm_compute in Hw; try discriminate Hw; forbidden_in. }
  assert (∀ e, allowed (vcls x) e →
            ∃ r, construct (vcls x) (Raw e) ∅ = OK r ∧ vcls r = vcls x ∧ expr r = e)
    as Hbuild.
  { intros e He. destruct (construct_is_OK (vcls x) (Raw e) ∅ He) as [r Hr].
    exists r. split; [exact Hr|].
    split; [by apply construct_vcls in Hr|by apply construct_expr in Hr]. }
  unfold __mul__, __compat_mul__, Expr_compat_mul.
  assert (isinstance w Phasor = false ∧ isinstance w sExpr = false
          ∧ isinstance w tExpr = false ∧ vcls w ≠ vcls x
          ∧ isinstance x Phasor = false ∧ isinstance x sExpr = false
          ∧ isinstance x omegaExpr = false)
    as (-> & -> & Hwt & Hne & -> & -> & Hxo).
  { unfold isinstance in *.
    destruct (vcls w); vm_compute in Hw; try discriminate Hw;
      destruct (vcls x); vm_compute in Hx; try discriminate Hx; done. }
  simpl. rewrite Hw, Hx. simpl.
  rewrite (decide_False (P := vcls w = vcls x)) by done.
  rewrite (decide_False (P := vcls x = vcls w)) by done.
  rewrite Hxo. simpl.
  split; apply Hbuild; by apply allowed_mul.
Qed.

(** The class pairs of X11, as a test on the two classes. *)
Lemma compat_mul_cross_domain c xc e a l f0 e' a' l' f' op :
  bool_decide ((domain_of c ∈ [Dlaplace; Dfourier] ∨ domain_of xc ∈ [Dlaplace; Dfourier])
               ∧ domain_of c ≠ domain_of xc
               ∧ domain_of c ∈ [Dtime; Dlaplace; Dfourier; Dangular; Dnoise]
               ∧ domain_of xc ∈ [Dtime; Dlaplace; Dfourier; Dangular; Dnoise]) = true →
  __compat_mul__ (mkValue c e a l f0) (Obj (mkValue xc e' a' l' f')) op
  = Raise (Incompatible c xc op).
Proof.
  intros H. destruct c; destruct xc; vm_compute in H; try discriminate H; reflexivity.
Qed.

(** X11: an s-domain or f-domain instance cannot be multiplied with, or
    divided by, an instance of another transform domain (time, Laplace,
    Fourier, angular frequency, noise), whichever operand comes first:
    the operation raises the incompatibility error, whatever the
    payloads. *)
Theorem X11_cross_domain_product_raises v y :
  domain_of (vcls v) ∈ [Dlaplace; Dfourier] ∨ domain_of (vcls y) ∈ [Dlaplace; Dfourier] →
  domain_of (vcls v) ≠ domain_of (vcls y) →
  domain_of (vcls v) ∈ [Dtime; Dlaplace; Dfourier; Dangular; Dnoise] →
  domain_of (vcls y) ∈ [Dtime; Dlaplace; Dfourier; Dangular; Dnoise] →
  __mul__ v (Obj y) = Raise (Incompatible (vcls v) (vcls y) "*")
  ∧ __truediv__ v (Obj y) = Raise (Incompatible (vcls v) (vcls y) "/").
Proof.
  intros H1 H2 H3 H4.
  destruct v as [c e a l f0], y as [xc e' a' l' f']. simpl in *.
  unfold __mul__, __truediv__.
  rewrite !compat_mul_cross_domain by (apply bool_decide_eq_true_2; done).
  done.
Qed.

(** Two operands of the same domain, time, Laplace or angular frequency,
    are compatible for [*] and [/]; the class is that of the right
    operand when it derives from the class of the left one, and that of
    the left operand otherwise. *)
Lemma compat_mul_same_domain `{!EngineClosed E} D v y op :
  D ∈ [tExpr; sExpr; omegaExpr] →
  isinstance v D = true → isinstance y D = true →
  well_formed v → well_formed y →
  ∃ v' y' a,
    __compat_mul__ v (Obj y) op
    = OK (if isinstance y (vcls v) then vcls y else vcls v, v', y', a)
    ∧ expr v' = expr v ∧ expr y' = expr y
    ∧ allowed (if isinstance y (vcls v) then vcls y else vcls v) (expr v)
    ∧ allowed (if isinstance y (vcls v) then vcls y else vcls v) (expr y).
Proof.
  intros HD Hv Hy Hwv Hwy.
  destruct v as [cv ev av lv fv], y as [cy ey ay ly fy].
  unfold well_formed, isinstance in *. simpl in *.
  apply list_elem_of_In in HD. simpl in HD.
  destruct HD as [<-|[<-|[<-|[]]]].
  all: destruct cv; vm_compute in Hv; try discriminate Hv;
         destruct cy; vm_compute in Hy; try discriminate Hy.
  all: unfold __compat_mul__, Expr_compat_mul, isinstance; simpl;
         compute_classes; simpl.
  all: try match goal with
       | |- context [mul_assumptions ?a ?b] =>
           let Hm := fresh "Hm" in
           destruct (mul_assumptions a b) as [[? ?] ?] eqn:Hm;
           pose proof (mul_assumptions_same _ _ _ _ _ Hm) as [[? ?] [? ?]];
           simpl in *
       end.
  all: repeat match goal with
         | H : vcls ?v = _ |- context [vcls ?v] => rewrite H
         end; compute_classes; simpl.
  all: try match goal with
       | |- context [construct ?c ?x ?kw] =>
           let r := fresh "r" in
           let Hr := fresh "Hr" in
           destruct (construct_is_OK c x kw) as [r Hr];
           [ simpl;
             repeat match goal with
                    | H : expr ?v = _ |- context [expr ?v] => rewrite H
                    end;
             eapply allowed_incl; [|eassumption];
             let z := fresh in let Hz := fresh in
             intros z Hz; forbidden_cases Hz; forbidden_in
           | rewrite Hr; pose proof (construct_expr _ _ _ _ Hr); simpl in * ]
       end.
  all: do 3 eexists; split; [reflexivity|];
         split; [simpl; congruence|]; split; [simpl; congruence|];
         split; (eapply allowed_incl; [|eassumption];
                 let z := fresh in let Hz := fresh in
                 intros z Hz; forbidden_cases Hz; forbidden_in).
Qed.

(** X12: in the time, Laplace and angular-frequency domains any two
    well-formed instances of the same domain can be multiplied and
    divided, whatever their quantities; the result has the product
    (quotient) of the payloads and the class of the left operand, unless
    the right operand's class derives from it, in which case it has the
    class of the right operand. *)
Theorem X12_same_domain_product `{!EngineClosed E} D v y :
  D ∈ [tExpr; sExpr; omegaExpr] →
  isinstance v D = true → isinstance y D = true →
  well_formed v → well_formed y →
  (∃ r, __mul__ v (Obj y) = OK r
        ∧ vcls r = (if isinstance y (vcls v) then vcls y else vcls v)
        ∧ expr r = sym_mul (expr v) (expr y))
  ∧ (∃ r, __truediv__ v (Obj y) = OK r
          ∧ vcls r = (if isinstance y (vcls v) then vcls y else vcls v)
          ∧ expr r = sym_div (expr v) (expr y)).
Proof.
  intros HD Hv Hy Hwv Hwy. split.
  - destruct (compat_mul_same_domain D v y "*" HD Hv Hy Hwv Hwy)
      as (v' & y' & a & Hcm & Hev & Hey & Hav & Hay).
    unfold __mul__. rewrite Hcm. simpl. rewrite Hev, Hey.
    destruct (construct_is_OK (if isinstance y (vcls v) then vcls y else vcls v)
                (Raw (sym_mul (expr v) (expr y))) a) as [r Hr].
    { by apply allowed_mul. }
    exists r. split; [exact Hr|].
    split; [by apply construct_vcls in Hr|by apply construct_expr in Hr].
  - destruct (compat_mul_same_domain D v y "/" HD Hv Hy Hwv Hwy)
      as (v' & y' & a & Hcm & Hev & Hey & Hav & Hay).
    unfold __truediv__. rewrite Hcm. simpl. rewrite Hev, Hey.
    destruct (construct_is_OK (if isinstance y (vcls v) then vcls y else vcls v)
                (Raw (sym_div (expr v) (expr y))) a) as [r Hr].
    { by apply allowed_div. }
    exists r. split; [exact Hr|].
    split; [by apply construct_vcls in Hr|by apply construct_expr in Hr].
Qed.

(** In the Fourier domain the two classes must be related. *)
Lemma compat_mul_f_unrelated c xc e a l f0 e' a' l' f' op :
  issubclass c fExpr = true → issubclass xc fExpr = true →
  issubclass xc c || issubclass c xc = false →
  __compat_mul__ (mkValue c e a l f0) (Obj (mkValue xc e' a' l' f')) op
  = Raise (Incompatible c xc op).
Proof.
  intros H1 H2 H3.
  destruct c; vm_compute in H1; try discriminate H1;
    destruct xc; vm_compute in H2; try discriminate H2;
    vm_compute in H3; try discriminate H3; reflexivity.
Qed.

Lemma compat_mul_f_related v y op :
  isinstance v fExpr = true → isinstance y fExpr = true →
  isinstance y (vcls v) || isinstance v (vcls y) = true →
  well_formed v → well_formed y →
  ∃ v' y' a,
    __compat_mul__ v (Obj y) op
    = OK (if isinstance y (vcls v) then vcls y else vcls v, v', y', a)
    ∧ expr v' = expr v ∧ expr y' = expr y
    ∧ allowed (if isinstance y (vcls v) then vcls y else vcls v) (expr v)
    ∧ allowed (if isinstance y (vcls v) then vcls y else vcls v) (expr y).
Proof.
  intros Hv Hy Hrel Hwv Hwy.
  destruct v as [cv ev av lv fv], y as [cy ey ay ly fy].
  unfold well_formed, isinstance in *. simpl in *.
  destruct cv; vm_compute in Hv; try discriminate Hv;
    destruct cy; vm_compute in Hy; try discriminate Hy;
    vm_compute in Hrel; try discriminate Hrel.
  all: unfold __compat_mul__, Expr_compat_mul, isinstance; simpl;
         compute_classes; simpl.
  all: try match goal with
       | |- context [construct ?c ?x ?kw] =>
           let r := fresh "r" in
           let Hr := fresh "Hr" in
           destruct (construct_is_OK c x kw) as [r Hr];
           [ simpl; eapply allowed_incl; [|eassumption];
             let z := fresh in let Hz := fresh in
             intros z Hz; forbidden_cases Hz; forbidden_in
           | rewrite Hr; pose proof (construct_expr _ _ _ _ Hr); simpl in * ]
       end.
  all: do 3 eexists; split; [reflexivity|];
         split; [simpl; congruence|]; split; [simpl; congruence|];
         split; (eapply allowed_incl; [|eassumption];
                 let z := fresh in let Hz := fresh in
                 intros z Hz; forbidden_cases Hz; forbidden_in).
Qed.

(** X13: in the Fourier domain two instances can be multiplied or divided
    only when the class of one derives from the class of the other (the
    same class, or one of them plain [fExpr]): then the result has the
    more derived class; two different typed classes, such as a voltage and
    an admittance, raise the incompatibility error. *)
Theorem X13_fourier_product `{!EngineClosed E} v y :
  isinstance v fExpr = true → isinstance y fExpr = true →
  well_formed v → well_formed y →
  if isinstance y (vcls v) || isinstance v (vcls y)
  then (∃ r, __mul__ v (Obj y) = OK r
             ∧ vcls r = (if isinstance y (vcls v) then vcls y else vcls v)
             ∧ expr r = sym_mul (expr v) (expr y))
       ∧ (∃ r, __truediv__ v (Obj y) = OK r
               ∧ vcls r = (if isinstance y (vcls v) then vcls y else vcls v)
               ∧ expr r = sym_div (expr v) (expr y))
  else __mul__ v (Obj y) = Raise (Incompatible (vcls v) (vcls y) "*")
       ∧ __truediv__ v (Obj y) = Raise (Incompatible (vcls v) (vcls y) "/").
Proof.
  intros Hv Hy Hwv Hwy.
  destruct (isinstance y (vcls v) || isinstance v (vcls y)) eqn:Hrel.
  - split.
    + destruct (compat_mul_f_related v y "*" Hv Hy Hrel Hwv Hwy)
        as (v' & y' & a & Hcm & Hev & Hey & Hav & Hay).
      unfold __mul__. rewrite Hcm. simpl. rewrite Hev, Hey.
      destruct (construct_is_OK (if isinstance y (vcls v) then vcls y else vcls v)
                  (Raw (sym_mul (expr v) (expr y))) a) as [r Hr].
      { by apply allowed_mul. }
      exists r. split; [exact Hr|].
      split; [by apply construct_vcls in Hr|by apply construct_expr in Hr].
    + destruct (compat_mul_f_related v y "/" Hv Hy Hrel Hwv Hwy)
        as (v' & y' & a & Hcm & Hev & Hey & Hav & Hay).
      unfold __truediv__. rewrite Hcm. simpl. rewrite Hev, Hey.
      destruct (construct_is_OK (if isinstance y (vcls v) then vcls y else vcls v)
                  (Raw (sym_div (expr v) (expr y))) a) as [r Hr].
      { by apply allowed_div. }
      exists r. split; [exact Hr|].
      split; [by apply construct_vcls in Hr|by apply construct_expr in Hr].
  - destruct v as [c e a l f0], y as [xc e' a' l' f'].
    unfold isinstance in *. simpl in *.
    unfold __mul__, __truediv__.
    by rewrite !compat_mul_f_unrelated.
Qed.

Lemma issubclass_Expr c : issubclass c Expr = true.
Proof. by destruct c. Qed.

Lemma issubclass_refl c : issubclass c c = true.
Proof. by destruct c. Qed.

(** A class rejects at least the variables its ancestors reject. *)
Lemma forbidden_mono c d z :
  issubclass d c = true → z ∈ forbidden c → z ∈ forbidden d.
Proof.
  intros H Hz.
  destruct c; try (by apply elem_of_nil in Hz);
    destruct d; vm_compute in H; try discriminate H; exact Hz.
Qed.

(** The verdict of [Expr.__compat_add__] on two instances: the classes
    must be related by inheritance, or one of them must be plain [cExpr];
    the class of the result is then the more derived one (the other one
    for [cExpr]). *)
Lemma compat_add_classes v y op :
  isinstance v Phasor = false → well_formed v → well_formed y →
  if isinstance v (vcls y) || isinstance y (vcls v)
     || bool_decide (vcls y = cExpr) || bool_decide (vcls v = cExpr)
  then ∃ v' y',
         __compat_add__ v (Obj y) op
         = OK (if isinstance v (vcls y) then vcls v
               else if isinstance y (vcls v) then vcls y
               else if bool_decide (vcls y = cExpr) then vcls v else vcls y,
               v', y',
               if isinstance v sExpr && isinstance y sExpr
                  && bool_decide (assumptions v = assumptions y)
               then assumptions v else ∅)
         ∧ expr v' = expr v ∧ expr y' = expr y
  else __compat_add__ v (Obj y) op = Raise (Incompatible (vcls v) (vcls y) op).
Proof.
  intros Hph Hwv Hwy. unfold __compat_add__. rewrite Hph.
  unfold Expr_compat_add.
  assert ((if isinstance v sExpr && isinstance y sExpr
           then if decide (assumptions v = assumptions y) then assumptions v else ∅
           else ∅)
          = (if isinstance v sExpr && isinstance y sExpr
                && bool_decide (assumptions v = assumptions y)
             then assumptions v else ∅)) as ->.
  { destruct (isinstance v sExpr && isinstance y sExpr); [|done]. simpl.
    destruct (decide (assumptions v = assumptions y)).
    - by rewrite bool_decide_eq_true_2.
    - by rewrite bool_decide_eq_false_2. }
  destruct (decide (vcls v = vcls y)) as [Heq|Hne].
  { unfold isinstance. rewrite <- Heq, issubclass_refl. simpl. by eexists _, _. }
  destruct (isinstance v (vcls y)) eqn:Hvy; simpl; [by eexists _, _|].
  destruct (isinstance y (vcls v)) eqn:Hyv; simpl.
  { destruct (construct_is_OK (vcls v) (Obj y) ∅) as [y' Hy'].
    { intros z Hz. apply Hwy. by eapply forbidden_mono. }
    rewrite Hy'. simpl. eexists _, _. split; [reflexivity|].
    split; [done|by apply construct_expr in Hy']. }
  assert (vcls y ≠ Expr) as HyE.
  { intros HE. unfold isinstance in Hvy. by rewrite HE, issubclass_Expr in Hvy. }
  assert (vcls v ≠ Expr) as HvE.
  { intros HE. unfold isinstance in Hyv. by rewrite HE, issubclass_Expr in Hyv. }
  destruct (decide (vcls y = cExpr)) as [Hyc|Hyc].
  { rewrite (bool_decide_eq_true_2 (vcls y ∈ [Expr; cExpr]))
      by (rewrite Hyc; apply list_elem_of_In; simpl; tauto).
    rewrite (bool_decide_eq_true_2 (vcls y = cExpr)) by done. simpl.
    by eexists _, _. }
  rewrite (bool_decide_eq_false_2 (vcls y ∈ [Expr; cExpr])).
  2:{ intros Hin%list_elem_of_In. simpl in Hin. intuition congruence. }
  rewrite (bool_decide_eq_false_2 (vcls y = cExpr)) by done. simpl.
  destruct (decide (vcls v = cExpr)) as [Hvc|Hvc].
  { rewrite (bool_decide_eq_true_2 (vcls v ∈ [Expr; cExpr]))
      by (rewrite Hvc; apply list_elem_of_In; simpl; tauto).
    rewrite (bool_decide_eq_true_2 (vcls v = cExpr)) by done.
    destruct (construct_is_OK (vcls v) (Obj v) ∅ Hwv) as [v' Hv'].
    rewrite Hv'. simpl. eexists _, _. split; [reflexivity|].
    split; [by apply construct_expr in Hv'|done]. }
  rewrite (bool_decide_eq_false_2 (vcls v ∈ [Expr; cExpr])).
  2:{ intros Hin%list_elem_of_In. simpl in Hin. intuition congruence. }
  by rewrite (bool_decide_eq_false_2 (vcls v = cExpr)) by done.
Qed.

(** X14: the sum and the difference of an instance that is not a phasor
    and another instance exist only when their classes are related by
    inheritance or one of them is plain [cExpr]; otherwise the operation
    raises the incompatibility error (a voltage and a current, an
    s-domain class and a typed constant, ...).  When the classes are
    related the result is built in the more derived class (for plain
    [cExpr], in the class of the other operand) from the sum (difference)
    of the payloads, and it is returned whenever both payloads are
    acceptable to that class. *)
Theorem X14_sum_class `{!EngineClosed E} v y :
  isinstance v Phasor = false → well_formed v → well_formed y →
  let c := if isinstance v (vcls y) then vcls v
           else if isinstance y (vcls v) then vcls y
           else if bool_decide (vcls y = cExpr) then vcls v else vcls y in
  let a := if isinstance v sExpr && isinstance y sExpr
              && bool_decide (assumptions v = assumptions y)
           then assumptions v else ∅ in
  if isinstance v (vcls y) || isinstance y (vcls v)
     || bool_decide (vcls y = cExpr) || bool_decide (vcls v = cExpr)
  then __add__ v (Obj y) = construct c (Raw (sym_add (expr v) (expr y))) a
       ∧ __sub__ v (Obj y) = construct c (Raw (sym_sub (expr v) (expr y))) a
       ∧ (allowed c (expr v) → allowed c (expr y) →
          ∃ r1 r2, __add__ v (Obj y) = OK r1 ∧ vcls r1 = c
                   ∧ expr r1 = sym_add (expr v) (expr y)
                   ∧ __sub__ v (Obj y) = OK r2 ∧ vcls r2 = c
                   ∧ expr r2 = sym_sub (expr v) (expr y))
  else __add__ v (Obj y) = Raise (Incompatible (vcls v) (vcls y) "+")
       ∧ __sub__ v (Obj y) = Raise (Incompatible (vcls v) (vcls y) "-").
Proof.
  intros Hph Hwv Hwy c a.
  pose proof (compat_add_classes v y "+" Hph Hwv Hwy) as Hadd.
  pose proof (compat_add_classes v y "-" Hph Hwv Hwy) as Hsub.
  fold c a in Hadd, Hsub.
  destruct (isinstance v (vcls y) || isinstance y (vcls v)
            || bool_decide (vcls y = cExpr) || bool_decide (vcls v = cExpr)).
  - destruct Hadd as (v1 & y1 & Hc1 & Hv1 & Hy1).
    destruct Hsub as (v2 & y2 & Hc2 & Hv2 & Hy2).
    assert (__add__ v (Obj y) = construct c (Raw (sym_add (expr v) (expr y))) a) as Ha.
    { unfold __add__. rewrite Hc1. simpl. by rewrite Hv1, Hy1. }
    assert (__sub__ v (Obj y) = construct c (Raw (sym_sub (expr v) (expr y))) a) as Hs.
    { unfold __sub__. rewrite Hc2. simpl. by rewrite Hv2, Hy2. }
    split; [exact Ha|]. split; [exact Hs|].
    intros Hav Hay. rewrite Ha, Hs.
    destruct (construct_is_OK c (Raw (sym_add (expr v) (expr y))) a) as [r1 Hr1].
    { by apply allowed_add. }
    destruct (construct_is_OK c (Raw (sym_sub (expr v) (expr y))) a) as [r2 Hr2].
    { by apply allowed_sub. }
    exists r1, r2.
    split; [exact Hr1|]. split; [by apply construct_vcls in Hr1|].
    split; [by apply construct_expr in Hr1|].
    split; [exact Hr2|]. split; [by apply construct_vcls in Hr2|].
    by apply construct_expr in Hr2.
  - unfold __add__, __sub__. by rewrite Hadd, Hsub.
Qed.

(** X15: comparing an instance that is not a phasor with another instance
    compares the payloads only, whatever the assumptions of the two; when
    the classes are unrelated (neither derives from the other and neither
    is plain [cExpr]) the comparison raises the incompatibility error
    instead of answering [False]. *)
Theorem X15_equality_compares_payloads v y :
  isinstance v Phasor = false → well_formed v → well_formed y →
  let c := if isinstance v (vcls y) then vcls v
           else if isinstance y (vcls v) then vcls y
           else if bool_decide (vcls y = cExpr) then vcls v else vcls y in
  if isinstance v (vcls y) || isinstance y (vcls v)
     || bool_decide (vcls y = cExpr) || bool_decide (vcls v = cExpr)
  then allowed c (expr y) →
       __eq__ v (Obj y) = OK (bool_decide (expr v = expr y))
       ∧ __ne__ v (Obj y) = OK (negb (bool_decide (expr v = expr y)))
  else __eq__ v (Obj y) = Raise (Incompatible (vcls v) (vcls y) "==")
       ∧ __ne__ v (Obj y) = Raise (Incompatible (vcls v) (vcls y) "!=").
Proof.
  intros Hph Hwv Hwy c.
  pose proof (compat_add_classes v y "==" Hph Hwv Hwy) as Heq.
  pose proof (compat_add_classes v y "!=" Hph Hwv Hwy) as Hne.
  fold c in Heq, Hne.
  destruct (isinstance v (vcls y) || isinstance y (vcls v)
            || bool_decide (vcls y = cExpr) || bool_decide (vcls v = cExpr)).
  - intros Hay.
    destruct Heq as (v1 & y1 & Hc1 & Hv1 & Hy1).
    destruct Hne as (v2 & y2 & Hc2 & Hv2 & Hy2).
    unfold __eq__, __ne__. rewrite Hc1, Hc2. simpl.
    destruct (construct_is_OK c (Obj y1) ∅) as [z1 Hz1].
    { simpl. by rewrite Hy1. }
    destruct (construct_is_OK c (Obj y2) ∅) as [z2 Hz2].
    { simpl. by rewrite Hy2. }
    rewrite Hz1, Hz2. simpl.
    rewrite (construct_expr _ _ _ _ Hz1), (construct_expr _ _ _ _ Hz2). simpl.
    by rewrite Hv1, Hv2, Hy1, Hy2.
  - unfold __eq__, __ne__. by rewrite Heq, Hne.
Qed.

(** X16: comparing a phasor with an instance that is not a phasor
    raises the incompatible-arguments error.  Comparing it with a phasor
    that stores the same ['omega'] entry, or with none when it has none,
    compares the payloads, whatever the two classes (a voltage phasor is
    equal to a current phasor with the same payload).  When the two store
    different frequencies, or exactly one of them stores [None], the
    comparison raises the frequency mismatch instead of answering
    [False]. *)
Theorem X16_phasor_equality v y :
  isinstance v Phasor = true →
  if negb (isinstance y Phasor)
  then __eq__ v (Obj y)
       = Raise (IncompatibleArguments (Some (vcls v)) (Some (vcls y)) "==")
  else (assumptions v !! "omega" = assumptions y !! "omega" →
        __eq__ v (Obj y) = OK (bool_decide (expr v = expr y)))
       ∧ (∀ w1 w2, assumptions v !! "omega" = Some (AVal w1) →
                   assumptions y !! "omega" = Some (AVal w2) → w1 ≠ w2 →
                   __eq__ v (Obj y) = Raise (OmegaMismatch (vcls v) (vcls y)))
       ∧ ((assumptions v !! "omega" = Some ANone
           ∧ assumptions y !! "omega" ≠ Some ANone)
          ∨ (assumptions y !! "omega" = Some ANone
             ∧ assumptions v !! "omega" ≠ Some ANone) →
          __eq__ v (Obj y) = Raise (OmegaMismatch (vcls v) (vcls y))).
Proof.
  intros Hph. unfold __eq__, __compat_add__. rewrite Hph.
  unfold Phasor_compat_add.
  destruct (isinstance y Phasor); simpl; [|done].
  split; [|split].
  - intros Heq. rewrite (omega_ne_same v y Heq). simpl.
    destruct (construct_is_OK (vcls v) (Obj y) ∅) as [z Hz].
    { by apply allowed_Phasor. }
    rewrite Hz. simpl. by rewrite (construct_expr _ _ _ _ Hz).
  - intros w1 w2 H1 H2 Hne. rewrite (omega_ne_values v y w1 w2 H1 H2).
    by rewrite bool_decide_eq_false_2.
  - intros Hnone. by rewrite (omega_ne_None v y Hnone).
Qed.

(** A zero built in any class, with any keywords, is causal. *)
Lemma construct_Zero_causal `{!EngineClosed E} c kw :
  ∃ r, construct c (Raw Zero) kw = OK r ∧ vcls r = c ∧ expr r = Zero
       ∧ (is_causal r).1 = true.
Proof.
  destruct (construct_is_OK c (Raw Zero) kw) as [r Hr]; [apply allowed_Int|].
  exists r. split; [exact Hr|].
  split; [by apply construct_vcls in Hr|].
  split; [by apply construct_expr in Hr|].
  unfold is_causal, assumption_property.
  assert (assumptions r !! "causal" = Some (ABool true)) as Hl.
  { rewrite (construct_assumptions _ _ _ _ Hr). by apply Expr_assumptions_zero. }
  rewrite Hl. simpl. by rewrite bool_decide_eq_true_2.
Qed.

(** X17: [select] never raises.  For a key that is stored it returns the
    stored component; for a key that is not stored it returns a causal
    zero of the class of that kind: the s-domain class for ['s'], the
    constant class for ['dc'], the noise class for ['n'], and the phasor
    class for every other key (['ac'], any other string, any angular
    frequency). *)
Theorem X17_select_total `{!EngineClosed E} sc (D : super) k :
  match getitem k D with
  | Some v => select sc D k = OK v
  | None =>
      ∃ r, select sc D k = OK r ∧ expr r = Zero ∧ (is_causal r).1 = true
           ∧ vcls r =
               if decide (k = KStr "s") then match sc with Vsuper => Vs | Isuper => Is end
               else if decide (k = KStr "dc")
                    then match sc with Vsuper => Vconst | Isuper => Iconst end
               else if decide (k = KStr "n") then match sc with Vsuper => Vn | Isuper => In end
               else match sc with Vsuper => Vphasor | Isuper => Iphasor end
  end.
Proof.
  unfold select. destruct (getitem k D) as [v|]; [done|].
  assert (∀ c c', c = c' →
            ∃ r, construct c (Raw Zero) ∅ = OK r ∧ expr r = Zero
                 ∧ (is_causal r).1 = true ∧ vcls r = c') as Hbuild.
  { intros c c' <-. destruct (construct_Zero_causal c ∅) as (r & ? & ? & ? & ?).
    by exists r. }
  destruct k as [name|w].
  - unfold transform_domain.
    destruct (decide (name = "s")) as [->|Hs].
    { destruct sc; simpl; by apply Hbuild. }
    rewrite (decide_False (P := KStr name = KStr "s")) by congruence.
    destruct (decide (name = "dc")) as [->|Hd].
    { destruct sc; simpl; by apply Hbuild. }
    rewrite (decide_False (P := KStr name = KStr "dc")) by congruence.
    destruct (decide (name = "n")) as [->|Hn].
    { destruct sc; simpl; by apply Hbuild. }
    rewrite (decide_False (P := KStr name = KStr "n")) by congruence.
    destruct (decide (name = "ac")) as [->|Hac].
    { destruct sc; simpl; by apply Hbuild. }
    assert (filter (λ km : string * cls, bool_decide (km.1 = name))
              (transform_domains sc) = []) as ->.
    { destruct sc; cbn [transform_domains];
        repeat (rewrite filter_cons_False;
                [|cbn [fst]; intros Hb%bool_decide_unpack; congruence]);
        apply filter_nil. }
    destruct sc; simpl; by apply Hbuild.
  - rewrite !(decide_False (P := KSym w = KStr _)) by discriminate.
    destruct sc; simpl; by apply Hbuild.
Qed.

(** X19: a superposition has no place for a nonzero instance of class
    [Expr] or [sfwExpr], or of a Fourier-domain class: [add] raises the
    cannot-handle error for it, and so it does for a string that names
    [f] but neither [s] nor [omega] nor [t]. *)
Theorem X19_add_cannot_handle `{!EngineClosed E} depth sc (D : super) :
  (∀ v, expr v ≠ Zero →
        vcls v ∈ [Expr; sfwExpr] ∨ isinstance v fExpr = true →
        add (Datatypes.S depth) sc D (PExpr v) = Raise (CannotHandle (Some (vcls v))))
  ∧ (∀ e, e ≠ Zero → has ssym e = false → has omegasym e = false →
          has tsym e = false → has fsym e = true →
          add (Datatypes.S (Datatypes.S depth)) sc D (PStr e)
          = Raise (CannotHandle (Some fExpr))).
Proof.
  assert (∀ d v, expr v ≠ Zero →
            vcls v ∈ [Expr; sfwExpr] ∨ isinstance v fExpr = true →
            add (Datatypes.S d) sc D (PExpr v) = Raise (CannotHandle (Some (vcls v))))
    as Hexpr.
  { intros d v Hnz Hc.
    assert (bool_decide (vcls v ∈ [Expr; sfwExpr]) || isinstance v fExpr = true) as Hb.
    { destruct Hc as [Hc| ->]; [|apply orb_true_r].
      by rewrite bool_decide_eq_true_2. }
    rewrite add_nonzero; [|done|].
    2:{ unfold isinstance in *. destruct (vcls v); vm_compute in Hb; done. }
    destruct v as [c e a l f0]. unfold isinstance in Hb. simpl in *.
    destruct sc; destruct c; vm_compute in Hb; try discriminate Hb; reflexivity. }
  split; [apply Hexpr|].
  intros e Hnz Hs Ho Ht Hf.
  rewrite add_unfold. simpl. unfold _parse. rewrite Hs, Ho, Hf.
  destruct (construct_is_OK fExpr (Raw e) ∅) as [v Hv].
  { intros z Hz. forbidden_cases Hz; done. }
  rewrite Hv. simpl.
  pose proof (construct_vcls _ _ _ _ Hv) as Hc.
  pose proof (construct_expr _ _ _ _ Hv) as He. simpl in He.
  rewrite Hexpr; [by rewrite Hc|by rewrite He|].
  right. unfold isinstance. by rewrite Hc.
Qed.

(** The key and the class [Super.add] gives an instance of the Laplace,
    constant or omega domain before it combines it with the stored
    component. *)
Lemma classify_by_domain sc v :
  well_formed v →
  domain_of (vcls v) ∈ [Dlaplace; Dconstant; Dangular] →
  ∃ v', classify sc v
        = OK (Some (match domain_of (vcls v) with
                    | Dlaplace => KStr "s"
                    | Dconstant => KStr "dc"
                    | _ => KSym (Sym omegasym)
                    end), v')
        ∧ expr v' = expr v
        ∧ vcls v' = match domain_of (vcls v), sc with
                    | Dlaplace, Vsuper => Vs | Dlaplace, Isuper => Is
                    | Dconstant, Vsuper => Vconst | Dconstant, Isuper => Iconst
                    | _, Vsuper => Vphasor | _, Isuper => Iphasor
                    end.
Proof.
  intros Hwf Hd.
  assert (bool_decide (domain_of (vcls v) ∈ [Dlaplace; Dconstant; Dangular]) = true)
    as Hb by (by apply bool_decide_eq_true_2).
  clear Hd.
  destruct v as [c e a l f0]. unfold well_formed in Hwf. simpl in *.
  destruct sc; destruct c; vm_compute in Hb; try discriminate Hb; clear Hb.
  all: unfold classify, _kind, retype, isinstance; simpl; compute_classes; simpl.
  all: try (eexists; split; [reflexivity|]; split; reflexivity).
  all: try match goal with
       | |- context [construct ?c ?x ?kw] =>
           let r := fresh "r" in
           let Hr := fresh "Hr" in
           destruct (construct_is_OK c x kw) as [r Hr];
           [ simpl; eapply allowed_incl; [|eassumption];
             let z := fresh in let Hz := fresh in
             intros z Hz; forbidden_cases Hz; forbidden_in
           | rewrite Hr;
             pose proof (construct_expr _ _ _ _ Hr) as Hre;
             pose proof (construct_vcls _ _ _ _ Hr) as Hrc;
             simpl in Hre; simpl; rewrite Hrc; compute_classes; simpl;
             exists r; done ]
       end.
  all: unfold omega_key, set_laplace; cbn [assumptions vcls expr].
  all: rewrite Expr_assumptions_lookup.
  all: rewrite decide_False by (intros [? _]; done).
  all: cbn [assumptions].
  all: rewrite decide_False by apply insert_non_empty.
  all: rewrite lookup_insert_ne by done; rewrite lookup_empty.
  all: eexists; split; [reflexivity|]; split; reflexivity.
Qed.

(** X20: what [add] stores for a nonzero instance of the Laplace,
    constant or omega domain.  The key is given by the domain of its
    class alone: ['s'] for the Laplace domain, ['dc'] for a constant, the
    default angular frequency [omega] for an omega-domain instance.  The
    instance is first converted to the class of the container for that
    domain, with the same payload, whatever its own quantity: a current
    handed to a voltage superposition becomes a voltage.  The converted
    instance is stored as a new last entry when the key is free, and
    added to the stored component otherwise. *)
Theorem X20_add_files_by_domain `{!EngineClosed E} depth sc (D : super) v :
  well_formed v → expr v ≠ Zero →
  domain_of (vcls v) ∈ [Dlaplace; Dconstant; Dangular] →
  let k := match domain_of (vcls v) with
           | Dlaplace => KStr "s"
           | Dconstant => KStr "dc"
           | _ => KSym (Sym omegasym)
           end in
  ∃ v', expr v' = expr v
        ∧ vcls v' = match domain_of (vcls v), sc with
                    | Dlaplace, Vsuper => Vs | Dlaplace, Isuper => Is
                    | Dconstant, Vsuper => Vconst | Dconstant, Isuper => Iconst
                    | _, Vsuper => Vphasor | _, Isuper => Iphasor
                    end
        ∧ add (Datatypes.S depth) sc D (PExpr v)
          = match getitem k D with
            | None => OK (D ++ [(k, v')])
            | Some old => r ← __add__ old (Obj v'); OK (setitem k r D)
            end.
Proof.
  intros Hwf Hnz Hd k.
  destruct (classify_by_domain sc v Hwf Hd) as (v' & Hcl & He & Hc).
  fold k in Hcl.
  exists v'. split; [exact He|]. split; [exact Hc|].
  assert (isinstance v tExpr = false) as Ht.
  { assert (bool_decide (domain_of (vcls v) ∈ [Dlaplace; Dconstant; Dangular]) = true)
      as Hb by (by apply bool_decide_eq_true_2).
    unfold isinstance. destruct (vcls v); vm_compute in Hb; done. }
  assert (k ≠ KStr "n") as Hk.
  { subst k. destruct (domain_of (vcls v)); discriminate. }
  rewrite add_nonzero by done.
  unfold add_kind. rewrite Hcl. cbn [mbind result_bind].
  rewrite decide_False by done.
  destruct (getitem k D) eqn:Hg; [done|].
  by rewrite setitem_fresh.
Qed.

(** X18: a nonzero number handed to [add] is filed under ['dc'] as an
    instance of the constant class of the container: it becomes a new
    last entry when there is no dc component yet, and is added to the
    stored dc component otherwise, whose class is kept. *)
Theorem X18_add_number `{!EngineClosed E} depth sc (D : super) e :
  e ≠ Zero → allowed cExpr e →
  let c := match sc with Vsuper => Vconst | Isuper => Iconst end in
  ∃ v, construct c (Raw e) ∅ = OK v ∧ vcls v = c ∧ expr v = e
       ∧ (getitem (KStr "dc") D = None →
          add (Datatypes.S (Datatypes.S depth)) sc D (PNum e)
          = OK (D ++ [(KStr "dc", v)]))
       ∧ (∀ old, getitem (KStr "dc") D = Some old → vcls old = c → well_formed old →
            ∃ r, add (Datatypes.S (Datatypes.S depth)) sc D (PNum e)
                 = OK (setitem (KStr "dc") r D)
                 ∧ vcls r = c ∧ expr r = sym_add (expr old) e).
Proof.
  intros Hnz He c.
  assert (allowed c e) as Hce.
  { eapply allowed_incl; [|exact He]. intros z Hz. subst c.
    destruct sc; forbidden_cases Hz; forbidden_in. }
  destruct (construct_is_OK c (Raw e) ∅ Hce) as [v Hv].
  pose proof (construct_vcls _ _ _ _ Hv) as Hvc.
  pose proof (construct_expr _ _ _ _ Hv) as Hve. simpl in Hve.
  exists v. split; [exact Hv|]. split; [exact Hvc|]. split; [exact Hve|].
  assert (add (Datatypes.S (Datatypes.S depth)) sc D (PNum e)
          = match getitem (KStr "dc") D with
            | None => OK (setitem (KStr "dc") v D)
            | Some old => r ← __add__ old (Obj v); OK (setitem (KStr "dc") r D)
            end) as Hadd.
  { rewrite add_unfold. cbn [eq_zero]. rewrite bool_decide_eq_false_2 by done.
    cbn [mbind result_bind].
    assert (filter (λ km : string * cls, bool_decide (km.1 = "dc")) (transform_domains sc)
            = [("dc", c)]) as -> by (subst c; by destruct sc).
    rewrite Hv. cbn [mbind result_bind].
    rewrite add_nonzero; [|by rewrite Hve|].
    2:{ unfold isinstance. rewrite Hvc. subst c. by destruct sc. }
    unfold add_kind, classify, _kind, isinstance. rewrite Hvc. subst c.
    destruct sc; compute_classes; simpl; reflexivity. }
  split.
  - intros Hnone. rewrite Hadd, Hnone. by rewrite setitem_fresh.
  - intros old Hold Hoc Hwo. rewrite Hadd, Hold.
    assert (∃ r, __add__ old (Obj v) = OK r ∧ vcls r = c
                 ∧ expr r = sym_add (expr old) e) as (r & Hr & Hrc & Hre).
    { unfold __add__, __compat_add__, Expr_compat_add, isinstance.
      rewrite Hoc, Hvc.
      assert (issubclass c Phasor = false ∧ issubclass c sExpr = false) as [-> ->]
        by (subst c; by destruct sc).
      rewrite decide_True by done. simpl. rewrite Hve.
      destruct (construct_is_OK c (Raw (sym_add (expr old) e)) ∅) as [r Hr].
      { apply allowed_add; [|done]. unfold well_formed in Hwo. by rewrite Hoc in Hwo. }
      exists r. split; [exact Hr|].
      split; [by apply construct_vcls in Hr|by apply construct_expr in Hr]. }
    exists r. rewrite Hr. done.
Qed.

Lemma getitem_None k (D : super) : getitem k D = None ↔ k ∉ keys D.
Proof.
  unfold keys. induction D as [|[k' v'] D IH]; simpl.
  - split; [intros _; apply not_elem_of_nil|done].
  - rewrite not_elem_of_cons. destruct (decide (k = k')) as [->|Hne].
    + split; [discriminate|intros [? _]; done].
    + rewrite IH. tauto.
Qed.

Lemma getitem_elem_of k v (D : super) : getitem k D = Some v → (k, v) ∈ D.
Proof.
  induction D as [|[k' v'] D IH]; simpl; [discriminate|].
  destruct (decide (k = k')) as [->|Hne].
  - intros [= ->]. apply elem_of_cons. by left.
  - intros H. apply elem_of_cons. right. by apply IH.
Qed.

(** The loops of [Super.__neg__] and [Super.__scale__]: a new dictionary
    is filled with a converted copy of every entry, under the same key. *)
Lemma rebuild_items (g : kind * value → result value)
    (P : kind → value → value → Prop) (D : super) :
  NoDup (keys D) →
  (∀ k v, (k, v) ∈ D → ∃ v', g (k, v) = OK v' ∧ P k v v') →
  ∃ D', foldl (λ acc kv, new ← acc; v ← g kv; OK (setitem kv.1 v new)) (OK []) D = OK D'
        ∧ keys D' = keys D
        ∧ ∀ k v, getitem k D = Some v → ∃ v', getitem k D' = Some v' ∧ P k v v'.
Proof.
  induction D as [|[k0 v0] D IH] using rev_ind; intros Hnd Hg.
  - exists []. by repeat split.
  - unfold keys in Hnd. rewrite fmap_app in Hnd. simpl in Hnd.
    apply NoDup_app in Hnd as (Hnd & Hnotin & _).
    assert (k0 ∉ keys D) as Hk0.
    { intros Hin. apply (Hnotin k0 Hin). apply elem_of_cons. by left. }
    destruct IH as (D' & HD' & Hkeys & Hget); [exact Hnd| |].
    { intros k v Hin. apply Hg. apply elem_of_app. by left. }
    destruct (Hg k0 v0) as (v0' & Hv0 & HP).
    { apply elem_of_app. right. apply elem_of_cons. by left. }
    assert (getitem k0 D' = None) as HnoneD' by (apply getitem_None; by rewrite Hkeys).
    assert (getitem k0 D = None) as HnoneD by (by apply getitem_None).
    exists (D' ++ [(k0, v0')]). split; [|split].
    + rewrite foldl_app. simpl. rewrite HD'. simpl. rewrite Hv0. simpl.
      by rewrite setitem_fresh.
    + unfold keys in *. rewrite !fmap_app. simpl. by rewrite Hkeys.
    + intros k v Hkv. destruct (decide (k0 = k)) as [<-|Hne].
      * rewrite getitem_app_fresh in Hkv by done. injection Hkv as <-.
        exists v0'. split; [by apply getitem_app_fresh|done].
      * rewrite getitem_app_ne in Hkv by done.
        destruct (Hget k v Hkv) as (v' & Hv' & HP').
        exists v'. split; [by rewrite getitem_app_ne|done].
Qed.

(** A number can multiply every well-formed instance. *)
Lemma mul_number `{!EngineClosed E} v x :
  well_formed v → (∀ z, has z x = false) →
  ∃ r, __mul__ v (Raw x) = OK r ∧ vcls r = vcls v ∧ expr r = sym_mul (expr v) x.
Proof.
  intros Hwf Hx.
  assert (∀ c, allowed c x) as Hax by (intros c z _; apply Hx).
  unfold __mul__, __compat_mul__.
  destruct (isinstance v Phasor) eqn:Hph.
  - unfold Phasor_compat_mul.
    destruct (construct_is_OK (vcls v) (Raw x) ∅ (Hax _)) as [x' Hx']. rewrite Hx'.
    simpl. rewrite (construct_expr _ _ _ _ Hx'). simpl.
    destruct (phasor_result v (sym_mul (expr v) x) Hph) as (r & Hr & ? & ? & _).
    by exists r.
  - unfold Expr_compat_mul.
    destruct (construct_is_OK (vcls v) (Raw x) ∅ (Hax _)) as [x' Hx']. rewrite Hx'.
    simpl. rewrite (construct_expr _ _ _ _ Hx'). simpl.
    destruct (construct_is_OK (vcls v) (Raw (sym_mul (expr v) x)) ∅) as [r Hr].
    { by apply allowed_mul. }
    exists r. split; [exact Hr|].
    split; [by apply construct_vcls in Hr|by apply construct_expr in Hr].
Qed.

(** X21: scaling a superposition of well-formed components by a number
    always returns a superposition with the same keys in the same order,
    in which every component, the noise component included, has its
    class and its payload multiplied by the number. *)
Theorem X21_scale_keeps_keys `{!EngineClosed E} (D : super) x :
  NoDup (keys D) →
  (∀ k v, (k, v) ∈ D → well_formed v) →
  (∀ z, has z x = false) →
  ∃ D', Super_scale D x = OK D'
        ∧ keys D' = keys D
        ∧ ∀ k v, getitem k D = Some v →
            ∃ v', getitem k D' = Some v' ∧ vcls v' = vcls v
                  ∧ expr v' = sym_mul (expr v) x.
Proof.
  intros Hnd Hwf Hx. unfold Super_scale.
  apply (rebuild_items (λ kv, __mul__ kv.2 (Raw x))
           (λ _ v v', vcls v' = vcls v ∧ expr v' = sym_mul (expr v) x) D Hnd).
  intros k v Hin. simpl. apply mul_number; [by eapply Hwf|done].
Qed.

(** X22: negating a superposition of well-formed components, over an
    engine whose negation introduces no domain variable, returns a
    superposition with the same keys in the same order; the noise
    component is the stored one, unchanged, and every other component
    keeps its class and has its payload negated. *)
Theorem X22_negation_spares_noise (D : super) :
  (∀ z e, has z (sym_neg e) = true → has z e = true) →
  NoDup (keys D) →
  (∀ k v, (k, v) ∈ D → well_formed v) →
  ∃ D', Super_neg D = OK D'
        ∧ keys D' = keys D
        ∧ getitem (KStr "n") D' = getitem (KStr "n") D
        ∧ ∀ k v, k ≠ KStr "n" → getitem k D = Some v →
            ∃ v', getitem k D' = Some v' ∧ vcls v' = vcls v
                  ∧ expr v' = sym_neg (expr v).
Proof.
  intros Hneg Hnd Hwf. unfold Super_neg.
  destruct (rebuild_items
              (λ kv, if decide (kv.1 = KStr "n") then OK kv.2 else __neg__ kv.2)
              (λ k v v', if decide (k = KStr "n") then v' = v
                         else vcls v' = vcls v ∧ expr v' = sym_neg (expr v)) D Hnd)
    as (D' & HD' & Hkeys & Hget).
  { intros k v Hin. simpl. destruct (decide (k = KStr "n")); [by exists v|].
    unfold __neg__.
    destruct (construct_is_OK (vcls v) (Raw (sym_neg (expr v))) (assumptions v)) as [r Hr].
    { intros z Hz. simpl. destruct (has z (sym_neg (expr v))) eqn:Hh; [|done].
      apply Hneg in Hh. by rewrite (Hwf k v Hin z Hz) in Hh. }
    exists r. split; [exact Hr|].
    split; [by apply construct_vcls in Hr|by apply construct_expr in Hr]. }
  exists D'. split; [exact HD'|]. split; [exact Hkeys|]. split.
  - destruct (getitem (KStr "n") D) as [v|] eqn:Hn.
    + destruct (Hget _ _ Hn) as (v' & Hv' & HP).
      rewrite decide_True in HP by done. by rewrite Hv', HP.
    + apply getitem_None. rewrite Hkeys. by apply getitem_None.
  - intros k v Hk Hkv. destruct (Hget _ _ Hkv) as (v' & Hv' & HP).
    rewrite decide_False in HP by done. by exists v'.
Qed.

(** X23: [phasor()] of a time-domain instance raises when the payload is
    not recognised as ac; otherwise it returns an instance of the plain
    class [Phasor], whatever the class of the time-domain instance, with
    payload [amp * exp(j * phase)] and the detected angular frequency,
    which is also the key a superposition files it under. *)
Theorem X23_phasor_of_time sc v :
  match ACChecker (expr v) tsym with
  | None => tExpr_phasor v = Raise NotAC
  | Some (amp, phase, w) =>
      ∃ p, tExpr_phasor v = OK p ∧ vcls p = Phasor
           ∧ expr p = sym_mul amp (sym_exp (sym_mul ImagI phase))
           ∧ assumptions p !! "omega" = Some (AVal w)
           ∧ _kind sc p = Some (KSym w)
  end.
Proof.
  unfold tExpr_phasor.
  destruct (ACChecker (expr v) tsym) as [[[amp phase] w]|]; [|done].
  destruct (construct_is_OK Phasor
              (Raw (sym_mul amp (sym_exp (sym_mul ImagI phase))))
              {["omega" := AVal w]}) as [p Hp].
  { by apply allowed_Phasor. }
  pose proof (construct_vcls _ _ _ _ Hp) as Hc.
  assert (assumptions p !! "omega" = Some (AVal w)) as Hw.
  { rewrite (construct_assumptions _ _ _ _ Hp), Expr_assumptions_lookup.
    rewrite decide_False by (intros [? _]; done). simpl.
    rewrite init_keywords_Phasor by done.
    rewrite lookup_insert_ne by done. by rewrite lookup_singleton_eq. }
  exists p. split; [exact Hp|]. split; [exact Hc|].
  split; [by apply construct_expr in Hp|]. split; [exact Hw|].
  unfold _kind, omega_key, isinstance. rewrite Hc. simpl. by rewrite Hw.
Qed.

(** X24: [simplify()] returns an instance of the same class that keeps
    the dc, ac and causal assumptions of the instance, whereas
    [conjugate] and the wrapped functions such as [sqrt] return an
    instance of the same class without them; in both cases a zero result
    is marked causal. *)
Theorem X24_wrappers_and_assumptions `{!EngineClosed E} v key :
  well_formed v → key ∈ ["dc"; "ac"; "causal"] →
  (∃ r, simplify v = OK r ∧ vcls r = vcls v ∧ expr r = sym_simplify (expr v)
        ∧ assumptions r !! key =
            if decide (key = "causal" ∧ sym_simplify (expr v) = Zero)
            then Some (ABool true) else assumptions v !! key)
  ∧ (∃ r, conjugate v = OK r ∧ vcls r = vcls v ∧ expr r = sym_conjugate (expr v)
          ∧ assumptions r !! key =
              if decide (key = "causal" ∧ sym_conjugate (expr v) = Zero)
              then Some (ABool true) else None)
  ∧ (∃ r, sqrt v = OK r ∧ vcls r = vcls v ∧ expr r = sym_sqrt (expr v)
          ∧ assumptions r !! key =
              if decide (key = "causal" ∧ sym_sqrt (expr v) = Zero)
              then Some (ABool true) else None).
Proof.
  intros Hwf Hkey. destruct (key_not_default key Hkey) as [Hk1 Hk2].
  assert (∀ e kw, allowed (vcls v) e →
            ∃ r, construct (vcls v) (Raw e) kw = OK r ∧ vcls r = vcls v ∧ expr r = e
                 ∧ assumptions r !! key =
                     if decide (key = "causal" ∧ e = Zero)
                     then Some (ABool true) else kw !! key) as Hbuild.
  { intros e kw He.
    destruct (construct_is_OK (vcls v) (Raw e) kw He) as [r Hr].
    exists r. split; [exact Hr|].
    split; [by apply construct_vcls in Hr|].
    split; [by apply construct_expr in Hr|].
    rewrite (construct_assumptions _ _ _ _ Hr), Expr_assumptions_lookup. simpl.
    destruct (decide _); [done|]. by apply init_keywords_lookup. }
  split; [|split].
  - apply Hbuild. by apply allowed_simplify.
  - destruct (Hbuild (sym_conjugate (expr v)) ∅) as (r & ? & ? & ? & Hl).
    { by apply allowed_conjugate. }
    exists r. rewrite lookup_empty in Hl. done.
  - destruct (Hbuild (sym_sqrt (expr v)) ∅) as (r & ? & ? & ? & Hl).
    { by apply allowed_sqrt. }
    exists r. rewrite lookup_empty in Hl. done.
Qed.

Lemma rmul_Raw_vcls v e r : __rmul__ v (Raw e) = OK r → vcls r = vcls v.
Proof.
  unfold __rmul__, __compat_mul__, Phasor_compat_mul, Expr_compat_mul.
  destruct (isinstance v Phasor); intros H;
    apply bind_OK in H as ([[[c v'] x'] a] & Hc & Hr);
    apply bind_OK in Hc as (x0 & _ & [= <- <- <- <-]);
    by apply construct_vcls in Hr.
Qed.

Ltac compute_classes_in H :=
  repeat match type of H with
         | context [issubclass ?c ?d] =>
             let b := eval vm_compute in (issubclass c d) in
             change (issubclass c d) with b in H
         | context [bool_decide ?P] =>
             let b := eval vm_compute in (bool_decide P) in
             change (bool_decide P) with b in H
         end;
  cbv iota in H.

(** X25: whichever component of a superposition has a [time()] method
    that returns an instance, that instance belongs to the time-domain
    class of the same quantity: [Vs], [Vphasor], [Vconst] and [Vomega]
    all give [Vt], the untyped classes give [tExpr]. *)
Theorem X25_component_time_class c x kw v r :
  construct c x kw = OK v →
  method_time v = Some (OK (Obj r)) →
  domain_of (vcls r) = Dtime ∧ quantity_role (vcls r) = quantity_role c.
Proof.
  intros Hv Hm.
  pose proof (construct_vcls _ _ _ _ Hv) as Hvc.
  destruct (construct_conjugates _ _ _ _ Hv) as [Hl Hf].
  unfold method_time, isinstance in Hm. rewrite Hvc in Hm.
  destruct c; compute_classes_in Hm; try discriminate Hm;
    injection Hm as Hm; apply bind_OK in Hm as (r0 & Hr0 & [= ->]).
  all: try (unfold sExpr_time, inverse_laplace in Hr0; rewrite Hl in Hr0;
            simpl in Hr0; apply construct_vcls in Hr0; rewrite Hr0; done).
  all: try (unfold Phasor_time in Hr0;
            apply bind_OK in Hr0 as (w0 & _ & Hr0);
            apply bind_OK in Hr0 as (t0 & _ & Hr0);
            apply bind_OK in Hr0 as (res & _ & Hr0);
            rewrite Hl in Hr0; simpl in Hr0;
            apply construct_vcls in Hr0; rewrite Hr0; done).
  all: try (unfold const_time in Hr0; rewrite Hvc in Hr0;
            apply construct_vcls in Hr0; rewrite Hr0; done).
  all: unfold omegaExpr_time in Hr0;
       apply bind_OK in Hr0 as (f0 & Hf0 & Hr0);
       apply bind_OK in Hr0 as (x0 & Hx0 & Hr0);
       apply bind_OK in Hr0 as (y & Hy & Hr0);
       unfold f in Hf0; apply construct_vcls in Hf0; apply rmul_Raw_vcls in Hx0;
       rewrite Hf0 in Hx0;
       unfold _subs1 in Hy; rewrite Hvc, Hx0 in Hy; simpl in Hy;
       destruct (construct_conjugates _ _ _ _ Hy) as [_ Hyf];
       unfold fExpr_inverse_fourier in Hr0; rewrite Hyf in Hr0; simpl in Hr0;
       apply construct_vcls in Hr0; rewrite Hr0; done.
Qed.

Lemma assumption_property_conjugates key v :
  _laplace_conjugate_class (assumption_property key v).2 = _laplace_conjugate_class v
  ∧ _fourier_conjugate_class (assumption_property key v).2 = _fourier_conjugate_class v.
Proof.
  unfold assumption_property. destruct (assumptions v !! key); simpl; [done|].
  unfold infer_assumptions, tExpr_infer_assumptions, Expr_infer_assumptions.
  destruct (isinstance v tExpr); [|done].
  by repeat match goal with |- context [if ?b then _ else _] => destruct b end.
Qed.

(** X26: [fourier()] keeps the quantity.  Whenever it returns, for a
    time-domain instance or for an s-domain instance, and for the latter
    on either path (substitution of [j * 2 * pi * f] for [s] when the
    instance is causal, inverse Laplace transform followed by a Fourier
    transform otherwise), the result belongs to the Fourier-domain class
    of the same quantity as the instance. *)
Theorem X26_fourier_class c x kw v r :
  construct c x kw = OK v →
  (isinstance v tExpr = true ∧ tExpr_fourier v = OK r)
  ∨ (isinstance v sExpr = true ∧ sExpr_fourier v = OK r) →
  domain_of (vcls r) = Dfourier ∧ quantity_role (vcls r) = quantity_role c.
Proof.
  intros Hv Hr.
  pose proof (construct_vcls _ _ _ _ Hv) as Hvc.
  destruct (construct_conjugates _ _ _ _ Hv) as [Hl Hf].
  destruct Hr as [[Ht Hr]|[Hs Hr]]; unfold isinstance in *; rewrite Hvc in *.
  - unfold tExpr_fourier in Hr. rewrite Hf in Hr.
    destruct c; vm_compute in Ht; try discriminate Ht; simpl in Hr;
      apply construct_vcls in Hr; rewrite Hr; done.
  - unfold sExpr_fourier, is_causal in Hr.
    destruct (assumption_property_same "causal" v) as [Hsc _].
    destruct (assumption_property_conjugates "causal" v) as [Hsl _].
    destruct (assumption_property "causal" v) as [causal self]. simpl in Hsc, Hsl.
    rewrite Hvc in Hsc. rewrite Hl in Hsl.
    destruct causal.
    + apply bind_OK in Hr as (x0 & Hx0 & Hr).
      unfold j2pif in Hx0. apply bind_OK in Hx0 as (f0 & Hf0 & Hx0).
      unfold f in Hf0. apply construct_vcls in Hf0.
      apply rmul_Raw_vcls in Hx0. rewrite Hf0 in Hx0.
      unfold sExpr_call, _subs1 in Hr. rewrite Hsc, Hx0 in Hr.
      destruct c; vm_compute in Hs; try discriminate Hs; simpl in Hr;
        apply construct_vcls in Hr; rewrite Hr; done.
    + apply bind_OK in Hr as (w & Hw & Hr).
      unfold sExpr_time, inverse_laplace in Hw. rewrite Hsl in Hw.
      unfold tExpr_fourier in Hr.
      destruct c; vm_compute in Hs; try discriminate Hs; simpl in Hw;
        destruct (construct_conjugates _ _ _ _ Hw) as [_ Hwf];
        rewrite Hwf in Hr; simpl in Hr;
        apply construct_vcls in Hr; rewrite Hr; done.
Qed.

End More.

(** * The term engine

    The term engine satisfies [EngineClosed]. *)

Import Toy.

Lemma occurs_sum_of x l :
  occurs x (sum_of l) = true → ∃ u, u ∈ l ∧ occurs x u = true.
Proof.
  destruct l as [|a l]; simpl; [done|].
  revert a. induction l as [|b l IH]; intros a; simpl.
  - intros H. exists a. split; [set_solver|done].
  - intros H. apply IH in H as (u & Hu & Hx).
    apply elem_of_cons in Hu as [->|Hu].
    + simpl in Hx. apply orb_true_iff in Hx as [Hx|Hx].
      * exists a. split; [set_solver|done].
      * exists b. split; [set_solver|done].
    + exists u. split; [set_solver|done].
Qed.

Lemma occurs_terms x e u : u ∈ terms e → occurs x u = true → occurs x e = true.
Proof.
  induction e as [| | | | |g a IH|o a IHa b IHb|g a IH|a IHa y b IHb];
    simpl; try (intros ->%list_elem_of_singleton; done).
  destruct o; try (intros ->%list_elem_of_singleton; done).
  intros [Hu|Hu]%elem_of_app Hx; simpl; apply orb_true_iff; auto.
Qed.

Lemma remove_one_subset b l l' u : remove_one b l = Some l' → u ∈ l' → u ∈ l.
Proof.
  revert l'. induction l as [|a l IH]; intros l'; simpl; [done|].
  destruct (decide (a = b)).
  - intros [= ->] Hu. set_solver.
  - destruct (remove_one b l) as [l0|]; simpl; [|done].
    intros [= <-] [->|Hu]%elem_of_cons; [set_solver|].
    apply elem_of_cons. right. by apply IH with l0.
Qed.

Lemma remove_all_subset bs l l' u : remove_all bs l = Some l' → u ∈ l' → u ∈ l.
Proof.
  revert l. induction bs as [|b bs IH]; intros l; simpl.
  - by intros [= ->].
  - destruct (remove_one b l) as [l0|] eqn:H0; simpl; [|done].
    intros H Hu. eapply remove_one_subset; [exact H0|]. by eapply IH.
Qed.

Lemma toy_has_add x a b :
  occurs x (t_add a b) = true → occurs x a = true ∨ occurs x b = true.
Proof.
  unfold t_add. intros H.
  repeat case_match; simplify_eq; auto;
    simpl in H; try done; apply orb_true_iff in H; auto.
Qed.

Lemma toy_has_mul x a b :
  occurs x (t_mul a b) = true → occurs x a = true ∨ occurs x b = true.
Proof.
  unfold t_mul. intros H.
  repeat case_match; simplify_eq; auto;
    simpl in H; try done; apply orb_true_iff in H; auto.
Qed.

Lemma toy_has_div x a b :
  occurs x (t_div a b) = true → occurs x a = true ∨ occurs x b = true.
Proof.
  unfold t_div. intros H.
  repeat case_match; simplify_eq; auto;
    simpl in H; try done; apply orb_true_iff in H; auto.
Qed.

Lemma toy_has_sub x a b :
  occurs x (t_sub a b) = true → occurs x a = true ∨ occurs x b = true.
Proof.
  assert (∀ a b, occurs x (match remove_all (terms b) (terms a) with
                           | Some l => sum_of l
                           | None => TBin Sub a b
                           end) = true →
                 occurs x a = true ∨ occurs x b = true) as Hgen.
  { clear. intros a b. destruct (remove_all _ _) as [l|] eqn:Hl; simpl.
    - intros (u & Hu & Hx)%occurs_sum_of. left.
      eapply occurs_terms; [|exact Hx]. by eapply remove_all_subset.
    - intros H. by apply orb_true_iff in H. }
  unfold t_sub. intros H.
  repeat match type of H with
         | context [match ?e with TInt _ => _ | _ => _ end] => destruct e
         | context [match ?z with Z0 => _ | _ => _ end] => destruct z
         end; simpl in H; try done; auto.
Qed.

Lemma toy_has_subs x a y b :
  occurs x (t_subs a y b) = true → (x ≠ y ∧ occurs x a = true) ∨ occurs x b = true.
Proof.
  induction a as [| x0 | | | |g a IH|o a1 IH1 a2 IH2|g a IH|a1 IH1 y0 a2 IH2]; simpl;
    try done.
  - destruct (decide (x0 = y)) as [->|Hne]; simpl; auto.
    intros Hx. left. split; [|done].
    apply bool_decide_eq_true in Hx. by subst.
  - intros [H|H]%orb_true_iff; [apply IH1 in H|apply IH2 in H];
      destruct H as [[? H]|H]; auto; left; split; auto; rewrite H;
      by rewrite ?orb_true_r.
  - intros [[Hxy H]%andb_true_iff|H]%orb_true_iff; auto.
    apply bool_decide_eq_true in Hxy. auto.
  - intros [[Hxy H]%andb_true_iff|H]%orb_true_iff; auto.
    apply bool_decide_eq_true in Hxy. auto.
Qed.

#[global] Instance toy_closed : EngineClosed Toy.engine.
Proof.
  split; simpl.
  - done.
  - intros x y H. by apply bool_decide_eq_true in H.
  - done.
  - done.
  - apply toy_has_add.
  - apply toy_has_sub.
  - apply toy_has_mul.
  - apply toy_has_div.
  - intros x [] H; simpl in *; done.
  - done.
  - done.
  - apply toy_has_subs.
Qed.

Local Open Scope Z_scope.

Ltac toy_wf :=
  let x := fresh in let H := fresh in
  intros x H; apply list_elem_of_In in H; vm_compute in H;
  repeat (destruct H as [<-|H]; [reflexivity|]); destruct H.

Lemma C8_witness :
  issubclass Vs sExpr = true
  ∧ has tsym (arg_payload (Raw (TSym tsym))) = true
  ∧ construct Vs (Raw (TSym tsym)) ∅ = Raise (DomainViolation Vs tsym).
Proof.
  split; [reflexivity|]. split; [reflexivity|].
  apply (C8_sExpr_rejects_time_variable (E:=Toy.engine)); reflexivity.
Defined.

Lemma C10_witness :
  arg_payload (Raw (TInt 0)) = Zero
  ∧ ∃ v, construct Vt (Raw (TInt 0)) {["causal" := ABool false]} = OK v
         ∧ expr v = Zero
         ∧ assumptions v !! "causal" = Some (ABool true)
         ∧ (is_causal v).1 = true.
Proof.
  split; [reflexivity|].
  apply (C10_zero_is_causal (E:=Toy.engine)). reflexivity.
Defined.

Lemma C9_witness :
  exact_zero (PNum (TInt 0))
  ∧ add 1 Vsuper [(KStr "dc", mkValue Vconst (TInt 5) ∅ (Some Vt) None)] (PNum (TInt 0))
    = OK [(KStr "dc", mkValue Vconst (TInt 5) ∅ (Some Vt) None)].
Proof.
  split; [reflexivity|].
  apply (C9_add_zero_is_noop (E:=Toy.engine)). reflexivity.
Defined.

(** C1 fails: the product of an s-domain voltage and an s-domain
    admittance is an s-domain voltage, and the quotient of two s-domain
    voltages is an s-domain voltage. *)
Lemma C1_counterexample :
  ∃ v y r q,
    construct Vs (Raw (TBin Div (TInt 1) (TSym ssym))) ∅ = OK v
    ∧ construct Ys (Raw (TSym ssym)) ∅ = OK y
    ∧ domain_of (vcls v) = Dlaplace ∧ domain_of (vcls y) = Dlaplace
    ∧ quantity_role (vcls v) = voltage ∧ quantity_role (vcls y) = admittance
    ∧ __mul__ v (Obj y) = OK r ∧ quantity_role (vcls r) ≠ current
    ∧ __truediv__ v (Obj v) = OK q ∧ quantity_role (vcls q) ≠ transfer_function.
Proof.
  do 4 eexists.
  split; [reflexivity|].
  split; [reflexivity|].
  do 4 (split; [reflexivity|]).
  split; [reflexivity|].
  split; [discriminate|].
  split; [reflexivity|discriminate].
Qed.

Lemma C1_witness :
  let v := mkValue Vs (TBin Div (TInt 1) (TSym ssym)) ∅ (Some Vt) None in
  let y := mkValue Ys (TSym ssym) ∅ (Some Yt) None in
  (well_formed v ∧ well_formed y ∧ quantity_role (vcls v) = voltage
   ∧ domain_of (vcls v) = domain_of (vcls y)
   ∧ quantity_role (vcls y) = admittance
   ∧ domain_of (vcls v) ∈ [Dtime; Dlaplace; Dangular]
   ∧ ∃ r, __mul__ v (Obj y) = OK r ∧ vcls r = vcls v
          ∧ expr r = sym_mul (expr v) (expr y))
  ∧ (well_formed v ∧ quantity_role (vcls v) = voltage
     ∧ domain_of (vcls v) ∈ [Dtime; Dlaplace; Dfourier; Dangular]
     ∧ ∃ r, __truediv__ v (Obj v) = OK r ∧ vcls r = vcls v
            ∧ expr r = sym_div (expr v) (expr v)).
Proof.
  intros v y.
  assert (well_formed v) as Hv by toy_wf.
  assert (well_formed y) as Hy by toy_wf.
  assert (domain_of (vcls v) ∈ [Dtime; Dlaplace; Dangular]) as Hd1
    by (apply list_elem_of_In; vm_compute; tauto).
  assert (domain_of (vcls v) ∈ [Dtime; Dlaplace; Dfourier; Dangular]) as Hd2
    by (apply list_elem_of_In; vm_compute; tauto).
  split.
  - do 5 (split; [done|]). split; [done|].
    apply (C1_amended (E:=Toy.engine) v y Hv Hy eq_refl eq_refl); done.
  - do 2 (split; [done|]). split; [done|].
    apply (C1_amended (E:=Toy.engine) v v Hv Hv eq_refl eq_refl); done.
Defined.

(** C3: the sum of a phasor voltage and a phasor current of the same
    angular frequency does not raise: [Phasor.__compat_add__] compares
    the two angular frequencies only, and the sum comes back as a phasor
    voltage.  Here 1 V and 1 A at omega = 3 add to the phasor voltage 2. *)
Theorem C3_phasor_voltage_plus_current_returns :
  ∃ v i r,
    construct Vphasor (Raw (TInt 1)) {["omega" := AVal (TInt 3)]} = OK v
    ∧ construct Iphasor (Raw (TInt 1)) {["omega" := AVal (TInt 3)]} = OK i
    ∧ quantity_role (vcls v) = voltage ∧ quantity_role (vcls i) = current
    ∧ __add__ v (Obj i) = OK r
    ∧ vcls r = Vphasor ∧ expr r = TInt 2.
Proof.
  do 3 eexists.
  split; [reflexivity|].
  split; [reflexivity|].
  do 2 (split; [reflexivity|]).
  split; [reflexivity|]. done.
Qed.

(** C4 fails: the sum of a causal s-domain value and an s-domain value
    without assumptions is not causal. *)
Lemma C4_counterexample :
  ∃ v y r,
    construct sExpr (Raw (TBin Div (TInt 1) (TSym ssym))) {["causal" := ABool true]} = OK v
    ∧ construct sExpr (Raw (TBin Div (TInt 1) (TBin Pow (TSym ssym) (TInt 2)))) ∅ = OK y
    ∧ domain_of (vcls v) = domain_of (vcls y)
    ∧ (is_causal v).1 = true
    ∧ __add__ v (Obj y) = OK r
    ∧ assumptions r !! "causal" = None
    ∧ (is_causal r).1 = false.
Proof.
  do 3 eexists.
  split; [reflexivity|].
  split; [reflexivity|].
  split; [reflexivity|].
  split; [reflexivity|].
  split; [reflexivity|].
  split; reflexivity.
Qed.

Lemma C4_witness :
  let v := mkValue sExpr (TBin Div (TInt 1) (TSym ssym))
             {["causal" := ABool true]} (Some tExpr) None in
  let y := mkValue sExpr (TBin Div (TInt 1) (TBin Pow (TSym ssym) (TInt 2)))
             {["causal" := ABool true]} (Some tExpr) None in
  ∃ r, "causal" ∈ ["dc"; "ac"; "causal"]
       ∧ (__add__ v (Obj y) = OK r ∨ __sub__ v (Obj y) = OK r)
       ∧ assumptions r !! "causal" = Some (ABool true).
Proof.
  intros v y. eexists.
  assert ("causal" ∈ ["dc"; "ac"; "causal"]) as Hk
    by (apply list_elem_of_In; simpl; tauto).
  split; [exact Hk|].
  assert (__add__ v (Obj y) = OK _) as Hr by reflexivity.
  split; [left; exact Hr|].
  rewrite (C4_amended (E:=Toy.engine) v y _ "causal" Hk (or_introl Hr)).
  reflexivity.
Defined.

Lemma C5_witness :
  let old := mkValue Vn (TInt 3) ∅ None (Some Vt) in
  let v := mkValue Vn (TInt 4) ∅ None (Some Vt) in
  let D := [(KStr "n", old)] in
  (expr v ≠ Zero ∧ isinstance v tExpr = false
   ∧ _kind Vsuper v = Some (KStr "n") ∧ well_formed v
   ∧ getitem (KStr "n") D = Some old ∧ vcls old = vcls v ∧ well_formed old)
  ∧ ∃ r, add 1 Vsuper D (PExpr v) = OK (setitem (KStr "n") r D)
         ∧ vcls r = Vn
         ∧ expr r = TUn Sqrt (TInt 25)
         ∧ expr r ≠ TInt 7.
Proof.
  intros old v D.
  assert (expr v ≠ Zero) as Hz by discriminate.
  assert (well_formed v) as Hv by toy_wf.
  assert (well_formed old) as Ho by toy_wf.
  split; [repeat split; done|].
  destruct (C5_noise_power_basis (E:=Toy.engine) 0 Vsuper D v Hz eq_refl) as [H _].
  destruct (H old eq_refl Hv eq_refl eq_refl Ho) as (r & Hr & _ & Hc & He).
  exists r. split; [exact Hr|]. split; [exact Hc|].
  rewrite He. split; [reflexivity|discriminate].
Defined.

(** C6: the merge of phasors of the same angular frequency works once
    only.  Three voltage phasors of angular frequency 3 are added to an
    empty superposition: the first two merge into one entry under the
    key 3 whose value is their sum, but [Phasor.__compat_add__] returns
    no assumptions for the sum, so the merged entry has lost its
    ['omega'] and stands at the default frequency; adding the third
    phasor then raises the frequency mismatch instead of merging. *)
Theorem C6_third_phasor_at_same_frequency_raises :
  ∃ p1 p2 p3 r,
    construct Vphasor (Raw (TInt 1)) {["omega" := AVal (TInt 3)]} = OK p1
    ∧ construct Vphasor (Raw (TInt 2)) {["omega" := AVal (TInt 3)]} = OK p2
    ∧ construct Vphasor (Raw (TInt 4)) {["omega" := AVal (TInt 3)]} = OK p3
    ∧ (D1 ← add 1 Vsuper [] (PExpr p1); add 1 Vsuper D1 (PExpr p2))
      = OK [(KSym (TInt 3), r)]
    ∧ expr r = TInt 3
    ∧ assumptions r !! "omega" = None
    ∧ add 1 Vsuper [(KSym (TInt 3), r)] (PExpr p3)
      = Raise (OmegaMismatch Vphasor Vphasor).
Proof.
  do 4 eexists.
  split; [reflexivity|].
  split; [reflexivity|].
  split; [reflexivity|].
  split; [vm_compute; reflexivity|].
  split; [reflexivity|].
  split; [reflexivity|].
  vm_compute. reflexivity.
Qed.

Lemma C7_witness :
  let X := mkValue Vs (TBin Div (TInt 1) (TSym ssym))
             {["causal" := ABool true]} (Some Vt) None in
  (isinstance X sExpr = true ∧ well_formed X
   ∧ assumptions X !! "causal" = Some (ABool true))
  ∧ ∃ r, sExpr_fourier X = OK r
         ∧ expr r = TBin Div (TInt 1)
                      (TBin Mul (TSym fsym) (TBin Mul (TBin Mul TI (TInt 2)) TPi))
         ∧ vcls r = Vf.
Proof.
  intros X.
  assert (well_formed X) as HX by toy_wf.
  split; [repeat split; done|].
  destruct (C7_causal_fourier_by_substitution (E:=Toy.engine) X eq_refl HX eq_refl)
    as (r & Hr & He & _ & _).
  exists r. split; [exact Hr|]. split; [exact He|].
  assert (sExpr_fourier X = OK (mkValue Vf (expr r) {["real" := ABool true]} None (Some Vt)))
    as Hr' by (rewrite He; reflexivity).
  rewrite Hr in Hr'. by injection Hr' as ->.
Defined.

(** The two signals differ at [t = pi/4]: the first is
    [6 + exp(-pi/4)], the second [5 + exp(-pi/4)]. *)
Lemma recomposed_differs :
  eval recomposed (PI / 4) ≠ eval dc_ac_transient (PI / 4).
Proof.
  unfold recomposed, dc_ac_transient. simpl.
  replace (PI / 4 + PI / 4)%R with (PI / 2)%R by lra.
  rewrite cos_PI2.
  pose proof (sin2_cos2 (PI / 4)) as Hsc. unfold Rsqr in Hsc.
  set (c := (Rtrigo_def.exp _ * _)%R). lra.
Qed.

(** C2: for [x = 5 + cos(t + pi/4) + exp(-t) * u(t)], [Vsuper(x)] holds a
    dc component 5, the phasor [exp(j * pi/4)] at angular frequency 1 and
    an s-domain transient, and [Vsuper(x).time()] returns
    [5 + (cos(t) * cos(pi/4) + sin(t) * sin(pi/4)) + exp(-t) * u(t)],
    which is not [x]: at [t = pi/4] the two differ.  The sinusoid
    [cos(t + pi/4)] comes back as [cos(t - pi/4)]. *)
Theorem C2_roundtrip_changes_phase :
  ∃ v D r,
    construct Vt (Raw dc_ac_transient) ∅ = OK v
    ∧ Super_init 2 Vsuper [PExpr v] = OK D
    ∧ keys D = [KStr "dc"; KSym (TInt 1); KStr "s"]
    ∧ expr <$> getitem (KSym (TInt 1)) D
      = Some (TUn Exp (TBin Mul TI (TBin Div TPi (TInt 4))))
    ∧ Super_time Vsuper D = OK r
    ∧ expr r = recomposed
    ∧ eval (expr r) (PI / 4) ≠ eval (expr v) (PI / 4).
Proof.
  do 3 eexists.
  split; [vm_compute; reflexivity|].
  split; [vm_compute; reflexivity|].
  split; [vm_compute; reflexivity|].
  split; [vm_compute; reflexivity|].
  split; [vm_compute; reflexivity|].
  split; [vm_compute; reflexivity|].
  exact recomposed_differs.
Qed.


(** ** Instances of the further properties *)

Ltac toy_in := apply list_elem_of_In; vm_compute; tauto.

Lemma X2_witness :
  let v := mkValue Vs (TBin Div (TInt 1) (TSym ssym))
             {["causal" := ABool true]} (Some Vt) None in
  ∃ r, construct Vs (Obj v) ∅ = OK r
       ∧ "causal" ∈ ["dc"; "ac"; "causal"]
       ∧ assumptions r !! "causal" = Some (ABool true).
Proof.
  intros v. eexists.
  assert (construct Vs (Obj v) ∅ = OK _) as Hr by reflexivity.
  assert ("causal" ∈ ["dc"; "ac"; "causal"]) as Hk by toy_in.
  split; [exact Hr|]. split; [exact Hk|].
  rewrite (X2_rewrap_assumptions (E:=Toy.engine) Vs v _ "causal" Hr Hk).
  reflexivity.
Defined.

Lemma X4_witness :
  let v := mkValue Vs (TBin Div (TInt 1) (TSym ssym))
             {["causal" := ABool true]} (Some Vt) None in
  isinstance v sExpr = true ∧ well_formed v
  ∧ ∃ r, sExpr_laplace v = OK r ∧ vcls r = vcls v ∧ expr r = expr v
         ∧ ∀ key, key ∈ ["dc"; "ac"; "causal"] →
             assumptions r !! key =
               if decide (key = "causal" ∧ expr v = Zero) then Some (ABool true)
               else Some ANone.
Proof.
  intros v. assert (well_formed v) as Hw by toy_wf.
  split; [reflexivity|]. split; [exact Hw|].
  exact (X4_sExpr_laplace_resets (E:=Toy.engine) v eq_refl Hw).
Defined.

Lemma X5_witness :
  let X := mkValue Vs (TBin Div (TInt 1) (TSym ssym)) ∅ (Some Vt) None in
  isinstance X sExpr = true ∧ well_formed X
  ∧ ∃ r, jomega X = OK r
         ∧ expr r = sym_subs (expr X) ssym (sym_mul (Sym omegasym) ImagI)
         ∧ domain_of (vcls r) = Dangular
         ∧ quantity_role (vcls r) = quantity_role (vcls X).
Proof.
  intros X. assert (well_formed X) as Hw by toy_wf.
  split; [reflexivity|]. split; [exact Hw|].
  exact (X5_jomega_by_substitution (E:=Toy.engine) X eq_refl Hw).
Defined.

Lemma X6_witness :
  ∃ v w u,
    construct Vt (Raw (TSym tsym)) ∅ = OK v ∧ isinstance v tExpr = true
    ∧ tExpr_laplace v = OK w ∧ inverse_laplace w ∅ = OK u
    ∧ laplace_conjugate Vt = Some (vcls w)
    ∧ laplace_conjugate (vcls w) = Some Vt
    ∧ domain_of (vcls w) = Dlaplace
    ∧ quantity_role (vcls w) = quantity_role Vt
    ∧ vcls u = Vt
    ∧ expr u = inverse_laplace_transform (laplace_transform (expr v)) (assumptions w).
Proof.
  do 3 eexists.
  split; [reflexivity|]. split; [reflexivity|].
  split; [reflexivity|]. split; [reflexivity|].
  exact (X6_laplace_class_round_trip (E:=Toy.engine) Vt (Raw (TSym tsym)) ∅ _ _ _
           eq_refl eq_refl eq_refl eq_refl).
Defined.

Lemma X7_witness :
  let v := mkValue Vs (TBin Div (TInt 1) (TSym ssym))
             {["causal" := ABool true]} (Some Vt) None in
  let y := mkValue Ys (TSym ssym) ∅ (Some Yt) None in
  isinstance v sExpr = true ∧ isinstance y sExpr = true
  ∧ well_formed v ∧ well_formed y
  ∧ (∃ r, __mul__ v (Obj y) = OK r ∧ isinstance r sExpr = true
          ∧ expr r = sym_mul (expr v) (expr y)
          ∧ ((is_causal v).1 = true ∨ (is_causal y).1 = true →
             (sym_mul (expr v) (expr y) ≠ Zero →
              assumptions r = {["causal" := ABool true]})
             ∧ (is_causal r).1 = true))
  ∧ (∃ r, __truediv__ v (Obj y) = OK r ∧ isinstance r sExpr = true
          ∧ expr r = sym_div (expr v) (expr y)
          ∧ ((is_causal v).1 = true ∨ (is_causal y).1 = true →
             (is_causal r).1 = true)).
Proof.
  intros v y.
  assert (well_formed v) as Hv by toy_wf.
  assert (well_formed y) as Hy by toy_wf.
  split; [reflexivity|]. split; [reflexivity|].
  split; [exact Hv|]. split; [exact Hy|].
  exact (X7_s_product_causal (E:=Toy.engine) v y eq_refl eq_refl Hv Hy).
Defined.

Lemma X8_witness :
  let v := mkValue Vs (TBin Div (TInt 1) (TSym ssym))
             {["causal" := ABool true]} (Some Vt) None in
  isinstance v Phasor = false ∧ well_formed v ∧ allowed (vcls v) (TInt 2)
  ∧ "causal" ∈ ["dc"; "ac"; "causal"]
  ∧ ∃ r, __mul__ v (Raw (TInt 2)) = OK r ∧ vcls r = Vs
         ∧ assumptions r !! "causal" = None.
Proof.
  intros v.
  assert (well_formed v) as Hv by toy_wf.
  assert (allowed (vcls v) (TInt 2)) as He by toy_wf.
  assert ("causal" ∈ ["dc"; "ac"; "causal"]) as Hk by toy_in.
  split; [reflexivity|]. split; [exact Hv|]. split; [exact He|]. split; [exact Hk|].
  destruct (X8_number_scaling_forgets (E:=Toy.engine) v (TInt 2) "causal"
              eq_refl Hv He Hk) as [(r & Hr & Hc & _ & Ha) _].
  exists r. split; [exact Hr|]. split; [exact Hc|]. exact Ha.
Defined.

Lemma X9_witness :
  let v := mkValue Vphasor (TInt 1) {["omega" := AVal (TInt 3)]} (Some Vt) None in
  let y := mkValue Vphasor (TInt 2) {["omega" := ANone]} (Some Vt) None in
  isinstance v Phasor = true
  ∧ (∃ r, __mul__ v (Raw (TInt 2)) = OK r ∧ vcls r = vcls v
          ∧ expr r = sym_mul (expr v) (TInt 2)
          ∧ assumptions r !! "omega" = assumptions v !! "omega")
  ∧ __mul__ v (Obj y) = Raise (OmegaMismatch Vphasor Vphasor).
Proof.
  intros v y. split; [reflexivity|]. split.
  - exact (X9_phasor_product (E:=Toy.engine) v (Raw (TInt 2)) eq_refl).
  - apply (X9_phasor_product (E:=Toy.engine) v (Obj y) eq_refl).
    right. split; [reflexivity|discriminate].
Defined.

Lemma X10_witness :
  let w := mkValue Vomega (TSym omegasym) ∅ None (Some Vt) in
  let x := mkValue Vt (TSym tsym) ∅ (Some Vs) (Some Vf) in
  isinstance w omegaExpr = true ∧ isinstance x tExpr = true
  ∧ well_formed w ∧ well_formed x
  ∧ (∃ r, __mul__ w (Obj x) = OK r ∧ vcls r = vcls x
          ∧ expr r = sym_mul (expr w) (expr x))
  ∧ (∃ r, __mul__ x (Obj w) = OK r ∧ vcls r = vcls x
          ∧ expr r = sym_mul (expr x) (expr w)).
Proof.
  intros w x.
  assert (well_formed w) as Hw by toy_wf.
  assert (well_formed x) as Hx by toy_wf.
  split; [reflexivity|]. split; [reflexivity|].
  split; [exact Hw|]. split; [exact Hx|].
  exact (X10_omega_times_t (E:=Toy.engine) w x eq_refl eq_refl Hw Hx).
Defined.

Lemma X11_witness :
  let v := mkValue Vs (TBin Div (TInt 1) (TSym ssym)) ∅ (Some Vt) None in
  let y := mkValue Vt (TSym tsym) ∅ (Some Vs) (Some Vf) in
  (domain_of (vcls v) ∈ [Dlaplace; Dfourier] ∨ domain_of (vcls y) ∈ [Dlaplace; Dfourier])
  ∧ domain_of (vcls v) ≠ domain_of (vcls y)
  ∧ domain_of (vcls v) ∈ [Dtime; Dlaplace; Dfourier; Dangular; Dnoise]
  ∧ domain_of (vcls y) ∈ [Dtime; Dlaplace; Dfourier; Dangular; Dnoise]
  ∧ __mul__ v (Obj y) = Raise (Incompatible (vcls v) (vcls y) "*")
  ∧ __truediv__ v (Obj y) = Raise (Incompatible (vcls v) (vcls y) "/").
Proof.
  intros v y.
  assert (domain_of (vcls v) ∈ [Dlaplace; Dfourier]
          ∨ domain_of (vcls y) ∈ [Dlaplace; Dfourier]) as H1 by (left; toy_in).
  assert (domain_of (vcls v) ≠ domain_of (vcls y)) as H2 by discriminate.
  assert (domain_of (vcls v) ∈ [Dtime; Dlaplace; Dfourier; Dangular; Dnoise]) as H3
    by toy_in.
  assert (domain_of (vcls y) ∈ [Dtime; Dlaplace; Dfourier; Dangular; Dnoise]) as H4
    by toy_in.
  split; [exact H1|]. split; [exact H2|]. split; [exact H3|]. split; [exact H4|].
  exact (X11_cross_domain_product_raises (E:=Toy.engine) v y H1 H2 H3 H4).
Defined.

Lemma X12_witness :
  let v := mkValue Is (TBin Div (TInt 1) (TSym ssym)) ∅ (Some It) None in
  let y := mkValue Zs (TSym ssym) ∅ (Some Zt) None in
  sExpr ∈ [tExpr; sExpr; omegaExpr]
  ∧ isinstance v sExpr = true ∧ isinstance y sExpr = true
  ∧ well_formed v ∧ well_formed y
  ∧ (∃ r, __mul__ v (Obj y) = OK r ∧ vcls r = Is
          ∧ expr r = sym_mul (expr v) (expr y))
  ∧ (∃ r, __truediv__ v (Obj y) = OK r ∧ vcls r = Is
          ∧ expr r = sym_div (expr v) (expr y)).
Proof.
  intros v y.
  assert (sExpr ∈ [tExpr; sExpr; omegaExpr]) as HD by toy_in.
  assert (well_formed v) as Hv by toy_wf.
  assert (well_formed y) as Hy by toy_wf.
  split; [exact HD|]. split; [reflexivity|]. split; [reflexivity|].
  split; [exact Hv|]. split; [exact Hy|].
  exact (X12_same_domain_product (E:=Toy.engine) sExpr v y HD eq_refl eq_refl Hv Hy).
Defined.

Lemma X13_witness :
  let v := mkValue Vf (TSym fsym) ∅ None (Some Vt) in
  let y := mkValue Yf (TSym fsym) ∅ None (Some Yt) in
  isinstance v fExpr = true ∧ isinstance y fExpr = true
  ∧ well_formed v ∧ well_formed y
  ∧ __mul__ v (Obj y) = Raise (Incompatible Vf Yf "*")
  ∧ __truediv__ v (Obj y) = Raise (Incompatible Vf Yf "/").
Proof.
  intros v y.
  assert (well_formed v) as Hv by toy_wf.
  assert (well_formed y) as Hy by toy_wf.
  split; [reflexivity|]. split; [reflexivity|].
  split; [exact Hv|]. split; [exact Hy|].
  exact (X13_fourier_product (E:=Toy.engine) v y eq_refl eq_refl Hv Hy).
Defined.

Lemma X14_witness :
  let v := mkValue Vs (TBin Div (TInt 1) (TSym ssym)) ∅ (Some Vt) None in
  let y := mkValue Is (TSym ssym) ∅ (Some It) None in
  isinstance v Phasor = false ∧ well_formed v ∧ well_formed y
  ∧ __add__ v (Obj y) = Raise (Incompatible Vs Is "+")
  ∧ __sub__ v (Obj y) = Raise (Incompatible Vs Is "-").
Proof.
  intros v y.
  assert (well_formed v) as Hv by toy_wf.
  assert (well_formed y) as Hy by toy_wf.
  split; [reflexivity|]. split; [exact Hv|]. split; [exact Hy|].
  exact (X14_sum_class (E:=Toy.engine) v y eq_refl Hv Hy).
Defined.

Lemma X15_witness :
  let v := mkValue Vs (TBin Div (TInt 1) (TSym ssym))
             {["causal" := ABool true]} (Some Vt) None in
  let y := mkValue Vs (TBin Div (TInt 1) (TSym ssym)) ∅ (Some Vt) None in
  isinstance v Phasor = false ∧ well_formed v ∧ well_formed y
  ∧ allowed Vs (expr y)
  ∧ __eq__ v (Obj y) = OK true ∧ __ne__ v (Obj y) = OK false.
Proof.
  intros v y.
  assert (well_formed v) as Hv by toy_wf.
  assert (well_formed y) as Hy by toy_wf.
  split; [reflexivity|]. split; [exact Hv|]. split; [exact Hy|]. split; [exact Hy|].
  exact (X15_equality_compares_payloads (E:=Toy.engine) v y eq_refl Hv Hy Hy).
Defined.

Lemma X16_witness :
  let v := mkValue Vphasor (TInt 1) {["omega" := AVal (TInt 3)]} (Some Vt) None in
  let y := mkValue Iphasor (TInt 1) {["omega" := AVal (TInt 3)]} (Some It) None in
  let z := mkValue Vphasor (TInt 1) ∅ (Some Vt) None in
  let n := mkValue Vphasor (TInt 1) {["omega" := ANone]} (Some Vt) None in
  isinstance v Phasor = true
  ∧ __eq__ v (Obj y) = OK true
  ∧ __eq__ n (Obj z) = Raise (OmegaMismatch Vphasor Vphasor).
Proof.
  intros v y z n. split; [reflexivity|]. split.
  - exact (proj1 (X16_phasor_equality (E:=Toy.engine) v y eq_refl) eq_refl).
  - apply (X16_phasor_equality (E:=Toy.engine) n z eq_refl).
    left. split; [reflexivity|discriminate].
Defined.

Lemma X18_witness :
  TInt 5 ≠ Zero ∧ allowed cExpr (TInt 5)
  ∧ ∃ v, construct Vconst (Raw (TInt 5)) ∅ = OK v ∧ vcls v = Vconst
         ∧ add 2 Vsuper [] (PNum (TInt 5)) = OK [(KStr "dc", v)].
Proof.
  assert (TInt 5 ≠ Zero) as Hnz by discriminate.
  assert (allowed cExpr (TInt 5)) as He by toy_wf.
  split; [exact Hnz|]. split; [exact He|].
  destruct (X18_add_number (E:=Toy.engine) 0 Vsuper [] (TInt 5) Hnz He)
    as (v & Hv & Hc & _ & Hadd & _).
  exists v. split; [exact Hv|]. split; [exact Hc|]. exact (Hadd eq_refl).
Defined.

Lemma X20_witness :
  let v := mkValue Is (TBin Div (TInt 1) (TSym ssym)) ∅ (Some It) None in
  well_formed v ∧ expr v ≠ Zero
  ∧ domain_of (vcls v) ∈ [Dlaplace; Dconstant; Dangular]
  ∧ ∃ v', expr v' = expr v ∧ vcls v' = Vs
          ∧ add 1 Vsuper [] (PExpr v) = OK [(KStr "s", v')].
Proof.
  intros v.
  assert (well_formed v) as Hv by toy_wf.
  assert (expr v ≠ Zero) as Hnz by discriminate.
  assert (domain_of (vcls v) ∈ [Dlaplace; Dconstant; Dangular]) as Hd by toy_in.
  split; [exact Hv|]. split; [exact Hnz|]. split; [exact Hd|].
  exact (X20_add_files_by_domain (E:=Toy.engine) 0 Vsuper [] v Hv Hnz Hd).
Defined.

Lemma X21_witness :
  let v := mkValue Vs (TBin Div (TInt 1) (TSym ssym)) ∅ (Some Vt) None in
  let D := [(KStr "s", v)] in
  NoDup (keys D) ∧ (∀ k u, (k, u) ∈ D → well_formed u) ∧ (∀ z, has z (TInt 2) = false)
  ∧ ∃ D', Super_scale D (TInt 2) = OK D'
          ∧ keys D' = keys D
          ∧ ∀ k u, getitem k D = Some u →
              ∃ u', getitem k D' = Some u' ∧ vcls u' = vcls u
                    ∧ expr u' = sym_mul (expr u) (TInt 2).
Proof.
  intros v D.
  assert (NoDup (keys D)) as Hnd by apply NoDup_singleton.
  assert (∀ k u, (k, u) ∈ D → well_formed u) as Hwf.
  { intros k u Hin. apply list_elem_of_singleton in Hin. injection Hin as -> ->. toy_wf. }
  assert (∀ z, has z (TInt 2) = false) as Hx by reflexivity.
  split; [exact Hnd|]. split; [exact Hwf|]. split; [exact Hx|].
  exact (X21_scale_keeps_keys (E:=Toy.engine) D (TInt 2) Hnd Hwf Hx).
Defined.

Lemma X22_witness :
  let v := mkValue Vs (TBin Div (TInt 1) (TSym ssym)) ∅ (Some Vt) None in
  let n := mkValue Vn (TInt 3) ∅ None (Some Vt) in
  let D := [(KStr "s", v); (KStr "n", n)] in
  (∀ z e, has z (sym_neg e) = true → has z e = true)
  ∧ NoDup (keys D) ∧ (∀ k u, (k, u) ∈ D → well_formed u)
  ∧ ∃ D', Super_neg D = OK D'
          ∧ keys D' = keys D
          ∧ getitem (KStr "n") D' = getitem (KStr "n") D
          ∧ ∀ k u, k ≠ KStr "n" → getitem k D = Some u →
              ∃ u', getitem k D' = Some u' ∧ vcls u' = vcls u
                    ∧ expr u' = sym_neg (expr u).
Proof.
  intros v n D.
  assert (∀ z e, has z (sym_neg e) = true → has z e = true) as Hneg
    by (intros z e H; exact H).
  assert (NoDup (keys D)) as Hnd.
  { apply NoDup_cons. split; [|apply NoDup_singleton].
    intros Hin. apply list_elem_of_singleton in Hin. discriminate Hin. }
  assert (∀ k u, (k, u) ∈ D → well_formed u) as Hwf.
  { intros k u Hin. apply elem_of_cons in Hin as [Hin|Hin].
    - injection Hin as -> ->. toy_wf.
    - apply list_elem_of_singleton in Hin. injection Hin as -> ->. toy_wf. }
  split; [exact Hneg|]. split; [exact Hnd|]. split; [exact Hwf|].
  exact (X22_negation_spares_noise (E:=Toy.engine) D Hneg Hnd Hwf).
Defined.

Lemma X24_witness :
  let v := mkValue Vs (TBin Div (TInt 1) (TSym ssym))
             {["causal" := ABool true]} (Some Vt) None in
  well_formed v ∧ "causal" ∈ ["dc"; "ac"; "causal"]
  ∧ (∃ r, simplify v = OK r ∧ assumptions r !! "causal" = Some (ABool true))
  ∧ (∃ r, conjugate v = OK r ∧ assumptions r !! "causal" = None).
Proof.
  intros v.
  assert (well_formed v) as Hv by toy_wf.
  assert ("causal" ∈ ["dc"; "ac"; "causal"]) as Hk by toy_in.
  split; [exact Hv|]. split; [exact Hk|].
  destruct (X24_wrappers_and_assumptions (E:=Toy.engine) v "causal" Hv Hk)
    as ((r1 & Hr1 & _ & _ & Ha1) & (r2 & Hr2 & _ & _ & Ha2) & _).
  split; [exists r1|exists r2]; (split; [assumption|]); [exact Ha1|exact Ha2].
Defined.

Lemma X25_witness :
  ∃ v r,
    construct Vconst (Raw (TInt 5)) ∅ = OK v
    ∧ method_time v = Some (OK (Obj r))
    ∧ domain_of (vcls r) = Dtime ∧ quantity_role (vcls r) = quantity_role Vconst.
Proof.
  do 2 eexists. split; [reflexivity|]. split; [reflexivity|].
  exact (X25_component_time_class (E:=Toy.engine) Vconst (Raw (TInt 5)) ∅ _ _
           eq_refl eq_refl).
Defined.

Lemma X26_witness :
  ∃ v r,
    construct Vs (Raw (TBin Div (TInt 1) (TSym ssym))) {["causal" := ABool true]} = OK v
    ∧ ((isinstance v tExpr = true ∧ tExpr_fourier v = OK r)
       ∨ (isinstance v sExpr = true ∧ sExpr_fourier v = OK r))
    ∧ domain_of (vcls r) = Dfourier ∧ quantity_role (vcls r) = quantity_role Vs.
Proof.
  do 2 eexists. split; [reflexivity|].
  split; [right; split; reflexivity|].
  exact (X26_fourier_class (E:=Toy.engine) Vs (Raw (TBin Div (TInt 1) (TSym ssym)))
           {["causal" := ABool true]} _ _ eq_refl
           (or_intror (conj eq_refl eq_refl))).
Defined.

Lemma X17_witness :
  ∃ r, select Vsuper [] (KStr "s") = OK r ∧ expr r = Zero
       ∧ (is_causal r).1 = true ∧ vcls r = Vs.
Proof.
  exact (X17_select_total (E:=Toy.engine) Vsuper [] (KStr "s")).
Defined.

Lemma X19_witness :
  let v := mkValue Vf (TSym fsym) ∅ None (Some Vt) in
  expr v ≠ Zero ∧ isinstance v fExpr = true
  ∧ add 1 Vsuper [] (PExpr v) = Raise (CannotHandle (Some Vf)).
Proof.
  intros v.
  assert (expr v ≠ Zero) as Hnz by discriminate.
  split; [exact Hnz|]. split; [reflexivity|].
  exact (proj1 (X19_add_cannot_handle (E:=Toy.engine) 0 Vsuper []) v Hnz
           (or_intror eq_refl)).
Defined.
